(** * NBA player-prop parlay engine: shallow embedding and checked properties

    Source: [src/nba_odds/parlay_generator.py].

    Numbers: Python floats are modelled as exact rationals ([Q], compared
    with [==]), so the statements below are about the arithmetic the code
    writes down, not about rounding.  The one exception is the American-odds
    cap of the greedy builder, whose boundary falls on a rounding step: there
    the computation is rounded to binary64 as the interpreter does it (see
    "Binary64 rounding").  Python ints that drive control flow ([min_legs],
    [max_legs], [top_n], index labels) are [Z].

    Rows: the props table is the CSV written by [run_pipeline.py]; its twelve
    columns are the fields of [Leg].  [extra] holds any further numeric
    columns a table may carry.  Subscripting a row ([leg["k"]]) is a lookup
    in [items] and raises [KeyError] for a column the row does not have. *)

From Stdlib Require Import QArith ZArith String List Lia Lqa Permutation Sorted Qround Qpower.
From stdpp Require Import gmap strings list pretty.

Local Open Scope string_scope.
Local Open Scope list_scope.
Local Open Scope Q_scope.

(** ** Exceptions *)

Inductive exn : Type :=
| KeyError (k : string)
| TypeError
| ValueError
| ZeroDivisionError.

Inductive result (A : Type) : Type :=
| Ok (a : A)
| Raise (e : exn).

Arguments Ok {A} a.
Arguments Raise {A} e.

Definition bind {A B : Type} (m : result A) (f : A -> result B) : result B :=
  match m with
  | Ok a => f a
  | Raise e => Raise e
  end.

Notation "'let*' x ':=' m 'in' k" := (bind m (fun x => k))
  (at level 10, x pattern, m at level 100, k at level 200).

(** ** Float comparisons *)

Definition Qlt_b (x y : Q) : bool := negb (Qle_bool y x).
Definition Qgt_b (x y : Q) : bool := Qlt_b y x.
Definition Qge_b (x y : Q) : bool := Qle_bool y x.

(** [x / n] for a float [x] and an int [n]. *)
Definition py_div (x : Q) (n : nat) : result Q :=
  match n with
  | O => Raise ZeroDivisionError
  | S _ => Ok (x / inject_Z (Z.of_nat n))
  end.

(** ** Rows of the props table *)

Inductive value : Type :=
| VStr (s : string)
| VNum (q : Q).

Record Leg : Type := mkLeg {
  player_name : string;
  market_key : string;
  market_description : string;
  bookmaker : string;
  outcome : string;
  odds_decimal : Q;
  prop_line : Q;
  description : string;
  projection_type : string;
  projection : Q;
  edge : Q;
  implied_prob : Q;
  extra : list (string * Q)
}.

(** [leg.items()]: the (column, value) pairs in column order. *)
Definition items (leg : Leg) : list (string * value) :=
  [ ("player_name", VStr (player_name leg));
    ("market_key", VStr (market_key leg));
    ("market_description", VStr (market_description leg));
    ("bookmaker", VStr (bookmaker leg));
    ("outcome", VStr (outcome leg));
    ("odds_decimal", VNum (odds_decimal leg));
    ("prop_line", VNum (prop_line leg));
    ("description", VStr (description leg));
    ("projection_type", VStr (projection_type leg));
    ("projection", VNum (projection leg));
    ("edge", VNum (edge leg));
    ("implied_prob", VNum (implied_prob leg)) ]
  ++ map (fun kq => (fst kq, VNum (snd kq))) (extra leg).

Fixpoint assoc (k : string) (kvs : list (string * value)) : option value :=
  match kvs with
  | [] => None
  | (k', v) :: rest => if String.eqb k k' then Some v else assoc k rest
  end.

(** [leg[k]] *)
Definition getitem (leg : Leg) (k : string) : result value :=
  match assoc k (items leg) with
  | Some v => Ok v
  | None => Raise (KeyError k)
  end.

(** A subscript used as a number ([prob *= leg[k]], [edge += leg[k]]). *)
Definition getnum (leg : Leg) (k : string) : result Q :=
  let* v := getitem leg k in
  match v with
  | VNum q => Ok q
  | VStr _ => Raise TypeError
  end.

(** A row of a DataFrame: its index label and its columns. *)
Definition Row : Type := Z * Leg.
Definition DataFrame : Type := list Row.

(** [df.to_dict(orient="records")] keeps the columns and drops the labels. *)
Definition to_dict_records (df : DataFrame) : list Leg := map snd df.

(** A leg stored in a parlay is either a dict (from [to_dict]) or a Series
    (a row taken with [iloc], which remembers its index label as [.name]). *)
Inductive leg_obj : Type :=
| Dict (cols : Leg)
| Series (name : Z) (cols : Leg).

Definition cols_of (l : leg_obj) : Leg :=
  match l with
  | Dict c => c
  | Series _ c => c
  end.

Definition series_of (r : Row) : leg_obj := Series (fst r) (snd r).

(** The dict every builder creates for a parlay. *)
Record Parlay : Type := mkParlay {
  legs : list leg_obj;
  num_legs : nat;
  probability : Q;
  avg_edge : Q;
  payout : Q
}.

(** ** Scorer *)

(** The accumulation loop shared by the scorers:
    [prob *= leg["implied_prob"]; edge += leg["edge"]; payout *= leg[odds]]. *)
Fixpoint score_loop (odds_col : string) (parlay : list Leg) (acc : Q * Q * Q)
  : result (Q * Q * Q) :=
  match parlay with
  | [] => Ok acc
  | leg :: rest =>
      let '(prob, edge_sum, pay) := acc in
      let* p := getnum leg "implied_prob" in
      let* e := getnum leg "edge" in
      let* o := getnum leg odds_col in
      score_loop odds_col rest (prob * p, edge_sum + e, pay * o)
  end.

Definition parlay_score (parlay : list Leg) (mode : string) : result Q :=
  let* acc := score_loop "odds" parlay (1, 0, 1) in
  let '(prob, edge_sum, _) := acc in
  let* avg := py_div edge_sum (length parlay) in
  if String.eqb mode "prob" then Ok prob
  else if String.eqb mode "edge" then Ok avg
  else
    let norm_edge := (avg + 1) / 2 in
    Ok (0.5 * prob + 0.5 * norm_edge).

Definition score_combo (combo : list Leg) (min_prob : Q) : result (option Parlay) :=
  let k := length combo in
  let* acc := score_loop "odds_decimal" combo (1, 0, 1) in
  let '(prob, edge_sum, pay) := acc in
  let* avg := py_div edge_sum k in
  if Qlt_b prob min_prob then Ok None
  else Ok (Some {| legs := map Dict combo; num_legs := k; probability := prob;
                   avg_edge := avg; payout := pay |}).

Definition expected_value_no_sweat (parlay : Parlay) (stake free_bet_conversion : Q) : Q :=
  let win_prob := probability parlay in
  let pay := payout parlay * stake in
  let net_win := pay - stake in
  let lose_prob := 1 - win_prob in
  let free_bet_value := stake * free_bet_conversion in
  win_prob * net_win + lose_prob * free_bet_value - (lose_prob * stake).

(** ** Combination validator *)

(** [player_name] and [market_key] are columns of the table, so the two
    subscripts of the loop cannot raise and are written as projections; the
    same holds for every function below that reads table columns only. *)
Fixpoint is_valid_from (players markets : gset string) (combo : list Leg) : bool :=
  match combo with
  | [] => true
  | leg :: rest =>
      if bool_decide (player_name leg ∈ players) || bool_decide (market_key leg ∈ markets)
      then false
      else is_valid_from ({[player_name leg]} ∪ players) ({[market_key leg]} ∪ markets) rest
  end.

Definition is_valid_combo (combo : list Leg) : bool := is_valid_from ∅ ∅ combo.

(** ** Exhaustive search engine *)

(** [itertools.combinations(l, k)], in its lexicographic order. *)
Fixpoint combinations {A : Type} (l : list A) (k : nat) : list (list A) :=
  match k, l with
  | O, _ => [[]]
  | S _, [] => []
  | S k', x :: xs => map (cons x) (combinations xs k') ++ combinations xs k
  end.

(** [range(a, b)] *)
Definition py_range (a b : Z) : list Z :=
  map (fun i => (a + Z.of_nat i)%Z) (seq 0 (Z.to_nat (b - a))).

(** [l[:n]] (a negative [n] counts from the end). *)
Definition slice_to {A : Type} (n : Z) (l : list A) : list A :=
  if (0 <=? n)%Z then firstn (Z.to_nat n) l
  else firstn (length l - Z.to_nat (- n))%nat l.

(** The sort key of line 101. *)
Definition balance_key (p : Parlay) : Q :=
  0.5 * probability p + 0.5 * ((avg_edge p + 1) / 2).

(** [list.sort(key=..., reverse=True)]: descending and stable. *)
Fixpoint insert_desc {A : Type} (key : A -> Q) (x : A) (l : list A) : list A :=
  match l with
  | [] => [x]
  | y :: rest =>
      if Qle_bool (key y) (key x) then x :: y :: rest
      else y :: insert_desc key x rest
  end.

Definition sort_desc {A : Type} (key : A -> Q) (l : list A) : list A :=
  fold_right (insert_desc key) [] l.

(** Reading the futures in completion order: [future.result()] re-raises,
    and a [None] result is skipped. *)
Fixpoint gather (results : list (result (option Parlay))) : result (list Parlay) :=
  match results with
  | [] => Ok []
  | r :: rest =>
      let* o := r in
      let* ps := gather rest in
      Ok (match o with Some p => p :: ps | None => ps end)
  end.

(** [parlays and parlays[0]["probability"] < min_prob * 2] *)
Definition stop_rule (min_prob : Q) (parlays : list Parlay) : bool :=
  match parlays with
  | [] => false
  | p :: _ => Qlt_b (probability p) (min_prob * 2)
  end.

Section Exhaustive.

(** The order in which the worker pool completes the submitted futures
    ([concurrent.futures.as_completed]); the engine does not control it. *)
Variable as_completed : list (result (option Parlay)) -> list (result (option Parlay)).

Variable props : list Leg.
Variable min_prob : Q.
Variable top_n : Z.

(** One iteration of the loop over [k], up to and including the sort. *)
Definition size_pass (k : Z) : result (list Parlay) :=
  if (k <? 0)%Z then Raise ValueError
  else
    let combos := List.filter is_valid_combo (combinations props (Z.to_nat k)) in
    let futures := map (fun combo => score_combo combo min_prob) combos in
    let* parlays := gather (as_completed futures) in
    Ok (sort_desc balance_key parlays).

(** The loop over [k].  [visited] records the sizes whose pass was run; it
    is not a variable of the source and does not influence the result. *)
Fixpoint escalate (ks : list Z) (best_parlays : list Parlay) (visited : list Z)
  : result (list Parlay * list Z) :=
  match ks with
  | [] => Ok (best_parlays, visited)
  | k :: ks' =>
      let* parlays := size_pass k in
      let best_parlays := best_parlays ++ slice_to top_n parlays in
      let visited := visited ++ [k] in
      if stop_rule min_prob parlays then Ok (best_parlays, visited)
      else escalate ks' best_parlays visited
  end.

End Exhaustive.

Definition generate_trace (as_completed : list (result (option Parlay)) -> list (result (option Parlay)))
  (df : DataFrame) (min_legs max_legs : Z) (min_prob : Q) (top_n : Z)
  : result (list Parlay * list Z) :=
  escalate as_completed (to_dict_records df) min_prob top_n
           (py_range min_legs (max_legs + 1)) [] [].

Definition generate_parlays (as_completed : list (result (option Parlay)) -> list (result (option Parlay)))
  (df : DataFrame) (min_legs max_legs : Z) (min_prob : Q) (top_n : Z)
  : result (list Parlay) :=
  let* r := generate_trace as_completed df min_legs max_legs min_prob top_n in
  Ok (fst r).

(** ** Binary64 rounding *)

(** The table holds binary64 numbers and the interpreter rounds the result
    of every operation to binary64 (to nearest, ties to even).  Where a
    comparison of the source sits on a rounding boundary the model rounds as
    the interpreter does.  [b64 x] is the binary64 number nearest to [x],
    for magnitudes in the normal range (from [2^-1022] up to [2^1024]); the
    quantities rounded below lie between [2^-7] and [10^4]. *)

(** [floor (log2 w)] for a positive [w]. *)
Definition ilog2 (w : Q) : Z :=
  let k := (Z.log2 (Qnum w) - Z.log2 (Z.pos (Qden w)))%Z in
  if Qle_bool (2 ^ k) w then k else (k - 1)%Z.

(** The integer nearest to [s], the even one of two that are equally near. *)
Definition rne (s : Q) : Z :=
  let f := Qfloor s in
  match Qcompare (s - inject_Z f) (1 # 2) with
  | Lt => f
  | Gt => (f + 1)%Z
  | Eq => if Z.even f then f else (f + 1)%Z
  end.

(** A positive [w] rounded to 53 significant bits. *)
Definition b64_pos (w : Q) : Q :=
  let e := ilog2 w in
  inject_Z (rne (w * 2 ^ (52 - e))) * 2 ^ (e - 52).

Definition b64 (x : Q) : Q :=
  match Qcompare x 0 with
  | Gt => b64_pos x
  | Lt => - b64_pos (- x)
  | Eq => 0
  end.

(** [c] is the binary64 number with significand [K] and exponent [e]. *)
Definition representable (c : Q) (e K : Z) : Prop :=
  (2 ^ 52 <= K < 2 ^ 53)%Z /\ c == inject_Z K * 2 ^ (e - 52).

(** ** Greedy builder *)

Definition AMERICAN_ODDS_CAP : Q := -500.

(** The formula of the nested function of lines 116-120 (and of the display
    function of lines 205-209) in exact arithmetic. *)
Definition decimal_to_american_odds_val (decimal_odds : Q) : Q :=
  if Qge_b decimal_odds 2.0 then (decimal_odds - 1) * 100
  else -100 / (decimal_odds - 1).

(** The nested function of lines 116-120 as the interpreter evaluates it on
    a binary64 number: the subtraction, the product and the quotient are
    each rounded to binary64.  The division is by [decimal_odds - 1]; the
    builder only calls this on rows that already passed
    [odds_decimal > 1.01]. *)
Definition decimal_to_american_odds_val_b64 (decimal_odds : Q) : Q :=
  if Qge_b decimal_odds 2.0 then b64 (b64 (decimal_odds - 1) * 100)
  else b64 (-100 / b64 (decimal_odds - 1)).

Definition odds_valid (r : Row) : bool := Qgt_b (odds_decimal (snd r)) 1.01.

(** Line 121.  The column holds the binary64 number nearest to the odds
    written in the file. *)
Definition within_cap (r : Row) : bool :=
  Qge_b (decimal_to_american_odds_val_b64 (b64 (odds_decimal (snd r)))) AMERICAN_ODDS_CAP.

(** Lines 114 and 121: the two filters, in this order. *)
Definition odds_filter (df : DataFrame) : DataFrame :=
  List.filter within_cap (List.filter odds_valid df).

(** The dict built at lines 138-144 for the pair [(a, b)]. *)
Definition pair_parlay (a b : Leg) : Parlay :=
  {| legs := [Dict a; Dict b];
     num_legs := 2;
     probability := implied_prob a * implied_prob b;
     avg_edge := (edge a + edge b) / 2;
     payout := odds_decimal a * odds_decimal b |}.

(** The body of the inner loop of the best-2-leg scan.  The state is
    [(best_score, best_2leg)]; [None] is [float('-inf')] / [None]. *)
Definition consider_pair (a : Leg) (st : option (Q * Parlay)) (b : Leg)
  : option (Q * Parlay) :=
  if is_valid_combo [a; b] then
    let p := pair_parlay a b in
    if Qlt_b (payout p) 3.0 then st
    else
      let score := avg_edge p in
      match st with
      | None => Some (score, p)
      | Some (best_score, _) =>
          if Qgt_b score best_score then Some (score, p) else st
      end
  else st.

(** [for i in range(len(props)): for j in range(i+1, len(props)): ...] *)
Fixpoint scan_pairs (props : list Leg) (st : option (Q * Parlay)) : option (Q * Parlay) :=
  match props with
  | [] => st
  | a :: rest => scan_pairs rest (fold_left (consider_pair a) rest st)
  end.

Definition best_2leg (df : DataFrame) : option Parlay :=
  option_map snd (scan_pairs (to_dict_records df) None).

(** [df[~df.index.isin(used_indices)]] *)
Definition unused (used : gset Z) (df : DataFrame) : DataFrame :=
  List.filter (fun r => negb (bool_decide (fst r ∈ used))) df.

(** Line 161: drop the rows with the same player and the same market as [leg]. *)
Definition drop_conflicts (available : DataFrame) (leg : Row) : DataFrame :=
  List.filter
    (fun r => negb (String.eqb (player_name (snd r)) (player_name (snd leg))
                    && String.eqb (market_key (snd r)) (market_key (snd leg))))
    available.

(** Lines 159-165: what is left to pick from. *)
Definition candidates (df : DataFrame) (used : gset Z) (parlay : list Row) : DataFrame :=
  List.filter within_cap
    (List.filter odds_valid (fold_left drop_conflicts parlay (unused used df))).

(** The inner loop, [n] iterations left. *)
Fixpoint extend (df : DataFrame) (n : nat) (used : gset Z) (parlay : list Row)
  : gset Z * list Row :=
  match n with
  | O => (used, parlay)
  | S n' =>
      match candidates df used parlay with
      | [] => (used, parlay)
      | next_leg :: _ => extend df n' ({[fst next_leg]} ∪ used) (parlay ++ [next_leg])
      end
  end.

(** Lines 172-187.  [parlay] holds at least its seed here, so the division
    by [len(parlay)] is by a positive number. *)
Definition score_rows (parlay : list Row) : Parlay :=
  let '(prob, edge_sum, pay) :=
    fold_left
      (fun (acc : Q * Q * Q) (leg : Row) =>
         let '(p, e, o) := acc in
         (p * implied_prob (snd leg), e + edge (snd leg), o * odds_decimal (snd leg)))
      parlay (1, 0, 1) in
  {| legs := map series_of parlay;
     num_legs := length parlay;
     probability := prob;
     avg_edge := edge_sum / inject_Z (Z.of_nat (length parlay));
     payout := pay |}.

(** [range(min_legs - 1, max_legs)] has this many elements. *)
Definition inner_rounds (min_legs max_legs : Z) : nat :=
  Z.to_nat (max_legs - (min_legs - 1)).

(** The outer loop, [n] iterations left. *)
Fixpoint assemble (df : DataFrame) (min_legs max_legs : Z) (n : nat)
    (used : gset Z) (parlays : list Parlay) : list Parlay :=
  match n with
  | O => parlays
  | S n' =>
      match unused used df with
      | [] => parlays
      | first :: _ =>
          let '(used', parlay) :=
            extend df (inner_rounds min_legs max_legs) ({[fst first]} ∪ used) [first] in
          let parlays' :=
            if (min_legs <=? Z.of_nat (length parlay))%Z
            then parlays ++ [score_rows parlay]
            else parlays in
          assemble df min_legs max_legs n' used' parlays'
      end
  end.

Definition guaranteed_pair (df : DataFrame) : list Parlay :=
  match best_2leg df with
  | Some p => [p]
  | None => []
  end.

Definition greedy_parlay_builder (df : DataFrame) (min_legs max_legs top_n : Z)
  : list Parlay :=
  let df := odds_filter df in
  let parlays := guaranteed_pair df in
  assemble df min_legs max_legs (Z.to_nat top_n) ∅ parlays.

(** ** Ladder transformer *)

(** [sort_values('prop_line')]: ascending. *)
Fixpoint insert_by_line (x : Row) (l : list Row) : list Row :=
  match l with
  | [] => [x]
  | y :: rest =>
      if Qle_bool (prop_line (snd x)) (prop_line (snd y)) then x :: y :: rest
      else y :: insert_by_line x rest
  end.

Definition sort_by_line (l : list Row) : list Row := fold_right insert_by_line [] l.

Definition higher_line (leg : Leg) (r : Row) : bool :=
  String.eqb (player_name (snd r)) (player_name leg)
  && String.eqb (market_key (snd r)) (market_key leg)
  && Qgt_b (prop_line (snd r)) (prop_line leg).

Definition find_next_higher_leg (df : DataFrame) (leg : leg_obj) : leg_obj :=
  let candidates := List.filter (higher_line (cols_of leg)) df in
  match sort_by_line candidates with
  | next_leg :: _ => series_of next_leg
  | [] => leg
  end.

(** Equality of [tuple(leg.items())]. *)
Definition value_eqb (a b : value) : bool :=
  match a, b with
  | VStr s, VStr t => String.eqb s t
  | VNum x, VNum y => Qeq_bool x y
  | _, _ => false
  end.

Fixpoint tuple_eqb (a b : list (string * value)) : bool :=
  match a, b with
  | [], [] => true
  | (k, v) :: a', (k', v') :: b' => String.eqb k k' && value_eqb v v' && tuple_eqb a' b'
  | _, _ => false
  end.

Definition same_items (a b : Leg) : bool := tuple_eqb (items a) (items b).

(** [{tuple(leg.items()) for leg in ladder_legs}]: a tuple equal to one
    already in the set is not added.  (The iteration order of the set is not
    fixed by Python; the model lists the elements in insertion order.) *)
Definition add_tuple (seen : list Leg) (t : Leg) : list Leg :=
  if existsb (same_items t) seen then seen else seen ++ [t].

Definition dedup_legs (ls : list Leg) : list Leg := fold_left add_tuple ls [].

Definition substituted (df : DataFrame) (p : Parlay) : list leg_obj :=
  map (find_next_higher_leg df) (legs p).

(** Lines 276-296: the ladder block for one parlay.  [Ok None] is "nothing
    written". *)
Definition ladder (df : DataFrame) (p : Parlay) : result (option Parlay) :=
  let ladder_legs := dedup_legs (map cols_of (substituted df p)) in
  if Nat.eqb (length ladder_legs) (length (legs p)) then
    let* acc := score_loop "odds_decimal" ladder_legs (1, 0, 1) in
    let '(prob, edge_sum, pay) := acc in
    let* avg := py_div edge_sum (length ladder_legs) in
    Ok (Some {| legs := map Dict ladder_legs; num_legs := length ladder_legs;
                probability := prob; avg_edge := avg; payout := pay |})
  else Ok None.

(** Lines 258 and 262: the parlays that get a ladder block. *)
Definition top_5leg (parlays : list Parlay) : list Parlay :=
  firstn 3 (List.filter (fun p => Nat.eqb (num_legs p) 5) (sort_desc probability parlays)).

(** ** Reference quantities and sample rows *)

(** Product of the legs' [implied_prob], sum and mean of their [edge],
    product of their [odds_decimal], accumulated left to right. *)
Definition prob_product (ls : list Leg) : Q :=
  fold_left (fun acc l => acc * implied_prob l) ls 1.

Definition edge_sum (ls : list Leg) : Q :=
  fold_left (fun acc l => acc + edge l) ls 0.

Definition edge_mean (ls : list Leg) : Q :=
  edge_sum ls / inject_Z (Z.of_nat (length ls)).

Definition payout_product (ls : list Leg) : Q :=
  fold_left (fun acc l => acc * odds_decimal l) ls 1.

(** Lookup of a column among the extra columns of a row. *)
Fixpoint assoc_extra (k : string) (kqs : list (string * Q)) : option Q :=
  match kqs with
  | [] => None
  | (k', q) :: rest => if String.eqb k k' then Some q else assoc_extra k rest
  end.

Definition has_odds_column (leg : Leg) : Prop :=
  exists q : Q, assoc_extra "odds" (extra leg) = Some q.

(** A row as [run_pipeline.py] writes it. *)
Definition pipeline_row (player market : string) (odds line proj : Q) : Leg :=
  {| player_name := player; market_key := market; market_description := market;
     bookmaker := "fanduel"; outcome := "Over"; odds_decimal := odds;
     prop_line := line; description := player; projection_type := "PTS";
     projection := proj; edge := proj - line; implied_prob := 1 / odds;
     extra := [] |}.

(** The three legs of the scenario of section 8 of the specification. *)
Definition scenario_leg (player market : string) (odds prob e : Q) : Leg :=
  {| player_name := player; market_key := market; market_description := market;
     bookmaker := "fanduel"; outcome := "Over"; odds_decimal := odds;
     prop_line := 20.5; description := player; projection_type := "PTS";
     projection := 20.5 + e; edge := e; implied_prob := prob;
     extra := [] |}.

Definition leg_a : Leg := scenario_leg "Player A" "player_points" 1.7 0.6 0.3.
Definition leg_b : Leg := scenario_leg "Player B" "player_rebounds" 1.8 0.55 0.2.
Definition leg_c : Leg := scenario_leg "Player C" "player_assists" 2.0 0.5 0.1.

(** "No two legs share the same [f]". *)
Definition no_shared {A : Type} (f : Leg -> A) (combo : list Leg) : Prop :=
  forall (i j : nat) (a b : Leg),
    i <> j -> combo !! i = Some a -> combo !! j = Some b -> f a <> f b.


(** A pool on which the top-ranked pair is not the most probable one. *)
Definition esc_pool : DataFrame :=
  [ (0%Z, scenario_leg "Player A" "player_points" 5.0 0.2 6);
    (1%Z, scenario_leg "Player B" "player_rebounds" 3.3 0.3 6);
    (2%Z, scenario_leg "Player C" "player_assists" 1.1 0.9 0.1) ].

(** Futures completing in submission order. *)
Definition in_submission_order (fs : list (result (option Parlay)))
  : list (result (option Parlay)) := fs.

(** The sizes visited by a run, up to and including the first one at which
    [stops] holds. *)
Fixpoint take_until (stops : Z -> bool) (ks : list Z) : list Z :=
  match ks with
  | [] => []
  | k :: ks' => k :: (if stops k then [] else take_until stops ks')
  end.



(** The binary64 numbers next to 1.2: the one nearest to it, which is the
    column value of a row whose odds read 1.2, and the next one above. *)
Definition double_1_2 : Q := 5404319552844595 # 4503599627370496.
Definition above_1_2 : Q := 5404319552844596 # 4503599627370496.

(** Whether the pass of size [k] ends the escalation. *)
Definition pass_stops (as_completed : list (result (option Parlay)) -> list (result (option Parlay)))
    (props : list Leg) (min_prob : Q) (k : Z) : bool :=
  match size_pass as_completed props min_prob k with
  | Ok parlays => stop_rule min_prob parlays
  | Raise _ => false
  end.

(** [a] is ranked no lower than [b] by [key]. *)
Definition above {A : Type} (key : A -> Q) (a b : A) : Prop := key b <= key a.

(** The pairs [(props[i], props[j])], [i < j], in the order of the scan. *)
Fixpoint all_pairs (props : list Leg) : list (Leg * Leg) :=
  match props with
  | [] => []
  | a :: rest => map (pair a) rest ++ all_pairs rest
  end.

(** A pair the best-2-leg scan may keep: valid, with payout at least 3.0. *)
Definition worthwhile (a b : Leg) : Prop :=
  is_valid_combo [a; b] = true /\ 3.0 <= odds_decimal a * odds_decimal b.

(** The parlays appended by the iterative assembly alone. *)
Definition sequential (df : DataFrame) (min_legs max_legs top_n : Z) : list Parlay :=
  assemble (odds_filter df) min_legs max_legs (Z.to_nat top_n) ∅ [].

(** The index labels of the Series legs of a parlay. *)
Definition series_names (p : Parlay) : list Z :=
  flat_map (fun l => match l with Series n _ => [n] | Dict _ => [] end) (legs p).

(** What the scan state says about the pairs seen so far. *)
Definition scan_inv (seen : list (Leg * Leg)) (st : option (Q * Parlay)) : Prop :=
  match st with
  | None => forall a b, In (a, b) seen -> ~ worthwhile a b
  | Some (s, p) =>
      s = avg_edge p
      /\ (exists a b, In (a, b) seen /\ worthwhile a b /\ p = pair_parlay a b)
      /\ (forall a b, In (a, b) seen -> worthwhile a b ->
            avg_edge (pair_parlay a b) <= avg_edge p)
  end.


(** A pool of seven rows on seven players, all with decimal odds 2.0. *)
Definition wide_seed : Row := (0%Z, scenario_leg "Player A" "player_points" 2.0 0.5 0.7).

Definition wide_pool : DataFrame :=
  [ wide_seed;
    (1%Z, scenario_leg "Player B" "player_points" 2.0 0.5 0.6);
    (2%Z, scenario_leg "Player C" "player_points" 2.0 0.5 0.5);
    (3%Z, scenario_leg "Player D" "player_points" 2.0 0.5 0.4);
    (4%Z, scenario_leg "Player E" "player_points" 2.0 0.5 0.3);
    (5%Z, scenario_leg "Player F" "player_points" 2.0 0.5 0.2);
    (6%Z, scenario_leg "Player G" "player_points" 2.0 0.5 0.1) ].

(** A pool of two rows whose pair pays 4.0. *)
Definition two_row_pool : DataFrame :=
  [ (0%Z, scenario_leg "Player A" "player_points" 2.0 0.5 0.3);
    (1%Z, scenario_leg "Player B" "player_rebounds" 2.0 0.5 0.2) ].

(** Every leg of [p] is a Series taken from [df]. *)
Definition from_pool (df : DataFrame) (p : Parlay) : Prop :=
  forall l, In l (legs p) -> exists n c, l = Series n c /\ In (n, c) df.

Definition all_names (parlays : list Parlay) : list Z := concat (map series_names parlays).




(** A pool with two higher lines for Player A's points and none for
    Player B's rebounds, and a parlay on the two lowest lines. *)
Definition ladder_pool : DataFrame :=
  [ (0%Z, leg_a);
    (1%Z, leg_b);
    (2%Z, pipeline_row "Player A" "player_points" 2.6 24.5 25.0);
    (3%Z, pipeline_row "Player A" "player_points" 2.2 22.5 23.0) ].

Definition ladder_parlay : Parlay := score_rows [(0%Z, leg_a); (1%Z, leg_b)].

(** Two rows on the same line of the same player and market. *)
Definition twin_parlay : Parlay :=
  score_rows [(0%Z, leg_a);
              (4%Z, pipeline_row "Player A" "player_points" 1.8 20.5 21.0)].

(** ** Promotional validator and display of odds *)

(** Whether [pre] starts [s]. *)
Fixpoint starts_with (pre s : string) : bool :=
  match pre, s with
  | EmptyString, _ => true
  | String a pre', String b s' => Ascii.eqb a b && starts_with pre' s'
  | String _ _, EmptyString => false
  end.

(** [s.replace(old, '')] for a non-empty [old]: the occurrences of [old]
    are removed from left to right; [skip] counts the characters of the
    occurrence being removed that are still to be dropped. *)
Fixpoint remove_from (old : string) (skip : nat) (s : string) : string :=
  match s with
  | EmptyString => EmptyString
  | String c rest =>
      match skip with
      | S k => remove_from old k rest
      | O =>
          if starts_with old s then remove_from old (String.length old - 1) rest
          else String c (remove_from old O rest)
      end
  end.

(** [leg['market_key'].replace('_alternate', '')] *)
Definition stat_type_of (market : string) : string :=
  remove_from "_alternate" 0 market.

(** The key [(leg['player_name'], stat_type)] of line 249. *)
Definition no_sweat_key (leg : Leg) : string * string :=
  (player_name leg, stat_type_of (market_key leg)).

Fixpoint no_sweat_from (player_market : gset (string * string)) (combo : list Leg) : bool :=
  match combo with
  | [] => true
  | leg :: rest =>
      if bool_decide (no_sweat_key leg ∈ player_market) then false
      else no_sweat_from ({[no_sweat_key leg]} ∪ player_market) rest
  end.

Definition is_valid_no_sweat_combo (combo : list Leg) : bool := no_sweat_from ∅ combo.

Definition POINTS_MARKETS : gset string := {["player_points"; "player_points_alternate"]}.
Definition REBOUNDS_MARKETS : gset string := {["player_rebounds"; "player_rebounds_alternate"]}.
Definition ASSISTS_MARKETS : gset string := {["player_assists"; "player_assists_alternate"]}.
Definition ALLOWED_MARKETS : gset string :=
  POINTS_MARKETS ∪ REBOUNDS_MARKETS ∪ ASSISTS_MARKETS.

(** [int(x)] for a float [x]: truncation towards zero. *)
Definition py_int (x : Q) : Z := Z.quot (Qnum x) (Z.pos (Qden x)).

(** Lines 205-209. *)
Definition decimal_to_american_odds (decimal_odds : Q) : result string :=
  if Qge_b decimal_odds 2.0 then
    Ok ("+" +:+ pretty (py_int ((decimal_odds - 1) * 100)))
  else if Qeq_bool (decimal_odds - 1) 0 then Raise ZeroDivisionError
  else Ok ("-" +:+ pretty (py_int (100 / (decimal_odds - 1)))).

(** Two legs of different players on one market. *)
Definition same_market_pair : list Leg :=
  [ scenario_leg "Player A" "player_points" 2.0 0.5 0.3;
    scenario_leg "Player B" "player_points" 2.0 0.5 0.2 ].

(** Futures completing in the reverse of the submission order. *)
Definition in_reverse_order (fs : list (result (option Parlay)))
  : list (result (option Parlay)) := rev fs.

(** No two different parlays that survive at size [k] have the same balance
    score. *)
Definition no_ties (props : list Leg) (min_prob : Q) (k : Z) : Prop :=
  forall (ps : list Parlay) (p q : Parlay),
    size_pass in_submission_order props min_prob k = Ok ps ->
    In p ps -> In q ps -> balance_key p == balance_key q -> p = q.

(** The pair compared at line 161. *)
Definition player_market (l : Leg) : string * string := (player_name l, market_key l).

(** What is true of every parlay taken from [df] by the inner loop. *)
Definition well_assembled (df : DataFrame) (min_legs : Z) (p : Parlay) : Prop :=
  exists rows : list Row,
    p = score_rows rows
    /\ rows <> []
    /\ (min_legs <= Z.of_nat (length rows))%Z
    /\ (forall r, In r rows -> In r df)
    /\ List.NoDup (map (fun r => player_market (snd r)) rows).


(** ** Reporter selection *)

(** [max(l, key=...)] on a list whose first element is [best]: the first
    element with the greatest key. *)
Fixpoint max_from {A : Type} (key : A -> Q) (best : A) (l : list A) : A :=
  match l with
  | [] => best
  | x :: rest => max_from key (if Qgt_b (key x) (key best) then x else best) rest
  end.

(** [max(l, key=...) if l else None] *)
Definition best_of {A : Type} (key : A -> Q) (l : list A) : option A :=
  match l with
  | [] => None
  | first :: rest => Some (max_from key first rest)
  end.

(** Line 258. *)
Definition by_probability (parlays : list Parlay) : list Parlay :=
  sort_desc probability parlays.

(** Lines 298, 313 and 327: the three lists of 2-leg parlays. *)
Definition two_leg (parlays : list Parlay) : list Parlay :=
  List.filter (fun p => Nat.eqb (num_legs p) 2) (by_probability parlays).

Definition two_leg_10 (parlays : list Parlay) : list Parlay :=
  List.filter (fun p => Nat.eqb (num_legs p) 2 && Qgt_b (probability p) 0.10)
              (by_probability parlays).

Definition two_leg_20 (parlays : list Parlay) : list Parlay :=
  List.filter (fun p => Nat.eqb (num_legs p) 2 && Qge_b (probability p) 0.20)
              (by_probability parlays).

(** Lines 300, 315 and 329: the parlay of each of the three sections, [None]
    for "No qualifying parlay found". *)
Definition report_best_2leg (parlays : list Parlay) : option Parlay :=
  best_of payout (two_leg parlays).

Definition report_best_2leg_10 (parlays : list Parlay) : option Parlay :=
  best_of payout (two_leg_10 parlays).

Definition report_best_2leg_20 (parlays : list Parlay) : option Parlay :=
  best_of payout (two_leg_20 parlays).

(** Lines 344-349: the body of the loop over the parlays.  The state is
    [(best_ev, best_no_sweat)]; [None] is [float('-inf')] / [None]. *)
Definition consider_no_sweat (st : option (Q * Parlay)) (p : Parlay) : option (Q * Parlay) :=
  if is_valid_no_sweat_combo (map cols_of (legs p)) then
    let ev := expected_value_no_sweat p 100 0.7 in
    match st with
    | None => Some (ev, p)
    | Some (best_ev, _) => if Qgt_b ev best_ev then Some (ev, p) else st
    end
  else st.

Definition report_best_no_sweat (parlays : list Parlay) : option Parlay :=
  option_map snd (fold_left consider_no_sweat (by_probability parlays) None).

(** What the no-sweat loop knows after the parlays [seen]. *)
Definition no_sweat_inv (seen : list Parlay) (st : option (Q * Parlay)) : Prop :=
  match st with
  | None => forall q, In q seen -> is_valid_no_sweat_combo (map cols_of (legs q)) = false
  | Some (ev, p) =>
      ev = expected_value_no_sweat p 100 0.7
      /\ In p seen
      /\ is_valid_no_sweat_combo (map cols_of (legs p)) = true
      /\ forall q, In q seen -> is_valid_no_sweat_combo (map cols_of (legs q)) = true ->
           expected_value_no_sweat q 100 0.7 <= ev
  end.

(** ** The runner *)

Definition TOP_PROPS : nat := 1000.

(** Lines 366-369: the pool handed to the builder. *)
Definition prepare (df : DataFrame) : DataFrame :=
  firstn TOP_PROPS
    (sort_desc (fun r : Row => edge (snd r))
       (List.filter (fun r => Qgt_b (edge (snd r)) 0)
          (List.filter (fun r => bool_decide (market_key (snd r) ∈ ALLOWED_MARKETS)) df))).

(** Lines 383-396: the scan of the patch, which has no payout floor. *)
Definition consider_any_pair (a : Leg) (st : option (Q * Parlay)) (b : Leg)
  : option (Q * Parlay) :=
  if is_valid_combo [a; b] then
    let p := pair_parlay a b in
    let score := avg_edge p in
    match st with
    | None => Some (score, p)
    | Some (best_score, _) => if Qgt_b score best_score then Some (score, p) else st
    end
  else st.

Fixpoint scan_any_pairs (props : list Leg) (st : option (Q * Parlay)) : option (Q * Parlay) :=
  match props with
  | [] => st
  | a :: rest => scan_any_pairs rest (fold_left (consider_any_pair a) rest st)
  end.

(** Lines 363-399, without the reading and the writing of files. *)
Definition run_parlay_generator (df : DataFrame) : list Parlay :=
  let df := prepare df in
  let parlays := greedy_parlay_builder df 2 5 30 in
  match List.filter (fun p => Nat.eqb (num_legs p) 2) parlays with
  | [] =>
      match option_map snd (scan_any_pairs (to_dict_records df) None) with
      | Some best => parlays ++ [best]
      | None => parlays
      end
  | _ :: _ => parlays
  end.

(** What the scan of the patch knows after the pairs [seen]. *)
Definition any_pair_inv (seen : list (Leg * Leg)) (st : option (Q * Parlay)) : Prop :=
  match st with
  | None => forall a b, In (a, b) seen -> is_valid_combo [a; b] = false
  | Some (s, p) =>
      s = avg_edge p
      /\ (exists a b, In (a, b) seen /\ is_valid_combo [a; b] = true /\ p = pair_parlay a b)
      /\ (forall a b, In (a, b) seen -> is_valid_combo [a; b] = true ->
            avg_edge (pair_parlay a b) <= avg_edge p)
  end.

(** What the runner's parlays have in common, over the table [df] it read. *)
Definition reportable (df : DataFrame) (p : Parlay) : Prop :=
  (2 <= num_legs p <= 5)%nat
  /\ num_legs p = length (legs p)
  /\ (forall l, In l (legs p) ->
        market_key (cols_of l) ∈ ALLOWED_MARKETS /\ 0 < edge (cols_of l)
        /\ exists z, In (z, cols_of l) df)
  /\ 0 < avg_edge p.

(** Three pairs of the scenario legs, as a list of parlays to report on. *)
Definition sample_pairs : list Parlay :=
  [ pair_parlay leg_a leg_b; pair_parlay leg_b leg_c; pair_parlay leg_a leg_c ].

(** A pool of the three scenario legs. *)
Definition scenario_pool : DataFrame := [ (0%Z, leg_a); (1%Z, leg_b); (2%Z, leg_c) ].

(** Whether the columns [l] pass the two odds filters of the builder. *)
Definition leg_passes (l : Leg) : bool := odds_valid (0%Z, l) && within_cap (0%Z, l).

(** A row at decimal odds 1.2, which the cap drops, and a row at 3.0. *)
Definition capped_pool : DataFrame :=
  [ (0%Z, scenario_leg "Player A" "player_points" 1.2 0.8 0.3);
    (1%Z, scenario_leg "Player B" "player_rebounds" 3.0 0.3 0.2) ].

(** Three rows at decimal odds 1.5, so that no pair pays 3.0. *)
Definition short_odds_pool : DataFrame :=
  [ (0%Z, scenario_leg "Player A" "player_points" 1.5 0.6 0.3);
    (1%Z, scenario_leg "Player B" "player_rebounds" 1.5 0.6 0.2);
    (2%Z, scenario_leg "Player C" "player_assists" 1.5 0.6 0.1) ].

(** The row [l] with an [odds] column added. *)
Definition with_odds (l : Leg) (q : Q) : Leg :=
  {| player_name := player_name l; market_key := market_key l;
     market_description := market_description l; bookmaker := bookmaker l;
     outcome := outcome l; odds_decimal := odds_decimal l; prop_line := prop_line l;
     description := description l; projection_type := projection_type l;
     projection := projection l; edge := edge l; implied_prob := implied_prob l;
     extra := ("odds", q) :: extra l |}.

(** The legs of [p] are in non-increasing order of edge. *)
Definition edges_descend (p : Parlay) : Prop :=
  StronglySorted (above edge) (map cols_of (legs p)).



(** * Properties *)

(** ** Comparisons and subscripts *)

Lemma Qlt_b_true x y : Qlt_b x y = true <-> x < y.
Proof.
  unfold Qlt_b. rewrite negb_true_iff, <- not_true_iff_false, Qle_bool_iff.
  split; [apply Qnot_le_lt | apply Qlt_not_le].
Qed.

Lemma Qlt_b_false x y : Qlt_b x y = false <-> y <= x.
Proof.
  unfold Qlt_b. rewrite negb_false_iff, Qle_bool_iff. reflexivity.
Qed.

Lemma Qge_b_true x y : Qge_b x y = true <-> y <= x.
Proof. apply Qle_bool_iff. Qed.

(** ** Subscripts *)

Lemma getnum_implied_prob leg : getnum leg "implied_prob" = Ok (implied_prob leg).
Proof. reflexivity. Qed.

Lemma getnum_edge leg : getnum leg "edge" = Ok (edge leg).
Proof. reflexivity. Qed.

Lemma getnum_odds_decimal leg : getnum leg "odds_decimal" = Ok (odds_decimal leg).
Proof. reflexivity. Qed.

Lemma getitem_player_name leg : getitem leg "player_name" = Ok (VStr (player_name leg)).
Proof. reflexivity. Qed.

Lemma getitem_market_key leg : getitem leg "market_key" = Ok (VStr (market_key leg)).
Proof. reflexivity. Qed.

Lemma getnum_odds leg :
  getnum leg "odds" =
  match assoc_extra "odds" (extra leg) with
  | Some q => Ok q
  | None => Raise (KeyError "odds")
  end.
Proof.
  unfold getnum, getitem, items. cbn.
  induction (extra leg) as [|[k q] rest IH]; [reflexivity|].
  cbn [map assoc assoc_extra fst snd].
  destruct (String.eqb "odds" k); [reflexivity | exact IH].
Qed.

(** ** Scorer *)

(** Over the columns every row has, the accumulation loop cannot fail. *)
Lemma score_loop_odds_decimal (ls : list Leg) : forall p e o : Q,
  score_loop "odds_decimal" ls (p, e, o) =
  Ok (fold_left (fun acc l => acc * implied_prob l) ls p,
      fold_left (fun acc l => acc + edge l) ls e,
      fold_left (fun acc l => acc * odds_decimal l) ls o).
Proof.
  induction ls as [|l ls IH]; intros p e o; [reflexivity|].
  cbn [score_loop fold_left]. change (getnum l "implied_prob") with (Ok (implied_prob l)).
  change (getnum l "edge") with (Ok (edge l)).
  change (getnum l "odds_decimal") with (Ok (odds_decimal l)).
  cbn [bind]. apply IH.
Qed.

(** With the legacy column, the loop of [parlay_score] reads it. *)
Lemma score_loop_odds (ls : list Leg) : forall p e o : Q,
  Forall has_odds_column ls ->
  exists o' : Q,
    score_loop "odds" ls (p, e, o) =
    Ok (fold_left (fun acc l => acc * implied_prob l) ls p,
        fold_left (fun acc l => acc + edge l) ls e, o').
Proof.
  induction ls as [|l ls IH]; intros p e o H.
  - exists o. reflexivity.
  - inversion H as [|? ? [q Hq] Hrest]; subst.
    cbn [score_loop fold_left]. change (getnum l "implied_prob") with (Ok (implied_prob l)).
    change (getnum l "edge") with (Ok (edge l)).
    rewrite getnum_odds, Hq. cbn [bind]. apply IH. assumption.
Qed.

(** Without it, the first leg already raises. *)
Lemma parlay_score_KeyError (leg : Leg) (rest : list Leg) (mode : string) :
  assoc_extra "odds" (extra leg) = None ->
  parlay_score (leg :: rest) mode = Raise (KeyError "odds").
Proof.
  intros H. unfold parlay_score. cbn [score_loop].
  change (getnum leg "implied_prob") with (Ok (implied_prob leg)).
  change (getnum leg "edge") with (Ok (edge leg)).
  rewrite getnum_odds, H. reflexivity.
Qed.

Lemma py_div_length (x : Q) {A : Type} (ls : list A) :
  ls <> [] -> py_div x (length ls) = Ok (x / inject_Z (Z.of_nat (length ls))).
Proof. destruct ls; [congruence | reflexivity]. Qed.

(** The three modes of [parlay_score] on rows that carry an [odds] column. *)
Lemma parlay_score_modes (ls : list Leg) :
  ls <> [] -> Forall has_odds_column ls ->
  parlay_score ls "balance" = Ok (0.5 * prob_product ls + 0.5 * ((edge_mean ls + 1) / 2))
  /\ parlay_score ls "prob" = Ok (prob_product ls)
  /\ parlay_score ls "edge" = Ok (edge_mean ls).
Proof.
  intros Hne Hodds. unfold parlay_score.
  destruct (score_loop_odds ls 1 0 1 Hodds) as [o' ->].
  cbn [bind]. rewrite (py_div_length _ ls Hne). cbn [bind].
  repeat split.
Qed.

(** The exhaustive engine's sort key on a scored combination. *)
Lemma balance_key_score_combo (combo : list Leg) (min_prob : Q) (p : Parlay) :
  score_combo combo min_prob = Ok (Some p) ->
  balance_key p = 0.5 * prob_product combo + 0.5 * ((edge_mean combo + 1) / 2).
Proof.
  unfold score_combo. rewrite score_loop_odds_decimal. cbn [bind].
  destruct combo as [|l ls]; [discriminate|].
  rewrite py_div_length by discriminate. cbn [bind].
  destruct (Qlt_b _ min_prob); [discriminate|].
  intros [= <-]. reflexivity.
Qed.

(** C1. On the rows of the props table (which have [odds_decimal] and no
    [odds] column) [parlay_score] does not return the balance value: the
    subscript [leg["odds"]] raises [KeyError] in every mode. *)
Theorem parlay_score_scenario_raises :
  parlay_score [leg_a; leg_b; leg_c] "balance" = Raise (KeyError "odds")
  /\ parlay_score [leg_a; leg_b; leg_c] "prob" = Raise (KeyError "odds")
  /\ parlay_score [leg_a; leg_b; leg_c] "edge" = Raise (KeyError "odds").
Proof. repeat split. Qed.

(** [score_combo] returns on every non-empty combination. *)
Lemma score_combo_total (combo : list Leg) (min_prob : Q) :
  combo <> [] ->
  score_combo combo min_prob =
  Ok (if Qlt_b (prob_product combo) min_prob then None
      else Some {| legs := map Dict combo; num_legs := length combo;
                   probability := prob_product combo; avg_edge := edge_mean combo;
                   payout := payout_product combo |}).
Proof.
  intros Hne. unfold score_combo. rewrite score_loop_odds_decimal. cbn [bind].
  rewrite py_div_length by assumption. cbn [bind].
  fold (prob_product combo).
  destruct (Qlt_b (prob_product combo) min_prob); reflexivity.
Qed.

(** C10. Both scorers raise [ZeroDivisionError] on the empty sequence and
    [score_combo] returns on every non-empty one; [parlay_score] however is
    not defined on a non-empty sequence of table rows, where it raises
    [KeyError]. *)
Theorem scorers_definedness :
  (forall mode, parlay_score [] mode = Raise ZeroDivisionError)
  /\ (forall min_prob, score_combo [] min_prob = Raise ZeroDivisionError)
  /\ (forall leg rest min_prob, exists r, score_combo (leg :: rest) min_prob = Ok r)
  /\ (forall mode, parlay_score [leg_a] mode = Raise (KeyError "odds")).
Proof.
  split; [|split; [|split]].
  - intros mode. reflexivity.
  - intros min_prob. reflexivity.
  - intros leg rest min_prob. eexists. apply score_combo_total. discriminate.
  - intros mode. apply parlay_score_KeyError. reflexivity.
Qed.

(** C3. The promotional expected value is
    [p * (m*s - s) + (1-p) * (s*c) - (1-p) * s], and it is 59.43 for
    [p = 0.165], [m = 6.12], [s = 100], [c = 0.7]. *)
Theorem expected_value_no_sweat_formula :
  (forall (parlay : Parlay) (s c : Q),
      expected_value_no_sweat parlay s c ==
      probability parlay * (payout parlay * s - s)
      + (1 - probability parlay) * (s * c) - (1 - probability parlay) * s)
  /\ (forall (ls : list leg_obj) (n : nat) (e : Q),
      expected_value_no_sweat
        {| legs := ls; num_legs := n; probability := 0.165; avg_edge := e; payout := 6.12 |}
        100 0.7 == 59.43).
Proof.
  split.
  - intros parlay s c. unfold expected_value_no_sweat. ring.
  - intros ls n e. reflexivity.
Qed.

Example score_combo_scenario :
  exists p, score_combo [leg_a; leg_b; leg_c] 0.05 = Ok (Some p)
    /\ probability p == 0.165 /\ avg_edge p == 0.2 /\ payout p == 6.12
    /\ expected_value_no_sweat p 100 0.7 == 59.43.
Proof. eexists. split; [reflexivity|]. repeat split. Qed.

(** ** Combination validator *)

Lemma no_shared_NoDup {A : Type} (f : Leg -> A) (combo : list Leg) :
  no_shared f combo <-> NoDup (f <$> combo).
Proof.
  rewrite NoDup_alt. unfold no_shared. split.
  - intros H i j x Hi Hj.
    apply list_lookup_fmap_Some in Hi as (a & -> & Ha).
    apply list_lookup_fmap_Some in Hj as (b & Hab & Hb).
    destruct (decide (i = j)) as [|Hne]; [assumption|].
    exfalso. exact (H i j a b Hne Ha Hb Hab).
  - intros H i j a b Hne Ha Hb Hab. apply Hne.
    apply (H i j (f a)); rewrite list_lookup_fmap.
    + rewrite Ha. reflexivity.
    + rewrite Hb, Hab. reflexivity.
Qed.

Lemma is_valid_from_spec (combo : list Leg) : forall players markets : gset string,
  is_valid_from players markets combo = true <->
  NoDup (player_name <$> combo) /\ NoDup (market_key <$> combo) /\
  (forall l, l ∈ combo -> player_name l ∉ players) /\
  (forall l, l ∈ combo -> market_key l ∉ markets).
Proof.
  induction combo as [|leg rest IH]; intros players markets; simpl.
  - split; [intros _ | reflexivity].
    repeat split; try constructor; intros l Hl; inversion Hl.
  - destruct (bool_decide (player_name leg ∈ players)) eqn:Hp;
    [| destruct (bool_decide (market_key leg ∈ markets)) eqn:Hm]; simpl.
    + apply bool_decide_eq_true in Hp. split; [discriminate|].
      intros (_ & _ & H & _). exfalso. apply (H leg); [left | assumption].
    + apply bool_decide_eq_true in Hm. split; [discriminate|].
      intros (_ & _ & _ & H). exfalso. apply (H leg); [left | assumption].
    + apply bool_decide_eq_false in Hp, Hm.
      rewrite IH, !NoDup_cons. clear IH.
      split.
      * intros (Hn1 & Hn2 & H1 & H2). repeat split; try assumption.
        -- intros Hin. apply list_elem_of_fmap in Hin as (x & Hx & Hin).
           apply (H1 x Hin). rewrite <- Hx. set_solver.
        -- intros Hin. apply list_elem_of_fmap in Hin as (x & Hx & Hin).
           apply (H2 x Hin). rewrite <- Hx. set_solver.
        -- intros l Hl. apply elem_of_cons in Hl as [->|Hl]; [assumption|].
           specialize (H1 l Hl). set_solver.
        -- intros l Hl. apply elem_of_cons in Hl as [->|Hl]; [assumption|].
           specialize (H2 l Hl). set_solver.
      * intros ((Hn1 & Hn1') & (Hn2 & Hn2') & H1 & H2). repeat split; try assumption.
        -- intros l Hl. apply not_elem_of_union. split.
           ++ intros Heq%elem_of_singleton. apply Hn1. rewrite <- Heq.
              apply list_elem_of_fmap_2. assumption.
           ++ apply H1. right. assumption.
        -- intros l Hl. apply not_elem_of_union. split.
           ++ intros Heq%elem_of_singleton. apply Hn2. rewrite <- Heq.
              apply list_elem_of_fmap_2. assumption.
           ++ apply H2. right. assumption.
Qed.

(** C2. The standard validator accepts a combination exactly when no two of
    its legs have the same [player_name] and no two have the same
    [market_key]. *)
Theorem is_valid_combo_iff (combo : list Leg) :
  is_valid_combo combo = true <->
  no_shared player_name combo /\ no_shared market_key combo.
Proof.
  unfold is_valid_combo. rewrite is_valid_from_spec, !no_shared_NoDup.
  split.
  - intros (H1 & H2 & _). split; assumption.
  - intros (H1 & H2). repeat split; try assumption; intros l _; apply not_elem_of_empty.
Qed.

(** ** Binary64 rounding *)

Lemma two_pos (z : Z) : 0 < 2 ^ z.
Proof. apply Qpower_0_lt. reflexivity. Qed.

Lemma two_plus (a b : Z) : 2 ^ (a + b) == 2 ^ a * 2 ^ b.
Proof. apply Qpower_plus. discriminate. Qed.

Lemma two_le (a b : Z) : (a <= b)%Z -> 2 ^ a <= 2 ^ b.
Proof. intros H. apply Qpower_le_compat_l; [exact H | discriminate]. Qed.

Lemma two_lt_inv (a b : Z) : 2 ^ a < 2 ^ b -> (a < b)%Z.
Proof. intros H. apply (Qpower_lt_compat_l_inv 2); [exact H | reflexivity]. Qed.

Lemma two_Z (n : Z) : (0 <= n)%Z -> inject_Z (2 ^ n) == 2 ^ n.
Proof. intros H. apply (Zpower_Qpower 2 n H). Qed.

Lemma frac_lt (a A B : Z) (b : positive) :
  (0 < a)%Z -> (a < A)%Z -> (0 < B <= Z.pos b)%Z -> a # b < inject_Z A / inject_Z B.
Proof.
  intros Ha HA HB. apply Qlt_shift_div_l.
  - change 0 with (inject_Z 0). rewrite <- Zlt_Qlt. lia.
  - unfold Qlt, Qmult, inject_Z. simpl. nia.
Qed.

Lemma frac_ge (a A B : Z) (b : positive) :
  (0 < A <= a)%Z -> (Z.pos b <= B)%Z -> inject_Z A / inject_Z B <= a # b.
Proof.
  intros HA HB. apply Qle_shift_div_r.
  - change 0 with (inject_Z 0). rewrite <- Zlt_Qlt. lia.
  - unfold Qle, Qmult, inject_Z. simpl. nia.
Qed.

Lemma ilog2_spec (w : Q) : 0 < w -> 2 ^ ilog2 w <= w /\ w < 2 ^ (ilog2 w + 1).
Proof.
  destruct w as [a b]. intros Hw.
  assert (Ha : (0 < a)%Z) by (unfold Qlt in Hw; simpl in Hw; lia).
  unfold ilog2. cbn [Qnum Qden].
  set (la := Z.log2 a). set (lb := Z.log2 (Z.pos b)).
  assert (Hla : (0 <= la)%Z) by apply Z.log2_nonneg.
  assert (Hlb : (0 <= lb)%Z) by apply Z.log2_nonneg.
  destruct (Z.log2_spec a Ha) as [Ha1 Ha2]. fold la in Ha1, Ha2.
  destruct (Z.log2_spec (Z.pos b) (Pos2Z.is_pos b)) as [Hb1 Hb2]. fold lb in Hb1, Hb2.
  assert (Hup : a # b < 2 ^ (la - lb + 1)).
  { replace (la - lb + 1)%Z with ((la + 1) - lb)%Z by ring.
    rewrite Qpower_minus by discriminate.
    rewrite <- (two_Z (la + 1)), <- (two_Z lb) by lia.
    apply frac_lt; [exact Ha | rewrite <- Z.add_1_r in Ha2; exact Ha2 |].
    split; [apply Z.pow_pos_nonneg; lia | exact Hb1]. }
  assert (Hlow : 2 ^ (la - lb - 1) <= a # b).
  { replace (la - lb - 1)%Z with (la - (lb + 1))%Z by ring.
    rewrite Qpower_minus by discriminate.
    rewrite <- (two_Z la), <- (two_Z (lb + 1)) by lia.
    apply frac_ge; [split; [apply Z.pow_pos_nonneg; lia | exact Ha1] |].
    rewrite <- Z.add_1_r in Hb2. lia. }
  destruct (Qle_bool (2 ^ (la - lb)) (a # b)) eqn:E.
  - apply Qle_bool_iff in E. split; assumption.
  - assert (Hlt : a # b < 2 ^ (la - lb)).
    { apply Qnot_le_lt. intros H. apply Qle_bool_iff in H. congruence. }
    split; [exact Hlow|].
    replace (la - lb - 1 + 1)%Z with (la - lb)%Z by ring. exact Hlt.
Qed.

Lemma ilog2_unique (w : Q) (e : Z) : 2 ^ e <= w -> w < 2 ^ (e + 1) -> ilog2 w = e.
Proof.
  intros H1 H2.
  assert (Hw : 0 < w) by (apply Qlt_le_trans with (2 ^ e); [apply two_pos | exact H1]).
  destruct (ilog2_spec w Hw) as [H3 H4].
  assert (ilog2 w < e + 1)%Z by (apply two_lt_inv, Qle_lt_trans with w; assumption).
  assert (e < ilog2 w + 1)%Z by (apply two_lt_inv, Qle_lt_trans with w; assumption).
  lia.
Qed.

Lemma rne_floor (s : Q) : (Qfloor s <= rne s <= Qfloor s + 1)%Z.
Proof.
  unfold rne. destruct (Qcompare _ _); [destruct (Z.even _)| |]; lia.
Qed.

Lemma rne_ge (s : Q) (K : Z) : inject_Z K <= s -> (K <= rne s)%Z.
Proof.
  intros H. apply Qfloor_resp_le in H. rewrite Qfloor_Z in H.
  pose proof (rne_floor s). lia.
Qed.

Lemma rne_le_half (s : Q) (K : Z) : s < inject_Z K + (1 # 2) -> (rne s <= K)%Z.
Proof.
  intros H. pose proof (Qfloor_le s) as Hf.
  assert (Hlt : (Qfloor s < K + 1)%Z).
  { rewrite Zlt_Qlt, inject_Z_plus. apply Qle_lt_trans with s; [exact Hf|].
    unfold inject_Z at 2. lra. }
  unfold rne.
  destruct (Qcompare_spec (s - inject_Z (Qfloor s)) (1 # 2)) as [E|E|E].
  - assert (Qfloor s <> K).
    { intros Heq. rewrite Heq in E. lra. }
    destruct (Z.even _); lia.
  - lia.
  - assert (Qfloor s <> K).
    { intros Heq. rewrite Heq in E. lra. }
    lia.
Qed.

Lemma rne_le (s : Q) (K : Z) : s <= inject_Z K -> (rne s <= K)%Z.
Proof. intros H. apply rne_le_half. lra. Qed.

Lemma b64_of_pos (x : Q) : 0 < x -> b64 x = b64_pos x.
Proof.
  intros H. unfold b64. destruct (Qcompare_spec x 0) as [E|E|E]; [|exfalso..|reflexivity].
  - rewrite E in H. discriminate H.
  - exact (Qlt_irrefl _ (Qlt_trans _ _ _ H E)).
Qed.

Lemma b64_of_neg (x : Q) : x < 0 -> b64 x = - b64_pos (- x).
Proof.
  intros H. unfold b64. destruct (Qcompare_spec x 0) as [E|E|E]; [|reflexivity|exfalso..].
  - rewrite E in H. discriminate H.
  - exact (Qlt_irrefl _ (Qlt_trans _ _ _ H E)).
Qed.

Lemma b64_of_zero (x : Q) : x == 0 -> b64 x = 0.
Proof.
  intros H. unfold b64. destruct (Qcompare_spec x 0) as [E|E|E]; [reflexivity|exfalso..];
    rewrite H in E; discriminate E.
Qed.

Lemma two_split (n e : Z) : 2 ^ n == 2 ^ e * 2 ^ (n - e).
Proof. rewrite <- two_plus. replace (e + (n - e))%Z with n by ring. reflexivity. Qed.

Lemma two_join (n e : Z) : 2 ^ n == 2 ^ (n - e) * 2 ^ e.
Proof. rewrite <- two_plus. replace (n - e + e)%Z with n by ring. reflexivity. Qed.

(** Within a binade the scaled number lies between [2^52] and [2^53]. *)
Lemma scaled_bounds (w : Q) (e : Z) :
  2 ^ e <= w -> w < 2 ^ (e + 1) ->
  inject_Z (2 ^ 52) <= w * 2 ^ (52 - e) /\ w * 2 ^ (52 - e) < inject_Z (2 ^ 53).
Proof.
  intros H1 H2. pose proof (two_pos (52 - e)) as Hp.
  rewrite (two_Z 52), (two_Z 53) by lia. split.
  - rewrite (two_split 52 e).
    apply Qmult_le_compat_r; [exact H1 | apply Qlt_le_weak; exact Hp].
  - rewrite (two_split 53 (e + 1)). replace (53 - (e + 1))%Z with (52 - e)%Z by ring.
    apply Qmult_lt_compat_r; assumption.
Qed.

Lemma b64_binade (w : Q) (e : Z) :
  2 ^ e <= w -> w < 2 ^ (e + 1) ->
  b64 w = inject_Z (rne (w * 2 ^ (52 - e))) * 2 ^ (e - 52).
Proof.
  intros H1 H2.
  assert (Hw : 0 < w) by (apply Qlt_le_trans with (2 ^ e); [apply two_pos | exact H1]).
  rewrite (b64_of_pos w Hw). unfold b64_pos. rewrite (ilog2_unique w e H1 H2). reflexivity.
Qed.

(** Rounding keeps a number within its binade. *)
Lemma b64_bounds (w : Q) (e : Z) :
  2 ^ e <= w -> w < 2 ^ (e + 1) -> 2 ^ e <= b64 w /\ b64 w <= 2 ^ (e + 1).
Proof.
  intros H1 H2. rewrite (b64_binade w e H1 H2).
  destruct (scaled_bounds w e H1 H2) as [Hlo Hhi].
  apply rne_ge in Hlo. apply Qlt_le_weak, rne_le in Hhi.
  pose proof (two_pos (e - 52)) as Hp.
  rewrite Zle_Qle in Hlo, Hhi. rewrite (two_Z 52) in Hlo by lia. rewrite (two_Z 53) in Hhi by lia.
  split.
  - rewrite (two_split e 52) at 1.
    apply Qmult_le_compat_r; [exact Hlo | apply Qlt_le_weak; exact Hp].
  - rewrite (two_split (e + 1) 53). replace (e + 1 - 53)%Z with (e - 52)%Z by ring.
    apply Qmult_le_compat_r; [exact Hhi | apply Qlt_le_weak; exact Hp].
Qed.

Lemma b64_nonneg (x : Q) : 0 <= x -> 0 <= b64 x.
Proof.
  intros H. destruct (Qlt_le_dec 0 x) as [Hp|Hz].
  - destruct (ilog2_spec x Hp) as [H1 H2].
    destruct (b64_bounds x _ H1 H2) as [Hlo _].
    apply Qle_trans with (2 ^ ilog2 x); [apply Qlt_le_weak, two_pos | exact Hlo].
  - rewrite b64_of_zero; [apply Qle_refl | apply Qle_antisym; assumption].
Qed.

Lemma b64_nonpos (x : Q) : x <= 0 -> b64 x <= 0.
Proof.
  intros H. destruct (Qlt_le_dec x 0) as [Hn|Hz].
  - rewrite (b64_of_neg x Hn).
    assert (Hp : 0 < - x) by lra.
    pose proof (b64_nonneg (- x) (Qlt_le_weak _ _ Hp)) as Hb.
    rewrite (b64_of_pos _ Hp) in Hb. lra.
  - rewrite b64_of_zero; [apply Qle_refl | apply Qle_antisym; assumption].
Qed.

Lemma representable_bounds (c : Q) (e K : Z) :
  representable c e K -> 2 ^ e <= c /\ c < 2 ^ (e + 1).
Proof.
  intros [[HK1 HK2] ->]. pose proof (two_pos (e - 52)) as Hp.
  rewrite Zle_Qle, (two_Z 52) in HK1 by lia. rewrite Zlt_Qlt, (two_Z 53) in HK2 by lia.
  split.
  - rewrite (two_split e 52) at 1.
    apply Qmult_le_compat_r; [exact HK1 | apply Qlt_le_weak; exact Hp].
  - rewrite (two_split (e + 1) 53). replace (e + 1 - 53)%Z with (e - 52)%Z by ring.
    apply Qmult_lt_compat_r; assumption.
Qed.

Lemma scaled_representable (c : Q) (e K : Z) :
  representable c e K -> c * 2 ^ (52 - e) == inject_Z K.
Proof.
  intros [_ ->]. rewrite <- Qmult_assoc, <- two_plus.
  replace (e - 52 + (52 - e))%Z with 0%Z by ring. simpl. ring.
Qed.

(** Rounding does not step over a binary64 number. *)
Lemma b64_le_grid (c x : Q) (e K : Z) : representable c e K -> x <= c -> b64 x <= c.
Proof.
  intros Hc Hx. destruct (representable_bounds c e K Hc) as [Hc1 Hc2].
  destruct (Qlt_le_dec 0 x) as [Hp|Hn].
  2:{ apply Qle_trans with 0; [apply b64_nonpos; exact Hn|].
      apply Qle_trans with (2 ^ e); [apply Qlt_le_weak, two_pos | exact Hc1]. }
  destruct (ilog2_spec x Hp) as [H1 H2].
  assert (Hex : (ilog2 x < e + 1)%Z).
  { apply two_lt_inv. apply Qle_lt_trans with x; [exact H1|].
    apply Qle_lt_trans with c; assumption. }
  destruct (Z.eq_dec (ilog2 x) e) as [E|E].
  - rewrite E in H1, H2. rewrite (b64_binade x e H1 H2).
    destruct Hc as [HK Hceq]. rewrite Hceq.
    apply Qmult_le_compat_r; [|apply Qlt_le_weak, two_pos].
    rewrite <- Zle_Qle. apply rne_le.
    rewrite <- (scaled_representable c e K (conj HK Hceq)).
    apply Qmult_le_compat_r; [exact Hx | apply Qlt_le_weak, two_pos].
  - destruct (b64_bounds x _ H1 H2) as [_ Hhi].
    apply Qle_trans with (2 ^ (ilog2 x + 1)); [exact Hhi|].
    apply Qle_trans with (2 ^ e); [apply two_le; lia | exact Hc1].
Qed.

Lemma b64_ge_grid (c x : Q) (e K : Z) : representable c e K -> c <= x -> c <= b64 x.
Proof.
  intros Hc Hx. destruct (representable_bounds c e K Hc) as [Hc1 Hc2].
  assert (Hp : 0 < x).
  { apply Qlt_le_trans with c; [|exact Hx].
    apply Qlt_le_trans with (2 ^ e); [apply two_pos | exact Hc1]. }
  destruct (ilog2_spec x Hp) as [H1 H2].
  assert (Hex : (e < ilog2 x + 1)%Z).
  { apply two_lt_inv. apply Qle_lt_trans with c; [exact Hc1|].
    apply Qle_lt_trans with x; assumption. }
  destruct (Z.eq_dec (ilog2 x) e) as [E|E].
  - rewrite E in H1, H2. rewrite (b64_binade x e H1 H2).
    destruct Hc as [HK Hceq]. rewrite Hceq.
    apply Qmult_le_compat_r; [|apply Qlt_le_weak, two_pos].
    rewrite <- Zle_Qle. apply rne_ge.
    rewrite <- (scaled_representable c e K (conj HK Hceq)).
    apply Qmult_le_compat_r; [exact Hx | apply Qlt_le_weak, two_pos].
  - destruct (b64_bounds x _ H1 H2) as [Hlo _].
    apply Qle_trans with (2 ^ ilog2 x); [|exact Hlo].
    apply Qle_trans with (2 ^ (e + 1)); [apply Qlt_le_weak; exact Hc2 | apply two_le; lia].
Qed.

Lemma b64_le_neg_grid (c x : Q) (e K : Z) : representable c e K -> x <= - c -> b64 x <= - c.
Proof.
  intros Hc Hx. destruct (representable_bounds c e K Hc) as [Hc1 _].
  pose proof (two_pos e) as Hp.
  assert (Hn : x < 0) by lra.
  rewrite (b64_of_neg x Hn).
  assert (Hpos : 0 < - x) by lra.
  pose proof (b64_ge_grid c (- x) e K Hc) as H. rewrite (b64_of_pos _ Hpos) in H.
  assert (c <= - x) by lra. specialize (H H0). lra.
Qed.

Lemma b64_ge_neg_grid (c x : Q) (e K : Z) : representable c e K -> - c <= x -> - c <= b64 x.
Proof.
  intros Hc Hx. destruct (representable_bounds c e K Hc) as [Hc1 _].
  pose proof (two_pos e) as Hp.
  destruct (Qlt_le_dec x 0) as [Hn|Hz].
  - rewrite (b64_of_neg x Hn).
    assert (Hpos : 0 < - x) by lra.
    pose proof (b64_le_grid c (- x) e K Hc) as H. rewrite (b64_of_pos _ Hpos) in H.
    assert (- x <= c) by lra. specialize (H H0). lra.
  - pose proof (b64_nonneg x Hz). lra.
Qed.

Lemma representable_intro (c : Q) (e K : Z) :
  (2 ^ 52 <=? K)%Z = true -> (K <? 2 ^ 53)%Z = true ->
  Qeq_bool c (inject_Z K * 2 ^ (e - 52)) = true ->
  representable c e K.
Proof.
  intros H1 H2 H3. split; [split; [apply Z.leb_le | apply Z.ltb_lt]; assumption|].
  apply Qeq_bool_iff. exact H3.
Qed.

(** ** Odds filters of the greedy builder *)

Lemma american_below_two (x : Q) :
  1 < x -> x < 2 ->
  (AMERICAN_ODDS_CAP <= decimal_to_american_odds_val x <-> 1.2 <= x).
Proof.
  intros H1 H2. unfold decimal_to_american_odds_val, AMERICAN_ODDS_CAP.
  assert (Hlt : Qge_b x 2.0 = false).
  { apply not_true_iff_false. rewrite Qge_b_true. intros Hc. lra. }
  rewrite Hlt.
  assert (Hpos : 0 < x - 1) by lra.
  split.
  - intros H.
    apply (Qmult_le_compat_r _ _ (x - 1)) in H; [|lra].
    assert (E : -100 / (x - 1) * (x - 1) == -100) by (field; lra).
    rewrite E in H. lra.
  - intros H. apply Qle_shift_div_l; [assumption | lra].
Qed.

Lemma double_1_2_representable : representable double_1_2 0 5404319552844595.
Proof. apply representable_intro; vm_compute; reflexivity. Qed.

Lemma above_1_2_representable : representable above_1_2 0 5404319552844596.
Proof. apply representable_intro; vm_compute; reflexivity. Qed.

Lemma b64_1_2 : b64 1.2 == double_1_2.
Proof. vm_compute. reflexivity. Qed.

(** No binary64 number lies between the two numbers next to 1.2. *)
Lemma near_1_2 (x : Q) : b64 x <= double_1_2 \/ above_1_2 <= b64 x.
Proof.
  destruct (Qlt_le_dec double_1_2 x) as [Hlo|Hlo];
    [|left; exact (b64_le_grid _ _ _ _ double_1_2_representable Hlo)].
  destruct (Qlt_le_dec x above_1_2) as [Hhi|Hhi];
    [|right; exact (b64_ge_grid _ _ _ _ above_1_2_representable Hhi)].
  assert (H1 : 2 ^ 0 <= x) by (unfold double_1_2 in Hlo; simpl; lra).
  assert (H2 : x < 2 ^ (0 + 1)) by (unfold above_1_2 in Hhi; simpl; lra).
  rewrite (b64_binade x 0 H1 H2).
  assert (Hge : (5404319552844595 <= rne (x * 2 ^ (52 - 0)))%Z).
  { apply rne_ge. unfold double_1_2 in Hlo. simpl. unfold inject_Z. lra. }
  assert (Hle : (rne (x * 2 ^ (52 - 0)) <= 5404319552844596)%Z).
  { apply rne_le. unfold above_1_2 in Hhi. simpl. unfold inject_Z. lra. }
  destruct (Z.eq_dec (rne (x * 2 ^ (52 - 0))) 5404319552844595%Z) as [E|E].
  - left. rewrite E. vm_compute. discriminate.
  - right. assert (E' : rne (x * 2 ^ (52 - 0)) = 5404319552844596%Z) by lia.
    rewrite E'. vm_compute. discriminate.
Qed.

(** A number at most 1.2 is rounded to the lower of the two. *)
Lemma below_1_2 (x : Q) : x <= 1.2 -> b64 x <= double_1_2.
Proof.
  intros Hx. destruct (Qlt_le_dec 1 x) as [H1|H1].
  - assert (Hlo : 2 ^ 0 <= x) by (simpl; lra).
    assert (Hhi : x < 2 ^ (0 + 1)) by (simpl; lra).
    rewrite (b64_binade x 0 Hlo Hhi).
    assert (Hle : (rne (x * 2 ^ (52 - 0)) <= 5404319552844595)%Z).
    { apply rne_le_half. simpl. unfold inject_Z. lra. }
    rewrite Zle_Qle in Hle. unfold double_1_2.
    apply Qle_trans with (inject_Z 5404319552844595 * 2 ^ (0 - 52)).
    + apply Qmult_le_compat_r; [exact Hle | apply Qlt_le_weak, two_pos].
    + vm_compute. discriminate.
  - apply Qle_trans with 1; [|vm_compute; discriminate].
    apply (b64_le_grid 1 x 0 (2 ^ 52)); [|exact H1].
    apply representable_intro; vm_compute; reflexivity.
Qed.

(** Below the boundary the cap removes the row. *)
Lemma cap_low (r : Row) :
  1.01 < odds_decimal (snd r) -> b64 (odds_decimal (snd r)) <= double_1_2 ->
  within_cap r = false.
Proof.
  intros Hv Hy. unfold within_cap, decimal_to_american_odds_val_b64.
  set (y := b64 (odds_decimal (snd r))) in *.
  assert (Hy1 : 1.0078125 <= y).
  { apply (b64_ge_grid 1.0078125 _ 0 4538783999459328); [|lra].
    apply representable_intro; vm_compute; reflexivity. }
  assert (E2 : Qge_b y 2.0 = false).
  { apply not_true_iff_false. rewrite Qge_b_true. unfold double_1_2 in Hy. lra. }
  rewrite E2.
  set (t := b64 (y - 1)).
  assert (Ht1 : 0.0078125 <= t).
  { apply (b64_ge_grid 0.0078125 _ (-7) (2 ^ 52)); [|lra].
    apply representable_intro; vm_compute; reflexivity. }
  assert (Ht2 : t <= 900719925474099 # 4503599627370496).
  { apply (b64_le_grid _ _ (-3) 7205759403792792); [|unfold double_1_2 in Hy; lra].
    apply representable_intro; vm_compute; reflexivity. }
  assert (Hv' : -100 / t <= - (8796093022208001 # 17592186044416)).
  { apply Qle_shift_div_r; [lra|]. lra. }
  assert (Hc : representable (8796093022208001 # 17592186044416) 8 8796093022208001)
    by (apply representable_intro; vm_compute; reflexivity).
  pose proof (b64_le_neg_grid _ _ _ _ Hc Hv') as Hb.
  apply not_true_iff_false. rewrite Qge_b_true. unfold AMERICAN_ODDS_CAP. lra.
Qed.

(** From the upper of the two on the row passes both filters. *)
Lemma cap_high (r : Row) :
  above_1_2 <= b64 (odds_decimal (snd r)) ->
  1.01 < odds_decimal (snd r) /\ within_cap r = true.
Proof.
  intros Hy. split.
  - apply Qnot_le_lt. intros Hx.
    assert (Hc : representable 1.0625 0 4785074604081152)
      by (apply representable_intro; vm_compute; reflexivity).
    assert (Hx' : odds_decimal (snd r) <= 1.0625) by lra.
    pose proof (b64_le_grid _ _ _ _ Hc Hx') as Hb. unfold above_1_2 in Hy. lra.
  - unfold within_cap, decimal_to_american_odds_val_b64.
    set (y := b64 (odds_decimal (snd r))) in *.
    apply Qge_b_true. unfold AMERICAN_ODDS_CAP.
    destruct (Qge_b y 2.0) eqn:E2.
    + apply Qge_b_true in E2.
      apply Qle_trans with 0; [discriminate|]. apply b64_nonneg.
      assert (H0 : 0 <= b64 (y - 1)) by (apply b64_nonneg; lra). lra.
    + set (t := b64 (y - 1)).
      assert (Ht : (900719925474100 # 4503599627370496) <= t).
      { apply (b64_ge_grid _ _ (-3) 7205759403792800); [|unfold above_1_2 in Hy; lra].
        apply representable_intro; vm_compute; reflexivity. }
      assert (Hc : representable 500 8 8796093022208000)
        by (apply representable_intro; vm_compute; reflexivity).
      apply (b64_ge_neg_grid _ _ _ _ Hc).
      apply Qle_shift_div_l; lra.
Qed.

(** A row passes the two odds filters exactly when its odds, as a binary64
    number, are above the binary64 number nearest to 1.2. *)
Lemma passes_odds_filters_iff (r : Row) :
  odds_valid r && within_cap r = true <-> b64 1.2 < b64 (odds_decimal (snd r)).
Proof.
  rewrite b64_1_2. unfold odds_valid, Qgt_b.
  rewrite andb_true_iff, Qlt_b_true. split.
  - intros [Hv Hc].
    destruct (near_1_2 (odds_decimal (snd r))) as [Hlow|Hhigh].
    + rewrite (cap_low r Hv Hlow) in Hc. discriminate.
    + unfold double_1_2. unfold above_1_2 in Hhigh. lra.
  - intros Hy.
    destruct (near_1_2 (odds_decimal (snd r))) as [Hlow|Hhigh]; [lra|].
    exact (cap_high r Hhigh).
Qed.

(** A row that passes has odds above 1.2 ... *)
Lemma passes_odds_filters_above (r : Row) :
  odds_valid r && within_cap r = true -> 1.2 < odds_decimal (snd r).
Proof.
  intros H. apply passes_odds_filters_iff in H. rewrite b64_1_2 in H.
  apply Qnot_le_lt. intros Hx. apply below_1_2 in Hx. lra.
Qed.



(** Every row that reaches the cap filter has decimal odds above 1.01, so
    the conversion never divides by zero there. *)
Lemma cap_filter_divisor (df : DataFrame) (r : Row) :
  In r (List.filter odds_valid df) -> 0 < odds_decimal (snd r) - 1.
Proof.
  intros H. apply filter_In in H as [_ H].
  unfold odds_valid, Qgt_b in H. apply Qlt_b_true in H. lra.
Qed.




(** ** Exhaustive search engine *)

Lemma combinations_length {A : Type} (l : list A) : forall (k : nat) (c : list A),
  In c (combinations l k) -> length c = k.
Proof.
  induction l as [|x xs IH]; intros [|k] c Hc; simpl in Hc.
  - destruct Hc as [<-|[]]. reflexivity.
  - destruct Hc.
  - destruct Hc as [<-|[]]. reflexivity.
  - apply in_app_or in Hc as [Hc|Hc].
    + apply in_map_iff in Hc as (c' & <- & Hc'). simpl. f_equal. apply IH. assumption.
    + apply IH. assumption.
Qed.

Lemma gather_ok (rs : list (result (option Parlay))) :
  Forall (fun r => exists o, r = Ok o) rs -> exists ps, gather rs = Ok ps.
Proof.
  induction 1 as [|r rs [o ->] _ [ps IH]]; simpl.
  - eexists. reflexivity.
  - rewrite IH. simpl. eexists. reflexivity.
Qed.

Section SortDesc.
Context {A : Type} (key : A -> Q).

Lemma insert_desc_In (x : A) (l : list A) (q : A) :
  In q (insert_desc key x l) <-> q = x \/ In q l.
Proof.
  induction l as [|y rest IH]; simpl.
  - intuition.
  - destruct (Qle_bool (key y) (key x)); simpl; [intuition|].
    rewrite IH. intuition.
Qed.

Lemma sort_desc_In (l : list A) (q : A) : In q (sort_desc key l) <-> In q l.
Proof.
  induction l as [|x rest IH]; simpl; [reflexivity|].
  rewrite insert_desc_In, IH. intuition.
Qed.

Lemma insert_desc_sorted (x : A) (l : list A) :
  StronglySorted (above key) l -> StronglySorted (above key) (insert_desc key x l).
Proof.
  induction 1 as [|y rest Hs IH Hall]; simpl.
  - repeat constructor.
  - destruct (Qle_bool (key y) (key x)) eqn:E.
    + apply Qle_bool_iff in E. constructor; [constructor; assumption|].
      constructor; [exact E|].
      eapply List.Forall_impl; [|exact Hall]. unfold above. intros b Hb.
      apply Qle_trans with (key y); assumption.
    + assert (Hlt : key x < key y).
      { apply Qnot_le_lt. rewrite <- Qle_bool_iff, E. discriminate. }
      constructor; [exact IH|].
      apply List.Forall_forall. intros b Hb. apply insert_desc_In in Hb as [->|Hb].
      * unfold above. apply Qlt_le_weak. exact Hlt.
      * rewrite List.Forall_forall in Hall. apply Hall. exact Hb.
Qed.

Lemma sort_desc_sorted (l : list A) : StronglySorted (above key) (sort_desc key l).
Proof.
  induction l as [|x rest IH]; simpl; [constructor|].
  apply insert_desc_sorted. exact IH.
Qed.

(** The first element after the sort has the greatest key. *)
Lemma sort_desc_head (l : list A) (p : A) (rest : list A) :
  sort_desc key l = p :: rest -> forall q, In q l -> key q <= key p.
Proof.
  intros E q Hq. apply sort_desc_In in Hq. rewrite E in Hq.
  pose proof (sort_desc_sorted l) as Hs. rewrite E in Hs.
  destruct Hq as [->|Hq]; [apply Qle_refl|].
  apply StronglySorted_inv in Hs as [_ Hall].
  rewrite List.Forall_forall in Hall. apply Hall. exact Hq.
Qed.
End SortDesc.

Lemma stop_rule_true (min_prob : Q) (parlays : list Parlay) :
  stop_rule min_prob parlays = true <->
  exists p rest, parlays = p :: rest /\ probability p < min_prob * 2.
Proof.
  destruct parlays as [|p rest]; simpl.
  - split; [discriminate | intros (? & ? & [=] & _)].
  - rewrite Qlt_b_true. split.
    + intros H. exists p, rest. split; [reflexivity | exact H].
    + intros (? & ? & [= <- <-] & H). exact H.
Qed.

Section Escalation.
Variable as_completed : list (result (option Parlay)) -> list (result (option Parlay)).
Variable props : list Leg.
Variable min_prob : Q.
Variable top_n : Z.

Lemma size_pass_ok (k : Z) :
  (forall fs, Permutation fs (as_completed fs)) -> (1 <= k)%Z ->
  exists raw, size_pass as_completed props min_prob k = Ok (sort_desc balance_key raw).
Proof.
  intros Hperm Hk. unfold size_pass.
  destruct (k <? 0)%Z eqn:E; [apply Z.ltb_lt in E; lia|].
  match goal with |- context [gather ?fs] => destruct (gather_ok fs) as [ps ->] end.
  - eapply Permutation_Forall; [apply Hperm|].
    apply List.Forall_forall. intros r Hr.
    apply in_map_iff in Hr as (combo & <- & Hc).
    apply filter_In in Hc as [Hc _].
    apply combinations_length in Hc.
    eexists. apply score_combo_total.
    intros ->. simpl in Hc. lia.
  - simpl. eexists. reflexivity.
Qed.

Lemma escalate_take_until (ks : list Z) : forall best visited,
  (forall k, In k ks -> exists ps, size_pass as_completed props min_prob k = Ok ps) ->
  exists best',
    escalate as_completed props min_prob top_n ks best visited
    = Ok (best', visited ++ take_until (pass_stops as_completed props min_prob) ks).
Proof.
  induction ks as [|k ks IH]; intros best visited Hok; simpl.
  - eexists. rewrite app_nil_r. reflexivity.
  - destruct (Hok k (or_introl eq_refl)) as [ps Hps].
    unfold pass_stops at 1. rewrite Hps. simpl.
    destruct (stop_rule min_prob ps).
    + eexists. reflexivity.
    + destruct (IH (best ++ slice_to top_n ps) (visited ++ [k])) as [best' ->].
      { intros k' Hk'. apply Hok. right. exact Hk'. }
      eexists. rewrite <- app_assoc. reflexivity.
Qed.
End Escalation.

Lemma py_range_cons (a b : Z) :
  (a < b)%Z -> py_range a b = a :: py_range (a + 1) b.
Proof.
  intros H. unfold py_range.
  replace (Z.to_nat (b - a)) with (S (Z.to_nat (b - (a + 1)))) by lia.
  simpl. f_equal; [lia|].
  rewrite <- seq_shift, map_map. apply map_ext. intros i. lia.
Qed.

Lemma py_range_nil (a b : Z) : (b <= a)%Z -> py_range a b = [].
Proof.
  intros H. unfold py_range. replace (Z.to_nat (b - a)) with O by lia. reflexivity.
Qed.

Lemma py_range_In (a b k : Z) : In k (py_range a b) <-> (a <= k < b)%Z.
Proof.
  unfold py_range. rewrite in_map_iff. split.
  - intros (i & <- & Hi). apply in_seq in Hi. lia.
  - intros H. exists (Z.to_nat (k - a)). split; [lia|]. apply in_seq. lia.
Qed.

Lemma take_until_subset (stops : Z -> bool) (ks : list Z) (k : Z) :
  In k (take_until stops ks) -> In k ks.
Proof.
  induction ks as [|k0 ks IH]; simpl; [tauto|].
  intros [->|H]; [left; reflexivity|]. right.
  destruct (stops k0); [destruct H | apply IH; exact H].
Qed.

(** On consecutive sizes, the size after [k] is visited exactly when [k] was
    visited, is not the last one, and did not stop. *)
Lemma take_until_range (stops : Z -> bool) (n : nat) : forall (a b k : Z),
  n = Z.to_nat (b - a) ->
  In k (take_until stops (py_range a b)) ->
  (In (k + 1)%Z (take_until stops (py_range a b)) <-> (k + 1 < b)%Z /\ stops k = false).
Proof.
  induction n as [|n IH]; intros a b k Hn Hk.
  - rewrite py_range_nil in Hk by lia. destruct Hk.
  - rewrite py_range_cons in Hk |- * by lia. simpl in Hk |- *.
    assert (Hsub : forall j, In j (take_until stops (py_range (a + 1) b)) -> (a + 1 <= j < b)%Z).
    { intros j Hj. apply take_until_subset, py_range_In in Hj. exact Hj. }
    destruct Hk as [<-|Hk].
    + destruct (stops a) eqn:Hs.
      * split; [intros [H|[]]; lia | intros [_ [=]]].
      * split.
        -- intros [H|H]; [lia|]. apply Hsub in H. split; [lia | reflexivity].
        -- intros [H _]. right. rewrite py_range_cons by lia. left. reflexivity.
    + destruct (stops a) eqn:Hs; [destruct Hk|].
      pose proof (Hsub k Hk) as Hr.
      rewrite <- (IH (a + 1)%Z b k) by (lia || assumption).
      split; [intros [H|H]; [lia | exact H] | intros H; right; exact H].
Qed.

(** C4, as amended.  With every future returning ([min_legs >= 1]), the
    sizes are visited in order from [min_legs]; after the pass of size [k]
    the next size is attempted exactly when [k < max_legs] and the stop test
    fails, and the stop test holds exactly when some parlay of size [k]
    survived and the first one after the sort (a parlay of greatest balance
    score) has probability below [2 * min_prob]. *)
Theorem escalation_stop_rule
    (as_completed : list (result (option Parlay)) -> list (result (option Parlay)))
    (df : DataFrame) (min_legs max_legs : Z) (min_prob : Q) (top_n : Z) :
  (forall fs, Permutation fs (as_completed fs)) ->
  (1 <= min_legs)%Z ->
  exists best visited,
    generate_trace as_completed df min_legs max_legs min_prob top_n = Ok (best, visited)
    /\ ((min_legs <= max_legs)%Z -> In min_legs visited)
    /\ forall k, In k visited ->
         (min_legs <= k <= max_legs)%Z
         /\ exists parlays,
              size_pass as_completed (to_dict_records df) min_prob k = Ok parlays
              /\ (In (k + 1)%Z visited <->
                  (k < max_legs)%Z /\ stop_rule min_prob parlays = false)
              /\ (stop_rule min_prob parlays = true <->
                  exists p rest, parlays = p :: rest
                    /\ probability p < min_prob * 2
                    /\ forall q, In q parlays -> balance_key q <= balance_key p).
Proof.
  intros Hperm Hmin. unfold generate_trace.
  set (props := to_dict_records df).
  set (stops := pass_stops as_completed props min_prob).
  assert (Hok : forall k, In k (py_range min_legs (max_legs + 1)) ->
                exists ps, size_pass as_completed props min_prob k = Ok ps).
  { intros k Hk. apply py_range_In in Hk.
    destruct (size_pass_ok as_completed props min_prob k Hperm) as [raw Hraw]; [lia|].
    eexists. exact Hraw. }
  destruct (escalate_take_until as_completed props min_prob top_n _ [] [] Hok) as [best Hrun].
  exists best, (take_until stops (py_range min_legs (max_legs + 1))).
  split; [exact Hrun|]. split.
  - intros Hle. rewrite py_range_cons by lia. left. reflexivity.
  - intros k Hk.
    pose proof (take_until_subset _ _ _ Hk) as Hin. apply py_range_In in Hin.
    split; [lia|].
    destruct (size_pass_ok as_completed props min_prob k Hperm) as [raw Hraw]; [lia|].
    exists (sort_desc balance_key raw). split; [exact Hraw|]. split.
    + rewrite (take_until_range stops _ min_legs (max_legs + 1) k eq_refl Hk).
      unfold stops, pass_stops. rewrite Hraw.
      split; intros [H1 H2]; (split; [lia | exact H2]).
    + rewrite stop_rule_true. split.
      * intros (p & rest & E & Hp). exists p, rest. repeat split; try assumption.
        intros q Hq. apply sort_desc_In in Hq.
        exact (sort_desc_head balance_key raw p rest E q Hq).
      * intros (p & rest & E & Hp & _). exists p, rest. split; assumption.
Qed.

Lemma escalation_stop_rule_witness :
  exists best visited,
    generate_trace in_submission_order esc_pool 2 3 0.05 10 = Ok (best, visited)
    /\ In 2%Z visited.
Proof.
  destruct (escalation_stop_rule in_submission_order esc_pool 2 3 0.05 10)
    as (best & visited & Hrun & Hfirst & _).
  - intros fs. reflexivity.
  - lia.
  - exists best, visited. split; [exact Hrun|]. apply Hfirst. lia.
Defined.

(** C4 fails as stated: on [esc_pool] a pair of probability 0.27, which is
    not below [2 * 0.05], survives at size 2 and 2 is below [max_legs = 3],
    yet size 3 is not attempted, because the top-ranked pair has probability
    0.06. *)
Lemma escalation_ignores_max_probability :
  match generate_trace in_submission_order esc_pool 2 3 0.05 10,
        size_pass in_submission_order (to_dict_records esc_pool) 0.05 2 with
  | Ok (_, visited), Ok parlays =>
      visited = [2%Z]
      /\ (exists p, In p parlays /\ ~ probability p < 2 * 0.05)
      /\ ~ In 3%Z visited
  | _, _ => False
  end.
Proof.
  vm_compute. split; [reflexivity|]. split.
  - eexists. split; [right; right; left; reflexivity|]. vm_compute. discriminate.
  - intros [H|[]]. discriminate.
Qed.

(** ** Greedy builder: the guaranteed pair *)

Lemma scan_pairs_fold (props : list Leg) : forall st,
  scan_pairs props st =
  fold_left (fun st ab => consider_pair (fst ab) st (snd ab)) (all_pairs props) st.
Proof.
  induction props as [|a rest IH]; intros st; simpl; [reflexivity|].
  rewrite fold_left_app, IH. f_equal.
  generalize st. clear. induction rest as [|b rest IH]; intros st; simpl; [reflexivity|].
  apply IH.
Qed.

Lemma all_pairs_lookup (props : list Leg) (a b : Leg) :
  In (a, b) (all_pairs props) <->
  exists i j : nat, (i < j)%nat /\ props !! i = Some a /\ props !! j = Some b.
Proof.
  induction props as [|x rest IH]; simpl.
  - split; [tauto|]. intros (i & j & _ & H & _). rewrite lookup_nil in H. discriminate.
  - rewrite in_app_iff, in_map_iff, IH. split.
    + intros [(b' & [= <- <-] & Hb) | (i & j & Hij & Hi & Hj)].
      * apply list_elem_of_In, list_elem_of_lookup in Hb as [j Hj].
        exists O, (S j). repeat split; [lia | assumption].
      * exists (S i), (S j). repeat split; [lia | assumption | assumption].
    + intros (i & j & Hij & Hi & Hj). destruct j as [|j]; [lia|]. simpl in Hj.
      destruct i as [|i]; simpl in Hi.
      * left. injection Hi as ->. exists b. split; [reflexivity|].
        apply list_elem_of_In, list_elem_of_lookup. exists j. assumption.
      * right. exists i, j. repeat split; [lia | assumption | assumption].
Qed.

Lemma consider_pair_inv (seen : list (Leg * Leg)) (st : option (Q * Parlay)) (a b : Leg) :
  scan_inv seen st -> scan_inv (seen ++ [(a, b)]) (consider_pair a st b).
Proof.
  intros Hinv. unfold consider_pair.
  destruct (is_valid_combo [a; b]) eqn:Hv.
  - destruct (Qlt_b (payout (pair_parlay a b)) 3.0) eqn:Hp.
    + (* payout below the floor: the state is kept *)
      apply Qlt_b_true in Hp. simpl in Hp.
      assert (Hnw : ~ worthwhile a b).
      { intros [_ H]. apply (Qlt_not_le _ _ Hp). exact H. }
      destruct st as [[s p]|]; simpl in *.
      * destruct Hinv as (Hs & (a0 & b0 & Hin & Hw & Hp0) & Hmax).
        split; [assumption|]. split.
        -- exists a0, b0. rewrite in_app_iff. tauto.
        -- intros a' b' Hin' Hw'. apply in_app_iff in Hin' as [Hin'|[[= <- <-]|[]]].
           ++ apply Hmax; assumption.
           ++ contradiction.
      * intros a' b' Hin' Hw'. apply in_app_iff in Hin' as [Hin'|[[= <- <-]|[]]].
        -- exact (Hinv a' b' Hin' Hw').
        -- contradiction.
    + apply Qlt_b_false in Hp. simpl in Hp.
      assert (Hw : worthwhile a b) by (split; assumption).
      destruct st as [[s p]|]; simpl in *.
      * destruct Hinv as (Hs & (a0 & b0 & Hin & Hw0 & Hp0) & Hmax).
        destruct (Qgt_b ((edge a + edge b) / 2) s) eqn:Hgt; simpl.
        -- apply Qlt_b_true in Hgt. split; [reflexivity|]. split.
           ++ exists a, b. rewrite in_app_iff. simpl. tauto.
           ++ intros a' b' Hin' Hw'. apply in_app_iff in Hin' as [Hin'|[[= <- <-]|[]]].
              ** apply Qle_trans with s; [|apply Qlt_le_weak; exact Hgt].
                 rewrite Hs. apply Hmax; assumption.
              ** apply Qle_refl.
        -- apply Qlt_b_false in Hgt. split; [assumption|]. split.
           ++ exists a0, b0. rewrite in_app_iff. tauto.
           ++ intros a' b' Hin' Hw'. apply in_app_iff in Hin' as [Hin'|[[= <- <-]|[]]].
              ** apply Hmax; assumption.
              ** simpl. rewrite <- Hs. exact Hgt.
      * split; [reflexivity|]. split.
        -- exists a, b. rewrite in_app_iff. simpl. tauto.
        -- intros a' b' Hin' Hw'. apply in_app_iff in Hin' as [Hin'|[[= <- <-]|[]]].
           ++ exfalso. exact (Hinv a' b' Hin' Hw').
           ++ apply Qle_refl.
  - (* invalid pair: the state is kept *)
    assert (Hnw : ~ worthwhile a b).
    { intros [H _]. rewrite Hv in H. discriminate. }
    destruct st as [[s p]|]; simpl in *.
    + destruct Hinv as (Hs & (a0 & b0 & Hin & Hw & Hp0) & Hmax).
      split; [assumption|]. split.
      * exists a0, b0. rewrite in_app_iff. tauto.
      * intros a' b' Hin' Hw'. apply in_app_iff in Hin' as [Hin'|[[= <- <-]|[]]].
        -- apply Hmax; assumption.
        -- contradiction.
    + intros a' b' Hin' Hw'. apply in_app_iff in Hin' as [Hin'|[[= <- <-]|[]]].
      * exact (Hinv a' b' Hin' Hw').
      * contradiction.
Qed.

Lemma scan_fold_inv (pairs : list (Leg * Leg)) : forall seen st,
  scan_inv seen st ->
  scan_inv (seen ++ pairs)
           (fold_left (fun st ab => consider_pair (fst ab) st (snd ab)) pairs st).
Proof.
  induction pairs as [|[a b] pairs IH]; intros seen st Hinv; simpl.
  - rewrite app_nil_r. exact Hinv.
  - replace (seen ++ (a, b) :: pairs) with ((seen ++ [(a, b)]) ++ pairs)
      by (rewrite <- app_assoc; reflexivity).
    apply IH. apply consider_pair_inv. exact Hinv.
Qed.

Lemma scan_pairs_inv (props : list Leg) : scan_inv (all_pairs props) (scan_pairs props None).
Proof.
  rewrite scan_pairs_fold.
  apply (scan_fold_inv (all_pairs props) [] None). intros a b [].
Qed.

Lemma assemble_prefix (df : DataFrame) (min_legs max_legs : Z) (n : nat) :
  forall used parlays,
    assemble df min_legs max_legs n used parlays =
    parlays ++ assemble df min_legs max_legs n used [].
Proof.
  induction n as [|n IH]; intros used parlays; simpl.
  - rewrite app_nil_r. reflexivity.
  - destruct (unused used df) as [|first rest]; [rewrite app_nil_r; reflexivity|].
    destruct (extend df _ _ _) as [used' parlay].
    destruct (min_legs <=? Z.of_nat (length parlay))%Z.
    + rewrite IH, (IH used' [score_rows parlay]), <- app_assoc. reflexivity.
    + apply IH.
Qed.

Lemma greedy_parlay_builder_split (df : DataFrame) (min_legs max_legs top_n : Z) :
  greedy_parlay_builder df min_legs max_legs top_n =
  guaranteed_pair (odds_filter df) ++ sequential df min_legs max_legs top_n.
Proof. unfold greedy_parlay_builder, sequential. apply assemble_prefix. Qed.

(** C5. The builder's output starts with the guaranteed pair and continues
    with the sequentially assembled parlays.  The guaranteed pair is a valid
    pair of rows of the odds-filtered pool with payout at least 3.0 whose
    average edge is greatest among all such pairs; there is none exactly when
    no valid pair reaches payout 3.0. *)
Theorem guaranteed_best_2leg (df : DataFrame) (min_legs max_legs top_n : Z) :
  let props := to_dict_records (odds_filter df) in
  (greedy_parlay_builder df min_legs max_legs top_n =
   match best_2leg (odds_filter df) with
   | Some p => p :: sequential df min_legs max_legs top_n
   | None => sequential df min_legs max_legs top_n
   end)
  /\ match best_2leg (odds_filter df) with
     | Some p =>
         (exists (i j : nat) (a b : Leg),
             (i < j)%nat /\ props !! i = Some a /\ props !! j = Some b
             /\ is_valid_combo [a; b] = true
             /\ p = pair_parlay a b /\ 3.0 <= payout p)
         /\ (forall (i j : nat) (a b : Leg),
               (i < j)%nat -> props !! i = Some a -> props !! j = Some b ->
               is_valid_combo [a; b] = true ->
               3.0 <= payout (pair_parlay a b) ->
               avg_edge (pair_parlay a b) <= avg_edge p)
     | None =>
         forall (i j : nat) (a b : Leg),
           (i < j)%nat -> props !! i = Some a -> props !! j = Some b ->
           is_valid_combo [a; b] = true -> ~ 3.0 <= payout (pair_parlay a b)
     end.
Proof.
  intros props. split.
  - rewrite greedy_parlay_builder_split. unfold guaranteed_pair.
    destruct (best_2leg (odds_filter df)); reflexivity.
  - unfold best_2leg. fold props.
    pose proof (scan_pairs_inv props) as Hinv.
    destruct (scan_pairs props None) as [[s p]|]; simpl in *.
    + destruct Hinv as (_ & (a & b & Hin & [Hv Hp] & ->) & Hmax). split.
      * apply all_pairs_lookup in Hin as (i & j & Hij & Hi & Hj).
        exists i, j, a, b. repeat split; assumption.
      * intros i j a' b' Hij Hi Hj Hv' Hp'. apply Hmax.
        -- apply all_pairs_lookup. exists i, j. repeat split; assumption.
        -- split; assumption.
    + intros i j a b Hij Hi Hj Hv Hp. apply (Hinv a b).
      * apply all_pairs_lookup. exists i, j. repeat split; assumption.
      * split; assumption.
Qed.

Lemma guaranteed_best_2leg_witness :
  exists p : Parlay,
    greedy_parlay_builder two_row_pool 2 5 30 = p :: sequential two_row_pool 2 5 30
    /\ 3.0 <= payout p
    /\ avg_edge p == 0.25.
Proof.
  pose proof (guaranteed_best_2leg two_row_pool 2 5 30) as H.
  cbv zeta in H. destruct H as [Hout Hbest].
  destruct (best_2leg (odds_filter two_row_pool)) as [p|] eqn:E.
  - exists p. split; [exact Hout|].
    destruct Hbest as [(i & j & a & b & _ & _ & _ & _ & _ & Hpay) _].
    split; [exact Hpay|].
    vm_compute in E. injection E as <-. reflexivity.
  - vm_compute in E. discriminate E.
Defined.

(** ** Greedy builder: iterative assembly *)

Lemma unused_In (used : gset Z) (df : DataFrame) (r : Row) :
  In r (unused used df) <-> In r df /\ fst r ∉ used.
Proof.
  unfold unused. rewrite filter_In, negb_true_iff, bool_decide_eq_false. reflexivity.
Qed.

Lemma drop_conflicts_subset (parlay : list Row) : forall (available : DataFrame) (r : Row),
  In r (fold_left drop_conflicts parlay available) -> In r available.
Proof.
  induction parlay as [|leg parlay IH]; intros available r H; simpl in H; [assumption|].
  apply IH in H. unfold drop_conflicts in H. apply filter_In in H. tauto.
Qed.

Lemma candidates_In (df : DataFrame) (used : gset Z) (parlay : list Row) (r : Row) :
  In r (candidates df used parlay) -> In r df /\ fst r ∉ used.
Proof.
  unfold candidates. intros H.
  apply filter_In in H as [H _]. apply filter_In in H as [H _].
  apply drop_conflicts_subset in H. apply unused_In. exact H.
Qed.

Lemma label_marked (z : Z) (used : gset Z) : z ∈ ({[z]} ∪ used : gset Z).
Proof. apply elem_of_union_l, elem_of_singleton. reflexivity. Qed.

(** What one run of the inner loop adds to the parlay and to [used]. *)
Lemma extend_spec (df : DataFrame) (n : nat) : forall used parlay used' parlay',
  extend df n used parlay = (used', parlay') ->
  exists added,
    parlay' = parlay ++ added
    /\ List.NoDup (map fst added)
    /\ (forall r, In r added -> In r df /\ fst r ∉ used)
    /\ (forall z, z ∈ used' <-> z ∈ used \/ In z (map fst added))
    /\ (length added <= n)%nat.
Proof.
  induction n as [|n IH]; intros used parlay used' parlay' H; simpl in H.
  - injection H as <- <-. exists []. rewrite app_nil_r. simpl.
    repeat split; try constructor; try tauto.
  - destruct (candidates df used parlay) as [|next rest] eqn:Hc.
    + injection H as <- <-. exists []. rewrite app_nil_r. simpl.
      repeat split; try constructor; try tauto; try lia.
    + assert (Hnext : In next df /\ fst next ∉ used).
      { apply (candidates_In df used parlay). rewrite Hc. left. reflexivity. }
      apply IH in H as (added & -> & Hnd & Hin & Hused & Hlen).
      exists (next :: added). rewrite <- app_assoc. simpl. repeat split.
      * constructor; [|exact Hnd]. intros Hmem.
        apply in_map_iff in Hmem as (r & Hr & Hmem).
        destruct (Hin r Hmem) as [_ Hnot]. apply Hnot. rewrite Hr. apply label_marked.
      * destruct H as [<-|H]; [tauto | apply Hin; exact H].
      * destruct H as [<-|H]; [tauto|]. destruct (Hin r H) as [_ Hnot].
        intros Hu. apply Hnot, elem_of_union_r, Hu.
      * intros Hz. apply Hused in Hz as [Hz|Hz]; [|tauto].
        apply elem_of_union in Hz as [Hz|Hz]; [|tauto].
        apply elem_of_singleton in Hz. subst z. tauto.
      * intros [Hz|[Hz|Hz]]; apply Hused.
        -- left. apply elem_of_union_r, Hz.
        -- left. subst z. apply label_marked.
        -- right. exact Hz.
      * lia.
Qed.

Lemma series_names_score_rows (parlay : list Row) :
  series_names (score_rows parlay) = map fst parlay.
Proof.
  unfold series_names, score_rows.
  destruct (fold_left _ parlay (1, 0, 1)) as [[prob e] pay]. simpl.
  induction parlay as [|r parlay IH]; simpl; [reflexivity|]. f_equal. exact IH.
Qed.

Lemma legs_score_rows (parlay : list Row) : legs (score_rows parlay) = map series_of parlay.
Proof.
  unfold score_rows. destruct (fold_left _ parlay (1, 0, 1)) as [[prob e] pay]. reflexivity.
Qed.

Lemma num_legs_score_rows (parlay : list Row) : num_legs (score_rows parlay) = length parlay.
Proof.
  unfold score_rows. destruct (fold_left _ parlay (1, 0, 1)) as [[prob e] pay]. reflexivity.
Qed.

Lemma all_names_app (ps qs : list Parlay) : all_names (ps ++ qs) = all_names ps ++ all_names qs.
Proof. unfold all_names. rewrite map_app, concat_app. reflexivity. Qed.

(** The invariant of the outer loop: the labels placed so far are pairwise
    different and all marked used. *)
Lemma assemble_inv (df : DataFrame) (min_legs max_legs : Z) (n : nat) :
  forall used parlays,
    List.NoDup (all_names parlays) ->
    (forall z, In z (all_names parlays) -> z ∈ used) ->
    (forall p, In p parlays -> from_pool df p) ->
    List.NoDup (all_names (assemble df min_legs max_legs n used parlays))
    /\ (forall p, In p (assemble df min_legs max_legs n used parlays) -> from_pool df p).
Proof.
  induction n as [|n IH]; intros used parlays Hnd Hused Hpool; simpl.
  - split; assumption.
  - destruct (unused used df) as [|first rest] eqn:Hu; [split; assumption|].
    assert (Hfirst : In first df /\ fst first ∉ used).
    { apply unused_In. rewrite Hu. left. reflexivity. }
    destruct (extend df _ _ _) as [used' parlay] eqn:He.
    apply extend_spec in He as (added & -> & Hnd' & Hin & Hused' & _).
    assert (Hmarked : forall z, In z (map fst ([first] ++ added)) -> z ∈ used').
    { intros z [<-|Hz]; apply Hused'; [left; apply label_marked | right; exact Hz]. }
    assert (Hkeep : forall z, In z (all_names parlays) -> z ∈ used').
    { intros z Hz. apply Hused'. left. apply Hused in Hz. apply elem_of_union_r, Hz. }
    destruct (min_legs <=? Z.of_nat (length ([first] ++ added)))%Z.
    + apply IH.
      * rewrite all_names_app. unfold all_names at 2. simpl.
        rewrite app_nil_r, series_names_score_rows.
        apply List.NoDup_app.
        -- exact Hnd.
        -- simpl. constructor; [|exact Hnd']. intros Hmem.
           apply in_map_iff in Hmem as (r & Hr & Hmem).
           destruct (Hin r Hmem) as [_ Hnot]. apply Hnot. rewrite Hr. apply label_marked.
        -- intros z Hz [<-|Hz'].
           ++ apply Hused in Hz. tauto.
           ++ apply in_map_iff in Hz' as (r & <- & Hr).
              destruct (Hin r Hr) as [_ Hnot]. apply Hnot.
              apply Hused in Hz. apply elem_of_union_r, Hz.
      * intros z Hz. rewrite all_names_app in Hz. apply in_app_iff in Hz as [Hz|Hz].
        -- apply Hkeep. exact Hz.
        -- unfold all_names in Hz. simpl in Hz.
           rewrite app_nil_r, series_names_score_rows in Hz. apply Hmarked. exact Hz.
      * intros p Hp. apply in_app_iff in Hp as [Hp|[<-|[]]]; [apply Hpool; exact Hp|].
        intros l Hl. rewrite legs_score_rows in Hl.
        apply in_map_iff in Hl as ([z c] & <- & Hr).
        exists z, c. split; [reflexivity|].
        destruct Hr as [<-|Hr]; [tauto | apply Hin; exact Hr].
    + apply IH; assumption.
Qed.

Lemma NoDup_concat_lookup {A : Type} (L : list (list A)) :
  List.NoDup (concat L) ->
  forall (i j : nat) (a b : list A) (x : A),
    i <> j -> L !! i = Some a -> L !! j = Some b -> In x a -> ~ In x b.
Proof.
  induction L as [|l L IH]; intros Hnd i j a b x Hij Hi Hj Ha Hb.
  - rewrite lookup_nil in Hi. discriminate.
  - simpl in Hnd.
    assert (Hsplit : forall y, In y l -> ~ In y (concat L)).
    { intros y Hy Hy'. revert Hnd Hy Hy'. clear. induction l as [|z l IH]; simpl.
      - tauto.
      - intros Hnd [->|Hy] Hy'.
        + inversion Hnd as [|? ? Hnot _]. apply Hnot. apply in_app_iff. tauto.
        + inversion Hnd. apply IH; assumption. }
    assert (Hin : forall k c, L !! k = Some c -> In x c -> In x (concat L)).
    { intros k c Hk Hc. apply in_concat. exists c. split; [|exact Hc].
      apply list_elem_of_In, list_elem_of_lookup. exists k. exact Hk. }
    destruct i as [|i], j as [|j]; simpl in Hi, Hj.
    + congruence.
    + injection Hi as ->. apply (Hsplit x Ha). exact (Hin j b Hj Hb).
    + injection Hj as ->. apply (Hsplit x Hb). exact (Hin i a Hi Ha).
    + apply (IH (NoDup_app_remove_l _ _ Hnd) i j a b x); try assumption. congruence.
Qed.

(** C7. Across the sequentially assembled parlays of one run no index label
    occurs twice (neither in two parlays nor twice in one), and every leg of
    such a parlay is a row of the odds-filtered pool; the guaranteed pair,
    which precedes them in the output, can hold rows that an assembled parlay
    holds too. *)
Theorem greedy_never_reuses_a_row :
  (forall (df : DataFrame) (min_legs max_legs top_n : Z),
      let assembled := sequential df min_legs max_legs top_n in
      greedy_parlay_builder df min_legs max_legs top_n
      = guaranteed_pair (odds_filter df) ++ assembled
      /\ List.NoDup (concat (map series_names assembled))
      /\ (forall (i j : nat) (p q : Parlay) (n : Z),
             i <> j -> assembled !! i = Some p -> assembled !! j = Some q ->
             In n (series_names p) -> ~ In n (series_names q))
      /\ (forall p l, In p assembled -> In l (legs p) ->
             exists n c, l = Series n c /\ In (n, c) (odds_filter df)))
  /\ (exists (df : DataFrame) (p q : Parlay) (n : Z) (c : Leg),
         guaranteed_pair (odds_filter df) = [p]
         /\ In q (sequential df 2 5 30)
         /\ In (Dict c) (legs p) /\ In (Series n c) (legs q) /\ In (n, c) df).
Proof.
  split.
  - intros df min_legs max_legs top_n assembled.
    destruct (assemble_inv (odds_filter df) min_legs max_legs (Z.to_nat top_n) ∅ [])
      as [Hnd Hpool].
    { constructor. } { intros z []. } { intros p []. }
    fold (sequential df min_legs max_legs top_n) in Hnd, Hpool. fold assembled in Hnd, Hpool.
    split; [apply greedy_parlay_builder_split|]. split; [exact Hnd|]. split.
    + intros i j p q n Hij Hi Hj.
      apply (NoDup_concat_lookup (map series_names assembled) Hnd i j); try assumption.
      * rewrite list_lookup_fmap, Hi. reflexivity.
      * rewrite list_lookup_fmap, Hj. reflexivity.
    + intros p l Hp Hl. exact (Hpool p Hp l Hl).
  - exists two_row_pool. eexists. eexists. exists 0%Z. eexists.
    split; [vm_compute; reflexivity|]. split; [vm_compute; left; reflexivity|].
    split; [left; reflexivity|]. split; left; reflexivity.
Qed.

Lemma greedy_never_reuses_a_row_witness :
  exists p q : Parlay,
    sequential wide_pool 2 3 2 = [p; q]
    /\ In 0%Z (series_names p)
    /\ ~ In 0%Z (series_names q).
Proof.
  destruct greedy_never_reuses_a_row as [H _].
  destruct (H wide_pool 2%Z 3%Z 2%Z) as (_ & _ & Hdis & _).
  assert (E : exists p q, sequential wide_pool 2 3 2 = [p; q] /\ In 0%Z (series_names p))
    by (eexists; eexists; split; [vm_compute; reflexivity | left; reflexivity]).
  destruct E as (p & q & E & Hp).
  exists p, q. split; [exact E|]. split; [exact Hp|].
  apply (Hdis 0%nat 1%nat p q 0%Z); [discriminate | rewrite E; reflexivity
                                     | rewrite E; reflexivity | exact Hp].
Defined.

(** An assembled parlay has between one and
    [1 + (max_legs - min_legs + 1)] legs, whatever [max_legs] is. *)
Lemma assemble_sizes (df : DataFrame) (min_legs max_legs : Z) (n : nat) :
  forall used parlays,
    (forall p, In p parlays ->
       (1 <= num_legs p <= 1 + inner_rounds min_legs max_legs)%nat) ->
    forall p, In p (assemble df min_legs max_legs n used parlays) ->
      (1 <= num_legs p <= 1 + inner_rounds min_legs max_legs)%nat.
Proof.
  induction n as [|n IH]; intros used parlays Hall; simpl; [exact Hall|].
  destruct (unused used df) as [|first rest]; [exact Hall|].
  destruct (extend df _ _ _) as [used' parlay] eqn:He.
  apply extend_spec in He as (added & -> & _ & _ & _ & Hlen).
  destruct (min_legs <=? Z.of_nat (length ([first] ++ added)))%Z.
  - apply IH. intros p Hp. apply in_app_iff in Hp as [Hp|[<-|[]]]; [apply Hall; exact Hp|].
    rewrite num_legs_score_rows. simpl. lia.
  - apply IH. exact Hall.
Qed.

Lemma sequential_sizes (df : DataFrame) (min_legs max_legs top_n : Z) (p : Parlay) :
  In p (sequential df min_legs max_legs top_n) ->
  (1 <= num_legs p <= 1 + inner_rounds min_legs max_legs)%nat.
Proof.
  unfold sequential. apply assemble_sizes. intros q [].
Qed.

(** C9. The number of extension rounds is [max_legs - min_legs + 1], not
    [max_legs - 1].  With the defaults [min_legs = 3], [max_legs = 6] and
    seven mutually compatible rows, the parlay stops at five legs although a
    candidate remains; with [min_legs = 1], [max_legs = 2] it grows to three
    legs; only for [min_legs = 2] does it stop at [max_legs]. *)
Theorem greedy_growth_depends_on_min_legs :
  length (odds_filter wide_pool) = 7%nat
  /\ map num_legs (sequential wide_pool 3 6 1) = [5%nat]
  /\ (let '(used, parlay) :=
        extend (odds_filter wide_pool) (inner_rounds 3 6) ({[0%Z]} ∪ ∅) [wide_seed] in
      length parlay = 5%nat /\ length (candidates (odds_filter wide_pool) used parlay) = 2%nat)
  /\ map num_legs (sequential wide_pool 1 2 1) = [3%nat]
  /\ map num_legs (sequential wide_pool 2 5 1) = [5%nat].
Proof. vm_compute. repeat split. Qed.

(** ** Ladder transformer *)












(** Two legs that climb to the same row collapse, and no ladder is written. *)
Example ladder_collapse_dropped :
  ladder ladder_pool twin_parlay = Ok None.
Proof. reflexivity. Qed.

(** * Further properties *)

(** ** Validators *)

Lemma no_sweat_from_spec (combo : list Leg) : forall seen : gset (string * string),
  no_sweat_from seen combo = true <->
  NoDup (no_sweat_key <$> combo) /\ (forall l, l ∈ combo -> no_sweat_key l ∉ seen).
Proof.
  induction combo as [|leg rest IH]; intros seen; simpl.
  - split; [intros _ | reflexivity].
    split; [constructor | intros l Hl; inversion Hl].
  - destruct (bool_decide (no_sweat_key leg ∈ seen)) eqn:Hk.
    + apply bool_decide_eq_true in Hk. split; [discriminate|].
      intros [_ H]. exfalso. apply (H leg); [left | assumption].
    + apply bool_decide_eq_false in Hk. rewrite IH, NoDup_cons. clear IH. split.
      * intros [Hnd H]. split; [split; [|exact Hnd]|].
        -- intros Hin. apply list_elem_of_fmap in Hin as (x & Hx & Hin).
           apply (H x Hin). rewrite <- Hx. apply elem_of_union_l, elem_of_singleton. reflexivity.
        -- intros l Hl. apply elem_of_cons in Hl as [->|Hl]; [assumption|].
           intros Hs. apply (H l Hl). apply elem_of_union_r. exact Hs.
      * intros [[Hfresh Hnd] H]. split; [exact Hnd|].
        intros l Hl. apply not_elem_of_union. split.
        -- intros Heq%elem_of_singleton. apply Hfresh. rewrite <- Heq.
           apply list_elem_of_fmap_2. exact Hl.
        -- apply H. right. exact Hl.
Qed.

Lemma is_valid_no_sweat_combo_NoDup (combo : list Leg) :
  is_valid_no_sweat_combo combo = true <-> NoDup (no_sweat_key <$> combo).
Proof.
  unfold is_valid_no_sweat_combo. rewrite no_sweat_from_spec.
  split; [tauto|]. intros H. split; [exact H|]. intros l _. apply not_elem_of_empty.
Qed.

(** X1. The promotional validator accepts a combination exactly when no two
    of its legs have both the same player and the same market once
    "_alternate" is removed from the market key. *)
Theorem is_valid_no_sweat_combo_iff (combo : list Leg) :
  is_valid_no_sweat_combo combo = true <-> no_shared no_sweat_key combo.
Proof. rewrite is_valid_no_sweat_combo_NoDup, no_shared_NoDup. reflexivity. Qed.

Lemma is_valid_combo_NoDup (combo : list Leg) :
  is_valid_combo combo = true <->
  NoDup (player_name <$> combo) /\ NoDup (market_key <$> combo).
Proof.
  unfold is_valid_combo. rewrite is_valid_from_spec. split.
  - intros (H1 & H2 & _). split; assumption.
  - intros [H1 H2]. repeat split; try assumption; intros l _; apply not_elem_of_empty.
Qed.


(** X2. Every combination the standard validator accepts is accepted by the
    promotional validator, and the promotional validator accepts
    combinations the standard one rejects (two players on one market). *)
Theorem standard_implies_no_sweat :
  (forall combo : list Leg,
      is_valid_combo combo = true -> is_valid_no_sweat_combo combo = true)
  /\ (exists combo : list Leg,
        is_valid_no_sweat_combo combo = true /\ is_valid_combo combo = false).
Proof.
  split.
  - intros combo H. apply is_valid_combo_NoDup in H as [Hp _].
    apply is_valid_no_sweat_combo_NoDup.
    apply (NoDup_fmap_1 fst).
    rewrite <- list_fmap_compose. exact Hp.
  - exists same_market_pair. split; reflexivity.
Qed.

Lemma standard_implies_no_sweat_witness :
  is_valid_combo [leg_a; leg_b; leg_c] = true
  /\ is_valid_no_sweat_combo [leg_a; leg_b; leg_c] = true.
Proof.
  assert (H : is_valid_combo [leg_a; leg_b; leg_c] = true) by reflexivity.
  split; [exact H|].
  destruct standard_implies_no_sweat as [Himp _]. exact (Himp _ H).
Defined.

Lemma bool_eq_iff (a b : bool) : (a = true <-> b = true) -> a = b.
Proof. destruct a, b; intuition congruence. Qed.

(** X3. The verdict of either validator does not depend on the order of the
    legs, and removing legs from an accepted combination leaves an accepted
    combination. *)
Theorem validators_order_and_sublists (combo combo' : list Leg) :
  (combo ≡ₚ combo' ->
     is_valid_combo combo = is_valid_combo combo'
     /\ is_valid_no_sweat_combo combo = is_valid_no_sweat_combo combo')
  /\ (sublist combo combo' ->
        (is_valid_combo combo' = true -> is_valid_combo combo = true)
        /\ (is_valid_no_sweat_combo combo' = true -> is_valid_no_sweat_combo combo = true)).
Proof.
  split.
  - intros Hp. split; apply bool_eq_iff.
    + rewrite !is_valid_combo_NoDup, Hp. reflexivity.
    + rewrite !is_valid_no_sweat_combo_NoDup, Hp. reflexivity.
  - intros Hs. split.
    + rewrite !is_valid_combo_NoDup. intros [H1 H2]. split.
      * eapply sublist_NoDup; [exact H1 | apply fmap_sublist; exact Hs].
      * eapply sublist_NoDup; [exact H2 | apply fmap_sublist; exact Hs].
    + rewrite !is_valid_no_sweat_combo_NoDup. intros H.
      eapply sublist_NoDup; [exact H | apply fmap_sublist; exact Hs].
Qed.

Lemma validators_order_and_sublists_witness :
  is_valid_combo [leg_c; leg_a; leg_b] = is_valid_combo [leg_a; leg_b; leg_c]
  /\ is_valid_combo [leg_a; leg_c] = true.
Proof.
  split.
  - destruct (validators_order_and_sublists [leg_c; leg_a; leg_b] [leg_a; leg_b; leg_c])
      as [Hperm _].
    destruct Hperm as [H _]; [apply (Permutation_cons_append [leg_a; leg_b] leg_c) | exact H].
  - destruct (validators_order_and_sublists [leg_a; leg_c] [leg_a; leg_b; leg_c])
      as [_ Hsub].
    apply Hsub; [|reflexivity].
    apply sublist_skip. apply sublist_cons. apply sublist_skip. constructor.
Defined.

(** X4. A combination whose markets are all allowed markets and which the
    standard validator accepts has at most six legs. *)
Theorem valid_allowed_combo_at_most_six (combo : list Leg) :
  (forall l, In l combo -> market_key l ∈ ALLOWED_MARKETS) ->
  is_valid_combo combo = true ->
  (length combo <= 6)%nat.
Proof.
  intros Hall Hv. apply is_valid_combo_NoDup in Hv as [_ Hm].
  rewrite <- (length_fmap market_key).
  rewrite <- (size_list_to_set (C := gset string)) by exact Hm.
  change 6%nat with (size ALLOWED_MARKETS).
  apply subseteq_size. intros m Hin.
  apply elem_of_list_to_set in Hin.
  apply list_elem_of_fmap in Hin as (l & -> & Hl).
  apply Hall. apply list_elem_of_In. exact Hl.
Qed.

Lemma valid_allowed_combo_at_most_six_witness :
  (length [leg_a; leg_b; leg_c] <= 6)%nat.
Proof.
  apply valid_allowed_combo_at_most_six.
  - intros l [<-|[<-|[<-|[]]]]; vm_compute; reflexivity.
  - reflexivity.
Defined.

(** ** Expected value and display of odds *)

(** X5. The promotional expected value is proportional to the stake, so for
    positive stakes the order of two parlays by expected value does not
    depend on the stake. *)
Theorem expected_value_stake_cancels (p q : Parlay) (s s' c : Q) :
  0 < s -> 0 < s' ->
  expected_value_no_sweat p s c == s * expected_value_no_sweat p 1 c
  /\ (expected_value_no_sweat p s c <= expected_value_no_sweat q s c <->
      expected_value_no_sweat p s' c <= expected_value_no_sweat q s' c).
Proof.
  intros Hs Hs'.
  assert (Hscale : forall (r : Parlay) (t : Q),
             expected_value_no_sweat r t c == t * expected_value_no_sweat r 1 c).
  { intros r t. unfold expected_value_no_sweat. ring. }
  split; [apply Hscale|].
  rewrite (Hscale p s), (Hscale q s), (Hscale p s'), (Hscale q s').
  rewrite (Qmult_le_l _ _ s Hs), (Qmult_le_l _ _ s' Hs'). reflexivity.
Qed.

Lemma expected_value_stake_cancels_witness :
  expected_value_no_sweat ladder_parlay 100 0.7
  == 100 * expected_value_no_sweat ladder_parlay 1 0.7.
Proof.
  apply (expected_value_stake_cancels ladder_parlay twin_parlay 100 1 0.7); reflexivity.
Defined.

Lemma py_int_nonneg (x : Q) : 0 <= x -> py_int x = Qfloor x.
Proof.
  destruct x as [n d]. unfold Qle, py_int, Qfloor. simpl. intros H.
  apply Z.quot_div_nonneg; lia.
Qed.

Lemma py_int_bounds (x : Q) (a : Z) :
  inject_Z a <= x -> (0 <= a)%Z ->
  (a <= py_int x)%Z /\ inject_Z (py_int x) <= x /\ x < inject_Z (py_int x) + 1.
Proof.
  intros Hax Ha.
  assert (H0 : 0 <= x).
  { apply Qle_trans with (inject_Z a); [|exact Hax].
    change 0 with (inject_Z 0). rewrite <- Zle_Qle. exact Ha. }
  rewrite (py_int_nonneg x H0). split; [|split].
  - rewrite <- (Qfloor_Z a). apply Qfloor_resp_le. exact Hax.
  - apply Qfloor_le.
  - pose proof (Qlt_floor x) as H. rewrite inject_Z_plus in H. exact H.
Qed.

Lemma py_int_neg (x : Q) : py_int (- x) = (- py_int x)%Z.
Proof.
  destruct x as [n d]. unfold py_int. simpl. apply Z.quot_opp_l. discriminate.
Qed.

Lemma py_int_comp (x y : Q) : x == y -> py_int x = py_int y.
Proof.
  intros E. destruct (Qlt_le_dec x 0) as [Hneg | Hpos].
  - assert (Hx : py_int x = (- py_int (- x))%Z) by (rewrite py_int_neg; lia).
    assert (Hy : py_int y = (- py_int (- y))%Z) by (rewrite py_int_neg; lia).
    rewrite Hx, Hy. f_equal.
    rewrite !py_int_nonneg by lra. apply Qfloor_comp. rewrite E. reflexivity.
  - rewrite !py_int_nonneg by lra. apply Qfloor_comp. exact E.
Qed.

Lemma hundred_over_positive (t : Q) : 0 < t -> t <= 1 -> 100 <= 100 / t.
Proof.
  intros H0 H1. apply Qle_shift_div_l; [exact H0|]. 
  apply Qle_trans with (100 * 1); [|apply Qle_refl].
  apply Qmult_le_l; [reflexivity | exact H1].
Qed.

Lemma display_from_two (d : Q) :
  2 <= d ->
  exists n : Z,
    decimal_to_american_odds d = Ok ("+" +:+ pretty n)
    /\ (100 <= n)%Z
    /\ inject_Z n <= decimal_to_american_odds_val d
    /\ decimal_to_american_odds_val d < inject_Z n + 1.
Proof.
  unfold decimal_to_american_odds, decimal_to_american_odds_val. intros H2.
  assert (E2 : Qge_b d 2.0 = true) by (apply Qge_b_true; lra).
  rewrite E2.
  destruct (py_int_bounds ((d - 1) * 100) 100) as (Hn & Hlo & Hhi);
    [unfold inject_Z; lra | lia |].
  eexists. split; [reflexivity|]. repeat split; assumption.
Qed.

Lemma display_below_two (d : Q) :
  1 < d -> d < 2 ->
  exists n : Z,
    decimal_to_american_odds d = Ok ("-" +:+ pretty n)
    /\ (100 <= n)%Z
    /\ inject_Z n <= - decimal_to_american_odds_val d
    /\ - decimal_to_american_odds_val d < inject_Z n + 1.
Proof.
  unfold decimal_to_american_odds, decimal_to_american_odds_val. intros H1 H2.
  assert (E2 : Qge_b d 2.0 = false).
  { apply not_true_iff_false. rewrite Qge_b_true. intros Hc. lra. }
  rewrite E2.
  assert (E1 : Qeq_bool (d - 1) 0 = false).
  { apply not_true_iff_false. rewrite Qeq_bool_iff. intros Hc. lra. }
  rewrite E1.
  assert (Hneg : - (-100 / (d - 1)) == 100 / (d - 1)) by (field; lra).
  destruct (py_int_bounds (100 / (d - 1)) 100) as (Hn & Hlo & Hhi);
    [unfold inject_Z; apply hundred_over_positive; lra | lia |].
  eexists. split; [reflexivity|]. rewrite Hneg. repeat split; assumption.
Qed.

(** X6. [decimal_to_american_odds] raises exactly at decimal odds 1.  For
    odds of 2 or more it prints "+n" and for odds strictly between 1 and 2
    "-n", where in both cases [n >= 100] is the integer part of the absolute
    value of the number [decimal_to_american_odds_val] computes.  For odds
    in [0, 1) the text carries two minus signs. *)
Theorem decimal_to_american_odds_spec (d : Q) :
  (decimal_to_american_odds d = Raise ZeroDivisionError <-> d == 1)
  /\ (2 <= d ->
      exists n : Z,
        decimal_to_american_odds d = Ok ("+" +:+ pretty n)
        /\ (100 <= n)%Z
        /\ inject_Z n <= decimal_to_american_odds_val d
        /\ decimal_to_american_odds_val d < inject_Z n + 1)
  /\ (1 < d -> d < 2 ->
      exists n : Z,
        decimal_to_american_odds d = Ok ("-" +:+ pretty n)
        /\ (100 <= n)%Z
        /\ inject_Z n <= - decimal_to_american_odds_val d
        /\ - decimal_to_american_odds_val d < inject_Z n + 1)
  /\ (0 <= d -> d < 1 ->
      exists n : Z,
        decimal_to_american_odds d = Ok ("--" +:+ pretty n) /\ (100 <= n)%Z).
Proof.
  split; [|split; [exact (display_from_two d) | split; [exact (display_below_two d)|]]].
  - unfold decimal_to_american_odds. destruct (Qge_b d 2.0) eqn:E2.
    + apply Qge_b_true in E2. split; [discriminate|]. intros H. exfalso. lra.
    + destruct (Qeq_bool (d - 1) 0) eqn:E1.
      * apply Qeq_bool_iff in E1. split; [intros _; lra | reflexivity].
      * split; [discriminate|]. intros H. exfalso.
        apply Qeq_bool_neq in E1. apply E1. lra.
  - unfold decimal_to_american_odds. intros H0 H1.
    assert (E2 : Qge_b d 2.0 = false).
    { apply not_true_iff_false. rewrite Qge_b_true. intros Hc. lra. }
    rewrite E2.
    assert (E1 : Qeq_bool (d - 1) 0 = false).
    { apply not_true_iff_false. rewrite Qeq_bool_iff. intros Hc. lra. }
    rewrite E1.
    assert (Hflip : 100 / (d - 1) == - (100 / (1 - d))) by (field; lra).
    destruct (py_int_bounds (100 / (1 - d)) 100) as (Hn & _ & _);
      [unfold inject_Z; apply hundred_over_positive; lra | lia |].
    exists (py_int (100 / (1 - d))). split; [|exact Hn].
    assert (Hint : py_int (100 / (d - 1)) = (- py_int (100 / (1 - d)))%Z).
    { rewrite <- py_int_neg. apply py_int_comp. exact Hflip. }
    rewrite Hint.
    destruct (py_int (100 / (1 - d))) as [|m|m]; try lia. reflexivity.
Qed.

Lemma decimal_to_american_odds_spec_witness :
  exists n : Z, decimal_to_american_odds 1.5 = Ok ("-" +:+ pretty n) /\ (100 <= n)%Z.
Proof.
  destruct (decimal_to_american_odds_spec 1.5) as (_ & _ & Hlow & _).
  destruct Hlow as (n & Hn & Hge & _); [reflexivity | reflexivity |].
  exists n. split; assumption.
Defined.

(** X7. A row that passed the odds filters of the greedy builder is
    displayed without error, as "+n" with [n >= 100] or as "-n" with
    [100 <= n <= 500]. *)
Theorem filtered_row_display (df : DataFrame) (r : Row) :
  In r (odds_filter df) ->
  exists n : Z,
    (100 <= n)%Z
    /\ ((2 <= odds_decimal (snd r)
         /\ decimal_to_american_odds (odds_decimal (snd r)) = Ok ("+" +:+ pretty n))
        \/ (odds_decimal (snd r) < 2 /\ (n <= 500)%Z
            /\ decimal_to_american_odds (odds_decimal (snd r)) = Ok ("-" +:+ pretty n))).
Proof.
  intros Hin. unfold odds_filter in Hin.
  apply filter_In in Hin as [Hin Hcap]. apply filter_In in Hin as [_ Hvalid].
  assert (Hge : 1.2 <= odds_decimal (snd r)).
  { apply Qlt_le_weak, passes_odds_filters_above. rewrite Hvalid, Hcap. reflexivity. }
  set (d := odds_decimal (snd r)) in *.
  destruct (Qlt_le_dec d 2) as [Hlt | H2].
  - destruct (display_below_two d) as (n & Hn & H100 & Hlo & _); [lra | exact Hlt |].
    exists n. split; [exact H100|]. right. split; [exact Hlt|]. split; [|exact Hn].
    assert (Hcap' : - decimal_to_american_odds_val d <= 500).
    { assert (H1 : 1 < d) by lra.
      pose proof (proj2 (american_below_two d H1 Hlt) Hge) as Hc.
      unfold AMERICAN_ODDS_CAP in Hc. lra. }
    rewrite Zle_Qle.
    apply Qle_trans with (- decimal_to_american_odds_val d); [exact Hlo | exact Hcap'].
  - destruct (display_from_two d H2) as (n & Hn & H100 & _).
    exists n. split; [exact H100|]. left. split; assumption.
Qed.

Lemma filtered_row_display_witness :
  exists n : Z, (100 <= n)%Z /\ In wide_seed (odds_filter wide_pool).
Proof.
  assert (Hin : In wide_seed (odds_filter wide_pool)) by (vm_compute; left; reflexivity).
  destruct (filtered_row_display wide_pool wide_seed Hin) as (n & Hn & _).
  exists n. split; assumption.
Defined.

(** ** Exhaustive search engine: errors and output *)

Lemma combinations_zero {A : Type} (l : list A) : combinations l 0 = [[]].
Proof. destruct l; reflexivity. Qed.

Lemma combinations_sublist {A : Type} (l : list A) : forall (k : nat) (c : list A),
  In c (combinations l k) -> sublist c l.
Proof.
  induction l as [|x xs IH]; intros [|k] c Hc; simpl in Hc.
  - destruct Hc as [<-|[]]. constructor.
  - destruct Hc.
  - destruct Hc as [<-|[]]. apply sublist_nil_l.
  - apply in_app_or in Hc as [Hc|Hc].
    + apply in_map_iff in Hc as (c' & <- & Hc'). apply sublist_skip, IH with k. exact Hc'.
    + apply sublist_cons, IH with (S k). exact Hc.
Qed.

Lemma gather_In (rs : list (result (option Parlay))) : forall ps,
  gather rs = Ok ps -> forall p, In p ps -> In (Ok (Some p)) rs.
Proof.
  induction rs as [|r rs IH]; intros ps H p Hp; simpl in H.
  - injection H as <-. destruct Hp.
  - destruct r as [o|e]; [|discriminate]. simpl in H.
    destruct (gather rs) as [ps0|e]; [|discriminate]. simpl in H. injection H as <-.
    destruct o as [p0|].
    + destruct Hp as [<-|Hp]; [left; reflexivity | right; exact (IH ps0 eq_refl p Hp)].
    + right. exact (IH ps0 eq_refl p Hp).
Qed.

(** A scored combination carries the aggregates of its legs and reaches the
    probability floor. *)
Lemma score_combo_Some (combo : list Leg) (min_prob : Q) (p : Parlay) :
  score_combo combo min_prob = Ok (Some p) ->
  combo <> []
  /\ p = {| legs := map Dict combo; num_legs := length combo;
            probability := prob_product combo; avg_edge := edge_mean combo;
            payout := payout_product combo |}
  /\ min_prob <= prob_product combo.
Proof.
  intros H. destruct combo as [|l ls]; [discriminate|].
  rewrite score_combo_total in H by discriminate.
  destruct (Qlt_b (prob_product (l :: ls)) min_prob) eqn:E; [discriminate|].
  injection H as <-. split; [discriminate|]. split; [reflexivity|].
  apply Qlt_b_false. exact E.
Qed.

Lemma score_combo_Raise (combo : list Leg) (min_prob : Q) (e : exn) :
  score_combo combo min_prob = Raise e -> combo = [] /\ e = ZeroDivisionError.
Proof.
  intros H. destruct combo as [|l ls].
  - split; [reflexivity|]. vm_compute in H. congruence.
  - rewrite score_combo_total in H by discriminate. discriminate.
Qed.

Lemma slice_to_In {A : Type} (n : Z) (l : list A) (x : A) : In x (slice_to n l) -> In x l.
Proof.
  unfold slice_to. intros H.
  destruct (0 <=? n)%Z;
    match type of H with In _ (firstn ?m _) => rewrite <- (firstn_skipn m l) end;
    apply in_or_app; left; exact H.
Qed.

Lemma slice_to_length {A : Type} (n : Z) (l : list A) :
  (0 <= n)%Z -> (length (slice_to n l) <= Z.to_nat n)%nat.
Proof.
  intros H. unfold slice_to. destruct (0 <=? n)%Z eqn:E; [|apply Z.leb_gt in E; lia].
  rewrite length_firstn. lia.
Qed.

Lemma filter_none {A : Type} (f : A -> bool) (l : list A) :
  (forall x, In x l -> f x = false) -> List.filter f l = [].
Proof.
  induction l as [|x l IH]; intros H; simpl; [reflexivity|].
  rewrite (H x (or_introl eq_refl)). apply IH. intros y Hy. apply H. right. exact Hy.
Qed.

Lemma filter_shorter {A : Type} (f : A -> bool) (l : list A) :
  (length (List.filter f l) <= length l)%nat.
Proof.
  induction l as [|x l IH]; simpl; [lia|]. destruct (f x); simpl; lia.
Qed.

Section PassContents.
Variable as_completed : list (result (option Parlay)) -> list (result (option Parlay)).
Variable props : list Leg.
Variable min_prob : Q.
Variable top_n : Z.
Hypothesis completes : forall fs, Permutation fs (as_completed fs).

(** Each parlay of a pass is a scored valid combination of that size. *)
Lemma size_pass_In (k : Z) (ps : list Parlay) (p : Parlay) :
  size_pass as_completed props min_prob k = Ok ps -> In p ps ->
  (0 <= k)%Z
  /\ exists combo,
       sublist combo props /\ length combo = Z.to_nat k
       /\ is_valid_combo combo = true
       /\ score_combo combo min_prob = Ok (Some p).
Proof.
  unfold size_pass. intros H Hp.
  destruct (k <? 0)%Z eqn:E; [discriminate|]. apply Z.ltb_ge in E.
  split; [exact E|].
  match type of H with context [gather ?fs] => destruct (gather fs) as [raw|e] eqn:G end;
    [|discriminate].
  simpl in H. injection H as <-. apply sort_desc_In in Hp.
  pose proof (gather_In _ raw G p Hp) as Hin.
  apply (Permutation_in _ (Permutation_sym (completes _))) in Hin.
  apply in_map_iff in Hin as (combo & Hscore & Hc).
  apply filter_In in Hc as [Hc Hv].
  exists combo. repeat split; try assumption.
  - apply combinations_sublist with (Z.to_nat k). exact Hc.
  - apply combinations_length with props. exact Hc.
Qed.

Lemma escalate_In (ks : list Z) : forall best visited best' visited',
  escalate as_completed props min_prob top_n ks best visited = Ok (best', visited') ->
  forall p, In p best' ->
    In p best
    \/ exists k ps, In k ks /\ size_pass as_completed props min_prob k = Ok ps /\ In p ps.
Proof.
  induction ks as [|k ks IH]; intros best visited best' visited' H p Hp; simpl in H.
  - injection H as <- <-. left. exact Hp.
  - destruct (size_pass as_completed props min_prob k) as [ps|e] eqn:Hps; [|discriminate].
    simpl in H.
    assert (Hslice : In p (best ++ slice_to top_n ps) ->
                     In p best \/ exists k0 ps0, In k0 (k :: ks)
                       /\ size_pass as_completed props min_prob k0 = Ok ps0 /\ In p ps0).
    { intros Hin. apply in_app_or in Hin as [Hin|Hin]; [left; exact Hin|].
      right. exists k, ps. split; [left; reflexivity|]. split; [exact Hps|].
      apply slice_to_In with top_n. exact Hin. }
    destruct (stop_rule min_prob ps).
    + injection H as <- <-. apply Hslice. exact Hp.
    + destruct (IH _ _ _ _ H p Hp) as [Hin | (k0 & ps0 & Hk0 & Hps0 & Hin)].
      * apply Hslice. exact Hin.
      * right. exists k0, ps0. split; [right; exact Hk0|]. split; assumption.
Qed.

(** What a run adds: parlays of the visited sizes, at most [top_n] of each. *)
Lemma escalate_per_size (ks : list Z) : forall best visited best' visited',
  (0 <= top_n)%Z -> List.NoDup ks ->
  escalate as_completed props min_prob top_n ks best visited = Ok (best', visited') ->
  exists added,
    best' = best ++ added
    /\ (forall p, In p added -> In (Z.of_nat (num_legs p)) ks)
    /\ (forall j : nat,
          (length (List.filter (fun p => Nat.eqb (num_legs p) j) added) <= Z.to_nat top_n)%nat).
Proof.
  induction ks as [|k ks IH]; intros best visited best' visited' Hn Hnd H; simpl in H.
  - injection H as <- <-. exists []. rewrite app_nil_r. repeat split.
    + intros p [].
    + intros j. simpl. lia.
  - destruct (size_pass as_completed props min_prob k) as [ps|e] eqn:Hps; [|discriminate].
    simpl in H.
    assert (Hsize : forall p, In p (slice_to top_n ps) -> Z.of_nat (num_legs p) = k).
    { intros p Hp. apply slice_to_In in Hp.
      destruct (size_pass_In k ps p Hps Hp) as (Hk & combo & _ & Hlen & _ & Hscore).
      apply score_combo_Some in Hscore as (_ & -> & _). simpl. lia. }
    assert (Hlen : forall j : nat,
               (length (List.filter (fun p => Nat.eqb (num_legs p) j) (slice_to top_n ps))
                <= Z.to_nat top_n)%nat).
    { intros j. eapply Nat.le_trans; [apply filter_shorter | apply slice_to_length; exact Hn]. }
    inversion Hnd as [|? ? Hfresh Hnd']; subst.
    destruct (stop_rule min_prob ps).
    + injection H as <- <-. exists (slice_to top_n ps). repeat split.
      * intros p Hp. left. symmetry. apply Hsize. exact Hp.
      * exact Hlen.
    + destruct (IH _ _ _ _ Hn Hnd' H) as (added & -> & Hin & Hcount).
      exists (slice_to top_n ps ++ added). rewrite <- app_assoc. repeat split.
      * intros p Hp. apply in_app_or in Hp as [Hp|Hp].
        -- left. symmetry. apply Hsize. exact Hp.
        -- right. apply Hin. exact Hp.
      * intros j. rewrite List.filter_app, length_app.
        destruct (Z.eq_dec (Z.of_nat j) k) as [Hj|Hj].
        -- rewrite (filter_none _ added).
           ++ simpl. specialize (Hlen j). lia.
           ++ intros p Hp. apply Nat.eqb_neq. intros Heq.
              apply Hfresh. rewrite <- Hj, <- Heq. apply Hin. exact Hp.
        -- rewrite (filter_none _ (slice_to top_n ps)).
           ++ simpl. apply Hcount.
           ++ intros p Hp. apply Nat.eqb_neq. intros Heq.
              apply Hj. rewrite <- Heq. apply Hsize. exact Hp.
Qed.
End PassContents.

Lemma py_range_NoDup (a b : Z) : List.NoDup (py_range a b).
Proof.
  remember (Z.to_nat (b - a)) as n eqn:Hn. revert a Hn.
  induction n as [|n IH]; intros a Hn.
  - rewrite py_range_nil by lia. constructor.
  - rewrite py_range_cons by lia. constructor.
    + intros H. apply py_range_In in H. lia.
    + apply IH. lia.
Qed.

Lemma escalate_raises (as_completed : list (result (option Parlay)) -> list (result (option Parlay)))
    (props : list Leg) (min_prob : Q) (top_n : Z) (k : Z) (ks : list Z)
    (best : list Parlay) (visited : list Z) (e : exn) :
  size_pass as_completed props min_prob k = Raise e ->
  escalate as_completed props min_prob top_n (k :: ks) best visited = Raise e.
Proof. intros H. simpl. rewrite H. reflexivity. Qed.

Lemma size_pass_zero (as_completed : list (result (option Parlay)) -> list (result (option Parlay)))
    (props : list Leg) (min_prob : Q) :
  (forall fs, Permutation fs (as_completed fs)) ->
  size_pass as_completed props min_prob 0 = Raise ZeroDivisionError.
Proof.
  intros Hperm. unfold size_pass. simpl Z.ltb. cbv iota.
  change (Z.to_nat 0) with O. rewrite combinations_zero.
  change (map (fun combo => score_combo combo min_prob) (List.filter is_valid_combo [[]]))
    with [@Raise (option Parlay) ZeroDivisionError].
  pose proof (Permutation_length_1_inv (Hperm [Raise ZeroDivisionError])) as E.
  rewrite E. reflexivity.
Qed.

(** X8. When and how the exhaustive engine raises: with an empty range of
    sizes it returns the empty list; with a negative [min_legs] it raises
    [ValueError] (from [itertools.combinations]); with [min_legs = 0] it
    raises [ZeroDivisionError] (the empty combination is scored); with
    [min_legs >= 1] it returns. *)
Theorem generate_parlays_errors
    (as_completed : list (result (option Parlay)) -> list (result (option Parlay)))
    (df : DataFrame) (min_legs max_legs : Z) (min_prob : Q) (top_n : Z) :
  (forall fs, Permutation fs (as_completed fs)) ->
  ((max_legs < min_legs)%Z ->
     generate_parlays as_completed df min_legs max_legs min_prob top_n = Ok [])
  /\ ((min_legs <= max_legs)%Z -> (min_legs < 0)%Z ->
     generate_parlays as_completed df min_legs max_legs min_prob top_n = Raise ValueError)
  /\ ((min_legs <= max_legs)%Z -> min_legs = 0%Z ->
     generate_parlays as_completed df min_legs max_legs min_prob top_n
     = Raise ZeroDivisionError)
  /\ ((1 <= min_legs)%Z ->
     exists best,
       generate_parlays as_completed df min_legs max_legs min_prob top_n = Ok best).
Proof.
  intros Hperm. unfold generate_parlays, generate_trace. repeat split.
  - intros H. rewrite py_range_nil by lia. reflexivity.
  - intros Hle Hneg. rewrite py_range_cons by lia.
    rewrite (escalate_raises _ _ _ _ _ _ _ _ ValueError); [reflexivity|].
    unfold size_pass. destruct (min_legs <? 0)%Z eqn:E; [reflexivity|].
    apply Z.ltb_ge in E. lia.
  - intros Hle ->. rewrite py_range_cons by lia.
    rewrite (escalate_raises _ _ _ _ _ _ _ _ ZeroDivisionError); [reflexivity|].
    apply size_pass_zero. exact Hperm.
  - intros Hmin.
    destruct (escalate_take_until as_completed (to_dict_records df) min_prob top_n
                (py_range min_legs (max_legs + 1)) [] []) as [best Hrun].
    + intros k Hk. apply py_range_In in Hk.
      destruct (size_pass_ok as_completed (to_dict_records df) min_prob k Hperm) as [raw Hraw];
        [lia|].
      eexists. exact Hraw.
    + exists best. rewrite Hrun. reflexivity.
Qed.

Lemma generate_parlays_errors_witness :
  generate_parlays in_submission_order esc_pool 0 3 0.05 10 = Raise ZeroDivisionError
  /\ generate_parlays in_submission_order esc_pool (-1) 3 0.05 10 = Raise ValueError.
Proof.
  assert (Hperm : forall fs, Permutation fs (in_submission_order fs))
    by (intros fs; reflexivity).
  split.
  - destruct (generate_parlays_errors in_submission_order esc_pool 0 3 0.05 10 Hperm)
      as (_ & _ & H & _).
    apply H; [lia | reflexivity].
  - destruct (generate_parlays_errors in_submission_order esc_pool (-1) 3 0.05 10 Hperm)
      as (_ & H & _).
    apply H; lia.
Defined.

(** X9. With [min_legs >= 1] the engine returns, and every parlay it returns
    is made of legs taken from the pool in pool order, accepted by the
    standard validator, between [min_legs] and [max_legs] many; its
    probability is the product of the legs' implied probabilities and is at
    least [min_prob], its average edge their mean edge and its payout the
    product of their decimal odds. *)
Theorem generate_parlays_output
    (as_completed : list (result (option Parlay)) -> list (result (option Parlay)))
    (df : DataFrame) (min_legs max_legs : Z) (min_prob : Q) (top_n : Z) :
  (forall fs, Permutation fs (as_completed fs)) ->
  (1 <= min_legs)%Z ->
  exists best,
    generate_parlays as_completed df min_legs max_legs min_prob top_n = Ok best
    /\ forall p, In p best ->
         exists combo : list Leg,
           sublist combo (to_dict_records df)
           /\ is_valid_combo combo = true
           /\ legs p = map Dict combo
           /\ num_legs p = length combo
           /\ (min_legs <= Z.of_nat (length combo) <= max_legs)%Z
           /\ probability p = prob_product combo
           /\ min_prob <= probability p
           /\ avg_edge p = edge_mean combo
           /\ payout p = payout_product combo.
Proof.
  intros Hperm Hmin. unfold generate_parlays, generate_trace.
  destruct (escalate_take_until as_completed (to_dict_records df) min_prob top_n
              (py_range min_legs (max_legs + 1)) [] []) as [best Hrun].
  { intros k Hk. apply py_range_In in Hk.
    destruct (size_pass_ok as_completed (to_dict_records df) min_prob k Hperm) as [raw Hraw];
      [lia|].
    eexists. exact Hraw. }
  exists best. rewrite Hrun. split; [reflexivity|].
  intros p Hp.
  destruct (escalate_In as_completed (to_dict_records df) min_prob top_n _ _ _ _ _ Hrun p Hp)
    as [[] | (k & ps & Hk & Hps & Hin)].
  apply py_range_In in Hk.
  destruct (size_pass_In as_completed (to_dict_records df) min_prob Hperm k ps p Hps Hin)
    as (_ & combo & Hsub & Hlen & Hvalid & Hscore).
  apply score_combo_Some in Hscore as (_ & -> & Hfloor).
  exists combo. simpl. repeat split; try assumption; lia.
Qed.

Lemma generate_parlays_output_witness :
  exists best, generate_parlays in_submission_order esc_pool 2 3 0.05 10 = Ok best.
Proof.
  destruct (generate_parlays_output in_submission_order esc_pool 2 3 0.05 10)
    as (best & Hrun & _).
  - intros fs. reflexivity.
  - lia.
  - exists best. exact Hrun.
Defined.

(** X10. For a non-negative [top_n] the engine returns at most [top_n]
    parlays of each number of legs. *)
Theorem generate_parlays_top_n_per_size
    (as_completed : list (result (option Parlay)) -> list (result (option Parlay)))
    (df : DataFrame) (min_legs max_legs : Z) (min_prob : Q) (top_n : Z)
    (best : list Parlay) (j : nat) :
  (forall fs, Permutation fs (as_completed fs)) ->
  (0 <= top_n)%Z ->
  generate_parlays as_completed df min_legs max_legs min_prob top_n = Ok best ->
  (length (List.filter (fun p => Nat.eqb (num_legs p) j) best) <= Z.to_nat top_n)%nat.
Proof.
  intros Hperm Hn. unfold generate_parlays, generate_trace.
  destruct (escalate _ _ _ _ _ _ _) as [[best' visited]|e] eqn:Hrun; [|discriminate].
  simpl. intros [= <-].
  destruct (escalate_per_size as_completed (to_dict_records df) min_prob top_n Hperm
              _ _ _ _ _ Hn (py_range_NoDup _ _) Hrun) as (added & -> & _ & Hcount).
  simpl. apply Hcount.
Qed.

Lemma generate_parlays_top_n_per_size_witness :
  exists best,
    generate_parlays in_submission_order esc_pool 2 3 0.05 2 = Ok best
    /\ (length (List.filter (fun p => Nat.eqb (num_legs p) 2) best) <= 2)%nat.
Proof.
  eexists. split; [vm_compute; reflexivity|].
  apply (generate_parlays_top_n_per_size in_submission_order esc_pool 2 3 0.05 2).
  - intros fs. reflexivity.
  - lia.
  - vm_compute. reflexivity.
Defined.

(** ** Exhaustive search engine: completion order *)

Lemma gather_Permutation (fs fs' : list (result (option Parlay))) :
  Permutation fs fs' ->
  forall ps, gather fs = Ok ps -> exists ps', gather fs' = Ok ps' /\ Permutation ps ps'.
Proof.
  induction 1 as [|r fs fs' Hperm IH|r1 r2 fs|fs1 fs2 fs3 H12 IH12 H23 IH23]; intros ps H.
  - exists ps. split; [exact H | reflexivity].
  - simpl in H |- *. destruct r as [o|e]; [|discriminate]. simpl in H |- *.
    destruct (gather fs) as [ps0|e]; [|discriminate]. simpl in H. injection H as <-.
    destruct (IH ps0 eq_refl) as (ps0' & -> & Hp). simpl.
    eexists. split; [reflexivity|]. destruct o; [constructor|]; exact Hp.
  - simpl in H |- *. destruct r1 as [o1|e]; destruct r2 as [o2|e']; try discriminate.
    simpl in H |- *. destruct (gather fs) as [ps0|e]; [|discriminate].
    simpl in H |- *. injection H as <-.
    eexists. split; [reflexivity|].
    destruct o1, o2; try reflexivity. apply perm_swap.
  - destruct (IH12 ps H) as (ps2 & H2 & Hp2).
    destruct (IH23 ps2 H2) as (ps3 & H3 & Hp3).
    exists ps3. split; [exact H3|]. apply Permutation_trans with ps2; assumption.
Qed.

Lemma gather_Raise_In (fs : list (result (option Parlay))) (e : exn) :
  gather fs = Raise e -> In (Raise e) fs.
Proof.
  induction fs as [|r fs IH]; simpl; [discriminate|].
  destruct r as [o|e0]; simpl.
  - destruct (gather fs) as [ps|e1]; simpl; [discriminate|].
    intros [= <-]. right. apply IH. reflexivity.
  - intros [= <-]. left. reflexivity.
Qed.

Lemma gather_In_Raise (fs : list (result (option Parlay))) (e : exn) :
  In (Raise e) fs -> exists e', gather fs = Raise e'.
Proof.
  induction fs as [|r fs IH]; intros H; [destruct H|].
  simpl. destruct r as [o|e0]; simpl; [|eexists; reflexivity].
  destruct H as [H|H]; [discriminate|].
  destruct (IH H) as [e' ->]. simpl. eexists. reflexivity.
Qed.

Section SortedUnique.
Context {A : Type} (key : A -> Q).

Lemma insert_desc_Permutation (x : A) (l : list A) :
  Permutation (x :: l) (insert_desc key x l).
Proof.
  induction l as [|y rest IH]; simpl; [reflexivity|].
  destruct (Qle_bool (key y) (key x)); [reflexivity|].
  apply Permutation_trans with (y :: x :: rest); [apply perm_swap|].
  apply perm_skip. exact IH.
Qed.

Lemma sort_desc_Permutation (l : list A) : Permutation l (sort_desc key l).
Proof.
  induction l as [|x rest IH]; simpl; [reflexivity|].
  apply Permutation_trans with (x :: sort_desc key rest);
    [apply perm_skip; exact IH | apply insert_desc_Permutation].
Qed.

(** Two descending arrangements of the same elements coincide when equal
    keys force equal elements. *)
Lemma sorted_perm_unique (l1 : list A) : forall l2,
  StronglySorted (above key) l1 -> StronglySorted (above key) l2 ->
  Permutation l1 l2 ->
  (forall a b, In a l1 -> In b l1 -> key a == key b -> a = b) ->
  l1 = l2.
Proof.
  induction l1 as [|a t1 IH]; intros l2 Hs1 Hs2 Hp Hinj.
  - apply Permutation_nil in Hp. symmetry. exact Hp.
  - destruct l2 as [|b t2]; [apply Permutation_sym, Permutation_nil in Hp; discriminate|].
    apply StronglySorted_inv in Hs1 as [Hs1 Ha].
    apply StronglySorted_inv in Hs2 as [Hs2 Hb].
    rewrite List.Forall_forall in Ha, Hb.
    assert (Hab : a = b).
    { assert (Hb1 : In b (a :: t1)).
      { apply (Permutation_in _ (Permutation_sym Hp)). left. reflexivity. }
      assert (Ha2 : In a (b :: t2)).
      { apply (Permutation_in _ Hp). left. reflexivity. }
      apply Hinj; [left; reflexivity | exact Hb1 |].
      apply Qle_antisym.
      - destruct Ha2 as [->|Ha2]; [apply Qle_refl | apply (Hb a Ha2)].
      - destruct Hb1 as [->|Hb1]; [apply Qle_refl | apply (Ha b Hb1)]. }
    subst b. f_equal. apply IH; try assumption.
    + apply Permutation_cons_inv with a. exact Hp.
    + intros x y Hx Hy. apply Hinj; right; assumption.
Qed.
End SortedUnique.

Lemma size_pass_order_independent
    (as_completed : list (result (option Parlay)) -> list (result (option Parlay)))
    (props : list Leg) (min_prob : Q) (k : Z) :
  (forall fs, Permutation fs (as_completed fs)) ->
  no_ties props min_prob k ->
  size_pass as_completed props min_prob k = size_pass in_submission_order props min_prob k.
Proof.
  intros Hperm Hties. unfold no_ties in Hties. unfold size_pass in *.
  destruct (k <? 0)%Z; [reflexivity|].
  set (fs := map (fun combo => score_combo combo min_prob)
                 (List.filter is_valid_combo (combinations props (Z.to_nat k)))) in *.
  unfold in_submission_order in *.
  destruct (gather fs) as [ps|e] eqn:G.
  - destruct (gather_Permutation fs (as_completed fs) (Hperm fs) ps G) as (ps' & -> & Hp).
    simpl in *. f_equal.
    apply (sorted_perm_unique balance_key).
    + apply sort_desc_sorted.
    + apply sort_desc_sorted.
    + apply Permutation_trans with ps'; [apply Permutation_sym, sort_desc_Permutation|].
      apply Permutation_trans with ps; [apply Permutation_sym; exact Hp|].
      apply sort_desc_Permutation.
    + intros a b Ha Hb. apply sort_desc_In in Ha, Hb.
      apply (Permutation_in _ (Permutation_sym Hp)) in Ha, Hb.
      apply (Hties (sort_desc balance_key ps)); [reflexivity | | ];
        apply sort_desc_In; assumption.
  - simpl.
    assert (Hall : forall e0, In (Raise e0) fs -> e0 = ZeroDivisionError).
    { intros e0 H0. unfold fs in H0. apply in_map_iff in H0 as (combo & Hc & _).
      apply score_combo_Raise in Hc. tauto. }
    pose proof (gather_Raise_In fs e G) as Hin.
    rewrite (Hall e Hin).
    apply (Permutation_in _ (Hperm fs)) in Hin.
    destruct (gather_In_Raise _ _ Hin) as [e' He']. rewrite He'. simpl. f_equal.
    apply Hall. apply (Permutation_in _ (Permutation_sym (Hperm fs))).
    apply gather_Raise_In. exact He'.
Qed.

Lemma escalate_ext
    (ac ac' : list (result (option Parlay)) -> list (result (option Parlay)))
    (props : list Leg) (min_prob : Q) (top_n : Z) (ks : list Z) :
  (forall k, In k ks -> size_pass ac props min_prob k = size_pass ac' props min_prob k) ->
  forall best visited,
    escalate ac props min_prob top_n ks best visited
    = escalate ac' props min_prob top_n ks best visited.
Proof.
  induction ks as [|k ks IH]; intros Hext best visited; [reflexivity|].
  simpl. rewrite (Hext k (or_introl eq_refl)).
  destruct (size_pass ac' props min_prob k) as [ps|e]; [|reflexivity].
  simpl. destruct (stop_rule min_prob ps); [reflexivity|].
  apply IH. intros k' Hk'. apply Hext. right. exact Hk'.
Qed.

(** X11. The order in which the workers complete does not change the result
    of the exhaustive engine, provided no two different surviving parlays of
    one size have the same balance score. *)
Theorem generate_parlays_order_independent
    (ac ac' : list (result (option Parlay)) -> list (result (option Parlay)))
    (df : DataFrame) (min_legs max_legs : Z) (min_prob : Q) (top_n : Z) :
  (forall fs, Permutation fs (ac fs)) ->
  (forall fs, Permutation fs (ac' fs)) ->
  (forall k, (min_legs <= k <= max_legs)%Z -> no_ties (to_dict_records df) min_prob k) ->
  generate_parlays ac df min_legs max_legs min_prob top_n
  = generate_parlays ac' df min_legs max_legs min_prob top_n.
Proof.
  intros Hperm Hperm' Hties. unfold generate_parlays, generate_trace.
  rewrite (escalate_ext ac ac'); [reflexivity|].
  intros k Hk. apply py_range_In in Hk.
  rewrite (size_pass_order_independent ac), (size_pass_order_independent ac');
    try assumption; try reflexivity; apply Hties; lia.
Qed.

Lemma generate_parlays_order_independent_witness :
  generate_parlays in_submission_order esc_pool 2 3 0.05 10
  = generate_parlays in_reverse_order esc_pool 2 3 0.05 10.
Proof.
  apply generate_parlays_order_independent.
  - intros fs. reflexivity.
  - intros fs. apply Permutation_rev.
  - intros k Hk ps p q Hps Hp Hq Hkey.
    assert (Hcases : k = 2%Z \/ k = 3%Z) by lia.
    destruct Hcases as [-> | ->]; vm_compute in Hps; injection Hps as <-;
      repeat (destruct Hp as [<-|Hp]; [|]); try (destruct Hp);
      repeat (destruct Hq as [<-|Hq]; [|]); try (destruct Hq);
      try reflexivity; vm_compute in Hkey; discriminate Hkey.
Defined.

(** ** Greedy builder: what an assembled parlay is *)

Lemma drop_conflicts_fold (parlay : list Row) : forall (available : DataFrame) (r : Row),
  In r (fold_left drop_conflicts parlay available) ->
  forall leg, In leg parlay -> player_market (snd r) <> player_market (snd leg).
Proof.
  induction parlay as [|l parlay IH]; intros available r H leg Hleg; [destruct Hleg|].
  simpl in H. destruct Hleg as [<-|Hleg].
  - apply drop_conflicts_subset in H. unfold drop_conflicts in H.
    apply filter_In in H as [_ H]. apply negb_true_iff in H.
    intros [= Hp Hm]. rewrite Hp, Hm, !String.eqb_refl in H. discriminate.
  - exact (IH _ r H leg Hleg).
Qed.

Lemma candidates_no_conflict (df : DataFrame) (used : gset Z) (parlay : list Row) (r : Row) :
  In r (candidates df used parlay) ->
  forall leg, In leg parlay -> player_market (snd r) <> player_market (snd leg).
Proof.
  unfold candidates. intros H.
  apply filter_In in H as [H _]. apply filter_In in H as [H _].
  exact (drop_conflicts_fold parlay _ r H).
Qed.

(** The inner loop keeps the (player, market) pairs of the parlay distinct. *)
Lemma extend_keeps_distinct (df : DataFrame) (n : nat) : forall used parlay used' parlay',
  extend df n used parlay = (used', parlay') ->
  List.NoDup (map (fun r => player_market (snd r)) parlay) ->
  List.NoDup (map (fun r => player_market (snd r)) parlay').
Proof.
  induction n as [|n IH]; intros used parlay used' parlay' H Hnd; simpl in H.
  - injection H as <- <-. exact Hnd.
  - destruct (candidates df used parlay) as [|next rest] eqn:Hc.
    + injection H as <- <-. exact Hnd.
    + apply IH in H; [exact H|].
      rewrite map_app. simpl. apply List.NoDup_app.
      * exact Hnd.
      * constructor; [intros [] | constructor].
      * intros key Hkey [<-|[]].
        apply in_map_iff in Hkey as (leg & Heq & Hleg).
        assert (Hn : In next (candidates df used parlay)) by (rewrite Hc; left; reflexivity).
        exact (candidates_no_conflict df used parlay next Hn leg Hleg (eq_sym Heq)).
Qed.

Lemma score_rows_fold (parlay : list Row) : forall p e o : Q,
  fold_left
    (fun (acc : Q * Q * Q) (leg : Row) =>
       let '(p, e, o) := acc in
       (p * implied_prob (snd leg), e + edge (snd leg), o * odds_decimal (snd leg)))
    parlay (p, e, o)
  = (fold_left (fun acc l => acc * implied_prob l) (map snd parlay) p,
     fold_left (fun acc l => acc + edge l) (map snd parlay) e,
     fold_left (fun acc l => acc * odds_decimal l) (map snd parlay) o).
Proof.
  induction parlay as [|r parlay IH]; intros p e o; simpl; [reflexivity|]. apply IH.
Qed.

Lemma score_rows_fields (parlay : list Row) :
  score_rows parlay
  = {| legs := map series_of parlay;
       num_legs := length parlay;
       probability := prob_product (map snd parlay);
       avg_edge := edge_mean (map snd parlay);
       payout := payout_product (map snd parlay) |}.
Proof.
  unfold score_rows. rewrite score_rows_fold.
  unfold prob_product, edge_mean, edge_sum, payout_product. rewrite length_map. reflexivity.
Qed.

Lemma cols_of_series (parlay : list Row) : map cols_of (map series_of parlay) = map snd parlay.
Proof. rewrite map_map. apply map_ext. intros [z c]. reflexivity. Qed.

Lemma product_at_least_one (ls : list Leg) : forall acc : Q,
  1 <= acc -> (forall l, In l ls -> 1 <= odds_decimal l) ->
  1 <= fold_left (fun a l => a * odds_decimal l) ls acc.
Proof.
  induction ls as [|l ls IH]; intros acc Hacc Hall; simpl; [exact Hacc|].
  apply IH.
  - assert (H1 : 1 <= odds_decimal l) by (apply Hall; left; reflexivity). nra.
  - intros l' Hl'. apply Hall. right. exact Hl'.
Qed.

Lemma assemble_well (df : DataFrame) (min_legs max_legs : Z) (n : nat) :
  forall used parlays,
    (forall p, In p parlays -> well_assembled df min_legs p) ->
    forall p, In p (assemble df min_legs max_legs n used parlays) ->
      well_assembled df min_legs p.
Proof.
  induction n as [|n IH]; intros used parlays Hall; simpl; [exact Hall|].
  destruct (unused used df) as [|first rest] eqn:Hu; [exact Hall|].
  assert (Hfirst : In first df).
  { apply (unused_In used df first). rewrite Hu. left. reflexivity. }
  destruct (extend df _ _ _) as [used' parlay] eqn:He.
  pose proof (extend_keeps_distinct _ _ _ _ _ _ He) as Hkeys.
  apply extend_spec in He as (added & -> & _ & Hin & _ & _).
  destruct (min_legs <=? Z.of_nat (length ([first] ++ added)))%Z eqn:Hlen.
  - apply IH. intros p Hp. apply in_app_iff in Hp as [Hp|[<-|[]]]; [apply Hall; exact Hp|].
    exists ([first] ++ added). split; [reflexivity|]. split; [discriminate|].
    split; [apply Z.leb_le; exact Hlen|]. split.
    + intros r [<-|Hr]; [exact Hfirst | apply Hin; exact Hr].
    + apply Hkeys. simpl. constructor; [intros [] | constructor].
  - apply IH. exact Hall.
Qed.

Lemma no_shared_ListNoDup {A : Type} (f : Leg -> A) (ls : list Leg) :
  List.NoDup (map f ls) -> no_shared f ls.
Proof. intros H. apply no_shared_NoDup, NoDup_ListNoDup. exact H. Qed.

(** X12. Every sequentially assembled parlay has at least one and at least
    [min_legs] legs, no two of them on the same player and market, each with
    decimal odds of at least 1.2; its probability, average edge and payout
    are the product, mean and product over its legs, and its payout is at
    least 1.  Such a parlay need not pass the standard validator. *)
Theorem assembled_parlay_shape :
  (forall (df : DataFrame) (min_legs max_legs top_n : Z) (p : Parlay),
      In p (sequential df min_legs max_legs top_n) ->
      let ls := map cols_of (legs p) in
      num_legs p = length ls
      /\ (1 <= length ls)%nat
      /\ (min_legs <= Z.of_nat (length ls))%Z
      /\ no_shared player_market ls
      /\ (forall l, In l ls -> 1.2 <= odds_decimal l)
      /\ probability p = prob_product ls
      /\ avg_edge p = edge_mean ls
      /\ payout p = payout_product ls
      /\ 1 <= payout p)
  /\ (exists (df : DataFrame) (p : Parlay),
        In p (sequential df 2 5 30) /\ is_valid_combo (map cols_of (legs p)) = false).
Proof.
  split.
  - intros df min_legs max_legs top_n p Hp ls.
    assert (Hw : well_assembled (odds_filter df) min_legs p).
    { apply (assemble_well (odds_filter df) min_legs max_legs (Z.to_nat top_n) ∅ []);
        [intros q [] | exact Hp]. }
    destruct Hw as (rows & -> & Hne & Hmin & Hin & Hkeys).
    unfold ls. rewrite score_rows_fields. simpl. rewrite cols_of_series.
    assert (Hodds : forall l, In l (map snd rows) -> 1.2 <= odds_decimal l).
    { intros l Hl. apply in_map_iff in Hl as (r & <- & Hr).
      specialize (Hin r Hr). unfold odds_filter in Hin.
      apply filter_In in Hin as [Hin Hcap]. apply filter_In in Hin as [_ Hvalid].
      apply Qlt_le_weak, passes_odds_filters_above. rewrite Hvalid, Hcap. reflexivity. }
    rewrite length_map. repeat split; try assumption.
    + destruct rows; [congruence | simpl; lia].
    + apply no_shared_ListNoDup. rewrite map_map. exact Hkeys.
    + unfold payout_product. apply product_at_least_one; [apply Qle_refl|].
      intros l Hl. specialize (Hodds l Hl). lra.
  - exists wide_pool. eexists. split; [vm_compute; left; reflexivity|]. vm_compute. reflexivity.
Qed.

Lemma assembled_parlay_shape_witness :
  exists p : Parlay, In p (sequential wide_pool 2 5 30) /\ 1 <= payout p.
Proof.
  destruct assembled_parlay_shape as [H _].
  eexists. split; [vm_compute; left; reflexivity|].
  apply (H wide_pool 2%Z 5%Z 30%Z). vm_compute. left. reflexivity.
Defined.

Lemma assemble_length (df : DataFrame) (min_legs max_legs : Z) (n : nat) :
  forall used parlays,
    (length (assemble df min_legs max_legs n used parlays) <= length parlays + n)%nat.
Proof.
  induction n as [|n IH]; intros used parlays; simpl; [lia|].
  destruct (unused used df) as [|first rest]; [lia|].
  destruct (extend df _ _ _) as [used' parlay].
  destruct (min_legs <=? Z.of_nat (length parlay))%Z.
  - eapply Nat.le_trans; [apply IH|]. rewrite length_app. simpl. lia.
  - eapply Nat.le_trans; [apply IH|]. lia.
Qed.

(** X13. The builder returns at most [top_n] sequentially assembled parlays
    and, with the guaranteed pair, at most [top_n + 1] parlays (at most one
    for a non-positive [top_n]). *)
Theorem greedy_output_count (df : DataFrame) (min_legs max_legs top_n : Z) :
  (length (sequential df min_legs max_legs top_n) <= Z.to_nat top_n)%nat
  /\ (length (greedy_parlay_builder df min_legs max_legs top_n) <= S (Z.to_nat top_n))%nat.
Proof.
  assert (H : (length (sequential df min_legs max_legs top_n) <= Z.to_nat top_n)%nat).
  { unfold sequential. eapply Nat.le_trans; [apply assemble_length|]. simpl. lia. }
  split; [exact H|].
  rewrite greedy_parlay_builder_split, length_app.
  unfold guaranteed_pair. destruct (best_2leg (odds_filter df)); simpl; lia.
Qed.

(** X14. A sequentially assembled parlay has at most
    [max_legs - min_legs + 2] legs (one when that is less); hence when
    [min_legs > 1] and [2 * min_legs > max_legs + 2] no parlay is assembled
    at all and the builder returns the guaranteed pair alone. *)
Theorem assembly_size_window (df : DataFrame) (min_legs max_legs top_n : Z) :
  (forall p, In p (sequential df min_legs max_legs top_n) ->
     (Z.max 1 min_legs <= Z.of_nat (num_legs p) <= Z.max 1 (max_legs - min_legs + 2))%Z)
  /\ ((1 < min_legs)%Z -> (max_legs + 2 < 2 * min_legs)%Z ->
      sequential df min_legs max_legs top_n = []
      /\ greedy_parlay_builder df min_legs max_legs top_n = guaranteed_pair (odds_filter df)).
Proof.
  assert (Hwin : forall p, In p (sequential df min_legs max_legs top_n) ->
            (Z.max 1 min_legs <= Z.of_nat (num_legs p)
             <= Z.max 1 (max_legs - min_legs + 2))%Z).
  { intros p Hp. pose proof (sequential_sizes df min_legs max_legs top_n p Hp) as Hs.
    assert (Hw : well_assembled (odds_filter df) min_legs p).
    { apply (assemble_well (odds_filter df) min_legs max_legs (Z.to_nat top_n) ∅ []);
        [intros q [] | exact Hp]. }
    destruct Hw as (rows & -> & _ & Hmin & _).
    rewrite num_legs_score_rows in *. unfold inner_rounds in Hs. lia. }
  split; [exact Hwin|].
  intros H1 H2.
  assert (Hnil : sequential df min_legs max_legs top_n = []).
  { destruct (sequential df min_legs max_legs top_n) as [|p rest] eqn:E; [reflexivity|].
    specialize (Hwin p (or_introl eq_refl)). lia. }
  split; [exact Hnil|].
  rewrite greedy_parlay_builder_split, Hnil, app_nil_r. reflexivity.
Qed.

Lemma assembly_size_window_witness :
  sequential wide_pool 5 6 30 = [].
Proof.
  destruct (assembly_size_window wide_pool 5 6 30) as [_ H].
  destruct H as [Hnil _]; [lia | lia | exact Hnil].
Defined.

(** ** Reporter selection *)

Lemma max_from_spec {A : Type} (key : A -> Q) (l : list A) : forall best : A,
  (max_from key best l = best \/ In (max_from key best l) l)
  /\ key best <= key (max_from key best l)
  /\ (forall x, In x l -> key x <= key (max_from key best l)).
Proof.
  induction l as [|x rest IH]; intros best; simpl.
  - split; [left; reflexivity|]. split; [apply Qle_refl | intros x []].
  - destruct (Qgt_b (key x) (key best)) eqn:E.
    + apply Qlt_b_true in E.
      destruct (IH x) as (Hin & Hge & Hall). split; [|split].
      * destruct Hin as [-> | Hin]; right; [left; reflexivity | right; exact Hin].
      * apply Qle_trans with (key x); [apply Qlt_le_weak; exact E | exact Hge].
      * intros y [<-|Hy]; [exact Hge | apply Hall; exact Hy].
    + apply Qlt_b_false in E.
      destruct (IH best) as (Hin & Hge & Hall). split; [|split].
      * destruct Hin as [-> | Hin]; [left; reflexivity | right; right; exact Hin].
      * exact Hge.
      * intros y [<-|Hy]; [apply Qle_trans with (key best); assumption | apply Hall; exact Hy].
Qed.

Lemma best_of_spec {A : Type} (key : A -> Q) (l : list A) :
  match best_of key l with
  | None => l = []
  | Some m => In m l /\ forall x, In x l -> key x <= key m
  end.
Proof.
  destruct l as [|first rest]; simpl; [reflexivity|].
  destruct (max_from_spec key rest first) as (Hin & Hge & Hall). split.
  - destruct Hin as [-> | Hin]; [left; reflexivity | right; exact Hin].
  - intros x [<-|Hx]; [exact Hge | apply Hall; exact Hx].
Qed.

(** The parlay of a section: of greatest payout among the qualifying
    parlays, absent exactly when none qualifies. *)
Lemma section_pick (f : Parlay -> bool) (parlays : list Parlay) :
  match best_of payout (List.filter f (by_probability parlays)) with
  | None => forall q, In q parlays -> f q = false
  | Some p =>
      In p parlays /\ f p = true
      /\ forall q, In q parlays -> f q = true -> payout q <= payout p
  end.
Proof.
  pose proof (best_of_spec payout (List.filter f (by_probability parlays))) as H.
  destruct (best_of payout _) as [p|].
  - destruct H as [Hin Hmax]. apply filter_In in Hin as [Hin Hf].
    apply sort_desc_In in Hin. repeat split; try assumption.
    intros q Hq Hfq. apply Hmax. apply filter_In. split; [|exact Hfq].
    apply sort_desc_In. exact Hq.
  - intros q Hq. destruct (f q) eqn:Hfq; [|reflexivity].
    assert (Hin : In q (List.filter f (by_probability parlays))).
    { apply filter_In. split; [apply sort_desc_In; exact Hq | exact Hfq]. }
    rewrite H in Hin. destruct Hin.
Qed.

Lemma qualifies_any (p : Parlay) : Nat.eqb (num_legs p) 2 = true <-> num_legs p = 2%nat.
Proof. apply Nat.eqb_eq. Qed.

Lemma qualifies_10 (p : Parlay) :
  Nat.eqb (num_legs p) 2 && Qgt_b (probability p) 0.10 = true
  <-> num_legs p = 2%nat /\ 0.10 < probability p.
Proof. unfold Qgt_b. rewrite andb_true_iff, Nat.eqb_eq, Qlt_b_true. reflexivity. Qed.

Lemma qualifies_20 (p : Parlay) :
  Nat.eqb (num_legs p) 2 && Qge_b (probability p) 0.20 = true
  <-> num_legs p = 2%nat /\ 0.20 <= probability p.
Proof. rewrite andb_true_iff, Nat.eqb_eq, Qge_b_true. reflexivity. Qed.

Lemma bool_false_iff (b : bool) (P : Prop) : (b = true <-> P) -> (b = false <-> ~ P).
Proof. intros H. destruct b; split; intros; try congruence; intuition congruence. Qed.

(** X15. Each of the three 2-leg sections of the report shows a 2-leg parlay
    of the list that meets the section's probability condition (none, above
    10%, at least 20%) and whose payout is greatest among the parlays
    meeting it; a section is empty exactly when no parlay meets it. *)
Theorem two_leg_sections (parlays : list Parlay) :
  match report_best_2leg parlays with
  | None => forall q, In q parlays -> num_legs q <> 2%nat
  | Some p =>
      In p parlays /\ num_legs p = 2%nat
      /\ forall q, In q parlays -> num_legs q = 2%nat -> payout q <= payout p
  end
  /\ match report_best_2leg_10 parlays with
     | None => forall q, In q parlays -> ~ (num_legs q = 2%nat /\ 0.10 < probability q)
     | Some p =>
         In p parlays /\ (num_legs p = 2%nat /\ 0.10 < probability p)
         /\ forall q, In q parlays -> num_legs q = 2%nat /\ 0.10 < probability q ->
              payout q <= payout p
     end
  /\ match report_best_2leg_20 parlays with
     | None => forall q, In q parlays -> ~ (num_legs q = 2%nat /\ 0.20 <= probability q)
     | Some p =>
         In p parlays /\ (num_legs p = 2%nat /\ 0.20 <= probability p)
         /\ forall q, In q parlays -> num_legs q = 2%nat /\ 0.20 <= probability q ->
              payout q <= payout p
     end.
Proof.
  unfold report_best_2leg, report_best_2leg_10, report_best_2leg_20,
    two_leg, two_leg_10, two_leg_20.
  split; [|split].
  - match goal with |- context [List.filter ?f _] => pose proof (section_pick f parlays) as H end.
    destruct (best_of payout _) as [p|].
    + destruct H as (Hin & Hf & Hmax). apply qualifies_any in Hf. repeat split; try assumption.
      intros q Hq Hq2. apply Hmax; [exact Hq | apply qualifies_any; exact Hq2].
    + intros q Hq. apply (bool_false_iff _ _ (qualifies_any q)). apply H. exact Hq.
  - match goal with |- context [List.filter ?f _] => pose proof (section_pick f parlays) as H end.
    destruct (best_of payout _) as [p|].
    + destruct H as (Hin & Hf & Hmax). apply qualifies_10 in Hf. repeat split; try tauto.
      intros q Hq Hq2. apply Hmax; [exact Hq | apply qualifies_10; exact Hq2].
    + intros q Hq. apply (bool_false_iff _ _ (qualifies_10 q)). apply H. exact Hq.
  - match goal with |- context [List.filter ?f _] => pose proof (section_pick f parlays) as H end.
    destruct (best_of payout _) as [p|].
    + destruct H as (Hin & Hf & Hmax). apply qualifies_20 in Hf. repeat split; try tauto.
      intros q Hq Hq2. apply Hmax; [exact Hq | apply qualifies_20; exact Hq2].
    + intros q Hq. apply (bool_false_iff _ _ (qualifies_20 q)). apply H. exact Hq.
Qed.

(** X16. When the "at least 20%" section has a parlay, so have the "above
    10%" section and the unconditional section, and their payouts do not
    decrease in that order. *)
Theorem two_leg_sections_nested (parlays : list Parlay) (p20 : Parlay) :
  report_best_2leg_20 parlays = Some p20 ->
  exists p10 p2 : Parlay,
    report_best_2leg_10 parlays = Some p10
    /\ report_best_2leg parlays = Some p2
    /\ payout p20 <= payout p10
    /\ payout p10 <= payout p2.
Proof.
  unfold report_best_2leg, report_best_2leg_10, report_best_2leg_20,
    two_leg, two_leg_10, two_leg_20.
  intros H20.
  pose proof (section_pick
                (fun p => Nat.eqb (num_legs p) 2 && Qge_b (probability p) 0.20) parlays) as S20.
  rewrite H20 in S20. destruct S20 as (Hin20 & Hf20 & _).
  apply qualifies_20 in Hf20 as [Hn20 Hp20].
  pose proof (section_pick
                (fun p => Nat.eqb (num_legs p) 2 && Qgt_b (probability p) 0.10) parlays) as S10.
  pose proof (section_pick (fun p => Nat.eqb (num_legs p) 2) parlays) as S2.
  destruct (best_of payout
              (List.filter (fun p => Nat.eqb (num_legs p) 2 && Qgt_b (probability p) 0.10)
                 (by_probability parlays))) as [p10|].
  2:{ exfalso. specialize (S10 p20 Hin20).
      apply (bool_false_iff _ _ (qualifies_10 p20)) in S10. apply S10.
      split; [exact Hn20 | lra]. }
  destruct S10 as (Hin10 & Hf10 & Hmax10). apply qualifies_10 in Hf10 as [Hn10 Hp10].
  destruct (best_of payout
              (List.filter (fun p => Nat.eqb (num_legs p) 2) (by_probability parlays)))
    as [p2|].
  2:{ exfalso. specialize (S2 p20 Hin20). apply Nat.eqb_neq in S2. contradiction. }
  destruct S2 as (_ & _ & Hmax2).
  exists p10, p2. repeat split.
  - apply Hmax10; [exact Hin20|]. apply qualifies_10. split; [exact Hn20 | lra].
  - apply Hmax2; [exact Hin10|]. apply Nat.eqb_eq. exact Hn10.
Qed.

Lemma consider_no_sweat_inv (seen : list Parlay) (st : option (Q * Parlay)) (p : Parlay) :
  no_sweat_inv seen st -> no_sweat_inv (seen ++ [p]) (consider_no_sweat st p).
Proof.
  intros Hinv. unfold consider_no_sweat.
  destruct (is_valid_no_sweat_combo (map cols_of (legs p))) eqn:Hv.
  - destruct st as [[ev best]|]; simpl in *.
    + destruct Hinv as (Hev & Hin & Hvb & Hmax).
      destruct (Qgt_b (expected_value_no_sweat p 100 0.7) ev) eqn:Hgt; simpl.
      * apply Qlt_b_true in Hgt. repeat split; try assumption.
        -- apply in_app_iff. right. left. reflexivity.
        -- intros q Hq Hvq. apply in_app_iff in Hq as [Hq|[<-|[]]].
           ++ apply Qle_trans with ev; [apply Hmax; assumption | apply Qlt_le_weak; exact Hgt].
           ++ apply Qle_refl.
      * apply Qlt_b_false in Hgt. repeat split; try assumption.
        -- apply in_app_iff. left. exact Hin.
        -- intros q Hq Hvq. apply in_app_iff in Hq as [Hq|[<-|[]]].
           ++ apply Hmax; assumption.
           ++ exact Hgt.
    + repeat split; try assumption.
      * apply in_app_iff. right. left. reflexivity.
      * intros q Hq Hvq. apply in_app_iff in Hq as [Hq|[<-|[]]].
        -- rewrite (Hinv q Hq) in Hvq. discriminate.
        -- apply Qle_refl.
  - destruct st as [[ev best]|]; simpl in *.
    + destruct Hinv as (Hev & Hin & Hvb & Hmax). repeat split; try assumption.
      * apply in_app_iff. left. exact Hin.
      * intros q Hq Hvq. apply in_app_iff in Hq as [Hq|[<-|[]]].
        -- apply Hmax; assumption.
        -- rewrite Hv in Hvq. discriminate.
    + intros q Hq. apply in_app_iff in Hq as [Hq|[<-|[]]]; [apply Hinv; exact Hq | exact Hv].
Qed.

Lemma no_sweat_fold_inv (ps : list Parlay) : forall seen st,
  no_sweat_inv seen st -> no_sweat_inv (seen ++ ps) (fold_left consider_no_sweat ps st).
Proof.
  induction ps as [|p ps IH]; intros seen st Hinv; simpl.
  - rewrite app_nil_r. exact Hinv.
  - replace (seen ++ p :: ps) with ((seen ++ [p]) ++ ps) by (rewrite <- app_assoc; reflexivity).
    apply IH, consider_no_sweat_inv. exact Hinv.
Qed.

(** X17. The "No Sweat" section shows a parlay of the list that passes the
    promotional validator and whose expected value (stake 100, conversion
    0.7) is greatest among the parlays passing it; the section is absent
    exactly when no parlay of the list passes the promotional validator. *)
Theorem no_sweat_section (parlays : list Parlay) :
  match report_best_no_sweat parlays with
  | None =>
      forall q, In q parlays -> is_valid_no_sweat_combo (map cols_of (legs q)) = false
  | Some p =>
      In p parlays
      /\ is_valid_no_sweat_combo (map cols_of (legs p)) = true
      /\ forall q, In q parlays ->
           is_valid_no_sweat_combo (map cols_of (legs q)) = true ->
           expected_value_no_sweat q 100 0.7 <= expected_value_no_sweat p 100 0.7
  end.
Proof.
  unfold report_best_no_sweat.
  pose proof (no_sweat_fold_inv (by_probability parlays) [] None) as H.
  simpl in H. specialize (H (fun q Hq => match Hq with end)).
  destruct (fold_left consider_no_sweat (by_probability parlays) None) as [[ev p]|]; simpl in *.
  - destruct H as (-> & Hin & Hv & Hmax). apply sort_desc_In in Hin.
    repeat split; try assumption.
    intros q Hq Hvq. apply Hmax; [apply sort_desc_In; exact Hq | exact Hvq].
  - intros q Hq. apply H. apply sort_desc_In. exact Hq.
Qed.

Lemma filter_sorted {A : Type} (R : A -> A -> Prop) (f : A -> bool) (l : list A) :
  StronglySorted R l -> StronglySorted R (List.filter f l).
Proof.
  induction 1 as [|x l Hs IH Hall]; simpl; [constructor|].
  destruct (f x); [|exact IH]. constructor; [exact IH|].
  rewrite List.Forall_forall in Hall |- *.
  intros y Hy. apply filter_In in Hy as [Hy _]. apply Hall. exact Hy.
Qed.

Lemma sorted_app {A : Type} (R : A -> A -> Prop) (l1 l2 : list A) :
  StronglySorted R (l1 ++ l2) -> forall a b, In a l1 -> In b l2 -> R a b.
Proof.
  induction l1 as [|x l1 IH]; intros Hs a b Ha Hb; [destruct Ha|].
  simpl in Hs. apply StronglySorted_inv in Hs as [Hs Hall].
  destruct Ha as [<-|Ha].
  - rewrite List.Forall_forall in Hall. apply Hall. apply in_app_iff. right. exact Hb.
  - apply IH; assumption.
Qed.

(** X18. The "Top 3 Most Probable 5-Leg Parlays" section shows 5-leg parlays
    of the list, three of them or all of them if fewer exist, and every
    5-leg parlay of the list that is not shown is at most as probable as
    every one shown. *)
Theorem top_5leg_most_probable (parlays : list Parlay) :
  length (top_5leg parlays)
  = Nat.min 3 (length (List.filter (fun p => Nat.eqb (num_legs p) 5) parlays))
  /\ (forall p, In p (top_5leg parlays) -> In p parlays /\ num_legs p = 5%nat)
  /\ (forall p q,
        In p (top_5leg parlays) -> In q parlays -> num_legs q = 5%nat ->
        ~ In q (top_5leg parlays) -> probability q <= probability p).
Proof.
  unfold top_5leg.
  set (five := List.filter (fun p => Nat.eqb (num_legs p) 5) (sort_desc probability parlays)).
  assert (Hfive : forall p, In p five <-> In p parlays /\ num_legs p = 5%nat).
  { intros p. unfold five. rewrite filter_In, sort_desc_In, Nat.eqb_eq. reflexivity. }
  split; [|split].
  - rewrite length_firstn. f_equal. unfold five.
    apply Permutation_length.
    assert (Hperm : forall (f : Parlay -> bool) (l l' : list Parlay),
               Permutation l l' -> Permutation (List.filter f l) (List.filter f l')).
    { intros f l l' Hp. induction Hp as [|x l l' Hp IH|x y l|l1 l2 l3 H1 IH1 H2 IH2]; simpl.
      - constructor.
      - destruct (f x); [constructor|]; exact IH.
      - destruct (f x), (f y); try reflexivity. apply perm_swap.
      - apply Permutation_trans with (List.filter f l2); assumption. }
    apply Hperm, Permutation_sym, sort_desc_Permutation.
  - intros p Hp. apply Hfive.
    rewrite <- (firstn_skipn 3 five). apply in_app_iff. left. exact Hp.
  - intros p q Hp Hq Hq5 Hnot.
    assert (Hin : In q five) by (apply Hfive; split; assumption).
    rewrite <- (firstn_skipn 3 five) in Hin. apply in_app_iff in Hin as [Hin|Hin];
      [contradiction|].
    assert (Hs : StronglySorted (above probability) (firstn 3 five ++ skipn 3 five)).
    { rewrite firstn_skipn. unfold five. apply filter_sorted, sort_desc_sorted. }
    exact (sorted_app _ _ _ Hs p q Hp Hin).
Qed.

Lemma two_leg_sections_witness :
  exists p : Parlay, report_best_2leg sample_pairs = Some p /\ payout (pair_parlay leg_a leg_b) <= payout p.
Proof.
  pose proof (two_leg_sections sample_pairs) as [H _].
  destruct (report_best_2leg sample_pairs) as [p|] eqn:E.
  - exists p. split; [reflexivity|]. destruct H as (_ & _ & Hmax).
    apply Hmax; [left; reflexivity | reflexivity].
  - vm_compute in E. discriminate E.
Defined.

Lemma two_leg_sections_nested_witness :
  exists p10 p2 : Parlay,
    report_best_2leg_10 sample_pairs = Some p10
    /\ report_best_2leg sample_pairs = Some p2
    /\ payout p10 <= payout p2.
Proof.
  destruct (two_leg_sections_nested sample_pairs (pair_parlay leg_b leg_c))
    as (p10 & p2 & H10 & H2 & _ & Hle).
  - vm_compute. reflexivity.
  - exists p10, p2. repeat split; assumption.
Defined.

Lemma no_sweat_section_witness :
  exists p : Parlay,
    report_best_no_sweat sample_pairs = Some p
    /\ expected_value_no_sweat (pair_parlay leg_a leg_b) 100 0.7
       <= expected_value_no_sweat p 100 0.7.
Proof.
  pose proof (no_sweat_section sample_pairs) as H.
  destruct (report_best_no_sweat sample_pairs) as [p|] eqn:E.
  - exists p. split; [reflexivity|]. destruct H as (_ & _ & Hmax).
    apply Hmax; [left; reflexivity | reflexivity].
  - vm_compute in E. discriminate E.
Defined.

Lemma top_5leg_most_probable_witness :
  length (top_5leg (sequential wide_pool 2 5 30)) = 1%nat.
Proof.
  destruct (top_5leg_most_probable (sequential wide_pool 2 5 30)) as [Hlen _].
  rewrite Hlen. vm_compute. reflexivity.
Defined.

(** ** The runner *)

Lemma firstn_In {A : Type} (n : nat) (l : list A) (x : A) : In x (firstn n l) -> In x l.
Proof.
  intros H. rewrite <- (firstn_skipn n l). apply in_app_iff. left. exact H.
Qed.

Lemma firstn_sorted {A : Type} (R : A -> A -> Prop) (n : nat) (l : list A) :
  StronglySorted R l -> StronglySorted R (firstn n l).
Proof.
  revert n. induction l as [|x l IH]; intros n Hs; [destruct n; constructor|].
  destruct n as [|n]; simpl; [constructor|].
  apply StronglySorted_inv in Hs as [Hs Hall]. constructor; [apply IH; exact Hs|].
  rewrite List.Forall_forall in Hall |- *. intros y Hy. apply Hall.
  apply firstn_In with n. exact Hy.
Qed.

Lemma prepare_In (df : DataFrame) (r : Row) :
  In r (prepare df) ->
  In r df /\ market_key (snd r) ∈ ALLOWED_MARKETS /\ 0 < edge (snd r).
Proof.
  unfold prepare. intros H. apply firstn_In in H.
  apply sort_desc_In in H. apply filter_In in H as [H He]. apply filter_In in H as [H Hm].
  apply bool_decide_eq_true in Hm. unfold Qgt_b in He. apply Qlt_b_true in He.
  repeat split; assumption.
Qed.

(** X19. The pool the runner hands to the builder holds at most 1000 rows of
    the table, each on an allowed market and with a positive edge, in
    descending order of edge. *)
Theorem prepare_spec (df : DataFrame) :
  (length (prepare df) <= 1000)%nat
  /\ (forall r, In r (prepare df) ->
        In r df /\ market_key (snd r) ∈ ALLOWED_MARKETS /\ 0 < edge (snd r))
  /\ StronglySorted (fun a b : Row => edge (snd b) <= edge (snd a)) (prepare df).
Proof.
  split; [|split].
  - unfold prepare. rewrite length_firstn. unfold TOP_PROPS. lia.
  - apply prepare_In.
  - unfold prepare. apply firstn_sorted.
    apply (sort_desc_sorted (fun r : Row => edge (snd r))).
Qed.

Lemma prepare_spec_witness :
  In (0%Z, leg_a) (prepare scenario_pool) /\ 0 < edge leg_a.
Proof.
  assert (Hin : In (0%Z, leg_a) (prepare scenario_pool)) by (left; reflexivity).
  split; [exact Hin|].
  destruct (prepare_spec scenario_pool) as (_ & H & _).
  destruct (H _ Hin) as (_ & _ & He). exact He.
Defined.

Lemma scan_any_pairs_fold (props : list Leg) : forall st,
  scan_any_pairs props st =
  fold_left (fun st ab => consider_any_pair (fst ab) st (snd ab)) (all_pairs props) st.
Proof.
  induction props as [|a rest IH]; intros st; simpl; [reflexivity|].
  rewrite fold_left_app, IH. f_equal.
  generalize st. clear. induction rest as [|b rest IH]; intros st; simpl; [reflexivity|].
  apply IH.
Qed.

Lemma consider_any_pair_inv (seen : list (Leg * Leg)) (st : option (Q * Parlay)) (a b : Leg) :
  any_pair_inv seen st -> any_pair_inv (seen ++ [(a, b)]) (consider_any_pair a st b).
Proof.
  intros Hinv. unfold consider_any_pair.
  destruct (is_valid_combo [a; b]) eqn:Hv.
  - destruct st as [[s p]|]; simpl in *.
    + destruct Hinv as (Hs & (a0 & b0 & Hin & Hv0 & Hp) & Hmax).
      destruct (Qgt_b ((edge a + edge b) / 2) s) eqn:Hgt; simpl.
      * apply Qlt_b_true in Hgt. split; [reflexivity|]. split.
        -- exists a, b. rewrite in_app_iff. simpl. tauto.
        -- intros a' b' Hin' Hv'. apply in_app_iff in Hin' as [Hin'|[[= <- <-]|[]]].
           ++ apply Qle_trans with s; [|apply Qlt_le_weak; exact Hgt].
              rewrite Hs. apply Hmax; assumption.
           ++ apply Qle_refl.
      * apply Qlt_b_false in Hgt. split; [exact Hs|]. split.
        -- exists a0, b0. rewrite in_app_iff. tauto.
        -- intros a' b' Hin' Hv'. apply in_app_iff in Hin' as [Hin'|[[= <- <-]|[]]].
           ++ apply Hmax; assumption.
           ++ simpl. rewrite <- Hs. exact Hgt.
    + split; [reflexivity|]. split.
      * exists a, b. rewrite in_app_iff. simpl. tauto.
      * intros a' b' Hin' Hv'. apply in_app_iff in Hin' as [Hin'|[[= <- <-]|[]]].
        -- rewrite (Hinv a' b' Hin') in Hv'. discriminate.
        -- apply Qle_refl.
  - destruct st as [[s p]|]; simpl in *.
    + destruct Hinv as (Hs & (a0 & b0 & Hin & Hv0 & Hp) & Hmax).
      split; [exact Hs|]. split.
      * exists a0, b0. rewrite in_app_iff. tauto.
      * intros a' b' Hin' Hv'. apply in_app_iff in Hin' as [Hin'|[[= <- <-]|[]]].
        -- apply Hmax; assumption.
        -- rewrite Hv in Hv'. discriminate.
    + intros a' b' Hin. apply in_app_iff in Hin as [Hin|[[= <- <-]|[]]];
        [apply Hinv; exact Hin | exact Hv].
Qed.

Lemma scan_any_pairs_inv (props : list Leg) :
  any_pair_inv (all_pairs props) (scan_any_pairs props None).
Proof.
  rewrite scan_any_pairs_fold.
  assert (H : forall pairs seen st, any_pair_inv seen st ->
            any_pair_inv (seen ++ pairs)
              (fold_left (fun st ab => consider_any_pair (fst ab) st (snd ab)) pairs st)).
  { induction pairs as [|[a b] pairs IH]; intros seen st Hinv; simpl.
    - rewrite app_nil_r. exact Hinv.
    - replace (seen ++ (a, b) :: pairs) with ((seen ++ [(a, b)]) ++ pairs)
        by (rewrite <- app_assoc; reflexivity).
      apply IH, consider_any_pair_inv. exact Hinv. }
  apply (H (all_pairs props) [] None). intros a b [].
Qed.

Lemma all_pairs_In (props : list Leg) (a b : Leg) :
  In (a, b) (all_pairs props) -> In a props /\ In b props.
Proof.
  intros H. apply all_pairs_lookup in H as (i & j & _ & Hi & Hj).
  split; apply list_elem_of_In, list_elem_of_lookup; eexists; eassumption.
Qed.

(** The runner's list is the builder's, with the valid pair of the prepared
    pool of greatest average edge appended when the builder returned no
    2-leg parlay and the pool has a valid pair. *)
Lemma run_parlay_generator_cases (df : DataFrame) :
  let parlays := greedy_parlay_builder (prepare df) 2 5 30 in
  (run_parlay_generator df = parlays
   /\ ((exists p, In p parlays /\ num_legs p = 2%nat)
       \/ forall a b, In (a, b) (all_pairs (to_dict_records (prepare df))) ->
            is_valid_combo [a; b] = false))
  \/ (exists a b,
        run_parlay_generator df = parlays ++ [pair_parlay a b]
        /\ (forall p, In p parlays -> num_legs p <> 2%nat)
        /\ In (a, b) (all_pairs (to_dict_records (prepare df)))
        /\ is_valid_combo [a; b] = true
        /\ (forall a' b', In (a', b') (all_pairs (to_dict_records (prepare df))) ->
              is_valid_combo [a'; b'] = true ->
              avg_edge (pair_parlay a' b') <= avg_edge (pair_parlay a b))).
Proof.
  intros parlays. unfold run_parlay_generator. fold parlays.
  destruct (List.filter (fun p => Nat.eqb (num_legs p) 2) parlays) as [|p rest] eqn:Hf.
  - pose proof (scan_any_pairs_inv (to_dict_records (prepare df))) as Hinv.
    destruct (scan_any_pairs (to_dict_records (prepare df)) None) as [[s p]|]; simpl in *.
    + right. destruct Hinv as (_ & (a & b & Hin & Hv & ->) & Hmax).
      exists a, b. repeat split; try assumption.
      intros p Hp Hp2.
      assert (Hin' : In p (List.filter (fun p => Nat.eqb (num_legs p) 2) parlays)).
      { apply filter_In. split; [exact Hp | apply Nat.eqb_eq; exact Hp2]. }
      rewrite Hf in Hin'. destruct Hin'.
    + left. split; [reflexivity|]. right. exact Hinv.
  - left. split; [reflexivity|]. left. exists p.
    assert (Hin : In p (List.filter (fun p => Nat.eqb (num_legs p) 2) parlays))
      by (rewrite Hf; left; reflexivity).
    apply filter_In in Hin as [Hin Hn]. apply Nat.eqb_eq in Hn. split; assumption.
Qed.

(** X20. Whenever the prepared pool holds two rows that the standard
    validator accepts as a pair, the list the runner reports on contains a
    2-leg parlay, and the report's "Best 2-Leg Parlay" section shows one. *)
Theorem run_reports_a_two_leg_parlay (df : DataFrame) :
  (exists (i j : nat) (a b : Leg),
      (i < j)%nat
      /\ to_dict_records (prepare df) !! i = Some a
      /\ to_dict_records (prepare df) !! j = Some b
      /\ is_valid_combo [a; b] = true) ->
  (exists p, In p (run_parlay_generator df) /\ num_legs p = 2%nat)
  /\ (exists best,
        report_best_2leg (run_parlay_generator df) = Some best
        /\ In best (run_parlay_generator df) /\ num_legs best = 2%nat).
Proof.
  intros (i & j & a & b & Hij & Hi & Hj & Hv).
  assert (Hpair : In (a, b) (all_pairs (to_dict_records (prepare df)))).
  { apply all_pairs_lookup. exists i, j. repeat split; assumption. }
  assert (Hex : exists p, In p (run_parlay_generator df) /\ num_legs p = 2%nat).
  { destruct (run_parlay_generator_cases df) as [[Hrun [Hex | Hnone]] | (a' & b' & Hrun & _)].
    - destruct Hex as (p & Hp & Hn). exists p. rewrite Hrun. split; assumption.
    - rewrite (Hnone a b Hpair) in Hv. discriminate.
    - exists (pair_parlay a' b'). rewrite Hrun. split; [|reflexivity].
      apply in_app_iff. right. left. reflexivity. }
  split; [exact Hex|].
  destruct Hex as (p & Hp & Hn).
  pose proof (section_pick (fun p => Nat.eqb (num_legs p) 2) (run_parlay_generator df)) as H.
  unfold report_best_2leg, two_leg.
  destruct (best_of payout _) as [best|].
  - destruct H as (Hin & Hf & _). exists best. apply Nat.eqb_eq in Hf. repeat split; assumption.
  - specialize (H p Hp). apply Nat.eqb_neq in H. contradiction.
Qed.

Lemma run_reports_a_two_leg_parlay_witness :
  exists best, report_best_2leg (run_parlay_generator scenario_pool) = Some best
               /\ num_legs best = 2%nat.
Proof.
  destruct (run_reports_a_two_leg_parlay scenario_pool) as (_ & best & Hbest & _ & Hn).
  - exists 0%nat, 1%nat. eexists. eexists.
    split; [lia|]. split; [reflexivity|]. split; [reflexivity|]. reflexivity.
  - exists best. split; assumption.
Defined.

Lemma edge_sum_positive (ls : list Leg) : forall acc : Q,
  0 <= acc -> ls <> [] -> (forall l, In l ls -> 0 < edge l) ->
  0 < fold_left (fun a l => a + edge l) ls acc.
Proof.
  induction ls as [|l ls IH]; intros acc Hacc Hne Hall; [congruence|].
  simpl. assert (Hl : 0 < edge l) by (apply Hall; left; reflexivity).
  destruct ls as [|l' ls'].
  - simpl. lra.
  - apply IH; [lra | discriminate | intros x Hx; apply Hall; right; exact Hx].
Qed.

Lemma edge_mean_positive (ls : list Leg) :
  ls <> [] -> (forall l, In l ls -> 0 < edge l) -> 0 < edge_mean ls.
Proof.
  intros Hne Hall. unfold edge_mean, edge_sum.
  apply Qlt_shift_div_l.
  - destruct ls; [congruence|]. change 0 with (inject_Z 0). rewrite <- Zlt_Qlt. simpl. lia.
  - rewrite Qmult_0_l. apply edge_sum_positive; [apply Qle_refl | exact Hne | exact Hall].
Qed.

Lemma greedy_length (df : DataFrame) (min_legs max_legs top_n : Z) :
  (length (sequential df min_legs max_legs top_n) <= Z.to_nat top_n)%nat.
Proof.
  unfold sequential. eapply Nat.le_trans; [apply assemble_length|]. simpl. lia.
Qed.

Lemma odds_filter_In (df : DataFrame) (r : Row) : In r (odds_filter df) -> In r df.
Proof.
  unfold odds_filter. intros H. apply filter_In in H as [H _]. apply filter_In in H as [H _].
  exact H.
Qed.

Lemma guaranteed_pair_cases (df : DataFrame) :
  guaranteed_pair df = []
  \/ exists a b, guaranteed_pair df = [pair_parlay a b]
                 /\ In (a, b) (all_pairs (to_dict_records df)).
Proof.
  unfold guaranteed_pair, best_2leg.
  pose proof (scan_pairs_inv (to_dict_records df)) as Hinv.
  destruct (scan_pairs (to_dict_records df) None) as [[s q]|]; simpl in *.
  - right. destruct Hinv as (_ & (a & b & Hin & _ & ->) & _). exists a, b. split; [reflexivity|].
    exact Hin.
  - left. reflexivity.
Qed.

Lemma pool_pair_reportable (df : DataFrame) (a b : Leg) :
  In a (to_dict_records (prepare df)) -> In b (to_dict_records (prepare df)) ->
  reportable df (pair_parlay a b).
Proof.
  intros Ha Hb.
  assert (Hdict : forall c, In c (to_dict_records (prepare df)) ->
            market_key c ∈ ALLOWED_MARKETS /\ 0 < edge c /\ exists z, In (z, c) df).
  { intros c Hc. apply in_map_iff in Hc as ([z c'] & <- & Hin).
    apply prepare_In in Hin as (Hdf & Hm & He). simpl in *.
    repeat split; try assumption. exists z. exact Hdf. }
  destruct (Hdict a Ha) as (Hma & Hea & Hza). destruct (Hdict b Hb) as (Hmb & Heb & Hzb).
  unfold reportable. simpl. split; [lia|]. split; [reflexivity|]. split.
  - intros l [<-|[<-|[]]]; simpl; repeat split; assumption.
  - apply Qlt_shift_div_l; lra.
Qed.

Lemma sequential_reportable (df : DataFrame) (p : Parlay) :
  In p (sequential (prepare df) 2 5 30) -> reportable df p.
Proof.
  intros Hp.
  pose proof (sequential_sizes _ _ _ _ _ Hp) as Hsize.
  assert (Hw : well_assembled (odds_filter (prepare df)) 2 p).
  { apply (assemble_well (odds_filter (prepare df)) 2 5 (Z.to_nat 30) ∅ []);
      [intros q [] | exact Hp]. }
  destruct Hw as (rows & -> & Hne & Hmin & Hin & _).
  rewrite score_rows_fields in Hsize |- *. unfold reportable. simpl in *.
  assert (Hrow : forall r, In r rows ->
            market_key (snd r) ∈ ALLOWED_MARKETS /\ 0 < edge (snd r)
            /\ exists z, In (z, snd r) df).
  { intros [z c] Hr. apply Hin, odds_filter_In, prepare_In in Hr as (Hdf & Hm & He).
    simpl in *. repeat split; try assumption. exists z. exact Hdf. }
  split; [|split; [|split]].
  - change (inner_rounds 2 5) with 4%nat in Hsize. lia.
  - rewrite length_map. reflexivity.
  - intros l Hl. apply in_map_iff in Hl as (r & <- & Hr).
    destruct r as [z c]. exact (Hrow (z, c) Hr).
  - apply edge_mean_positive.
    + destruct rows; [congruence | discriminate].
    + intros l Hl. apply in_map_iff in Hl as (r & <- & Hr). apply (Hrow r Hr).
Qed.

Lemma builder_reportable (df : DataFrame) (p : Parlay) :
  In p (greedy_parlay_builder (prepare df) 2 5 30) -> reportable df p.
Proof.
  rewrite greedy_parlay_builder_split. intros Hp. apply in_app_iff in Hp as [Hp|Hp].
  - destruct (guaranteed_pair_cases (odds_filter (prepare df))) as [E | (a & b & E & Hab)];
      rewrite E in Hp; [destruct Hp|].
    destruct Hp as [<-|[]]. apply all_pairs_In in Hab as [Ha Hb].
    assert (Hsub : forall c, In c (to_dict_records (odds_filter (prepare df))) ->
              In c (to_dict_records (prepare df))).
    { intros c Hc. apply in_map_iff in Hc as (r & <- & Hr).
      apply in_map, odds_filter_In. exact Hr. }
    apply pool_pair_reportable; apply Hsub; assumption.
  - apply sequential_reportable. exact Hp.
Qed.

(** X21. Every parlay of the list the runner reports on has between two and
    five legs, each of them a row of the table on an allowed market and with
    a positive edge, and a positive average edge; the list holds at most 31
    parlays. *)
Theorem run_parlay_generator_output (df : DataFrame) :
  (length (run_parlay_generator df) <= 31)%nat
  /\ forall p, In p (run_parlay_generator df) ->
       (2 <= num_legs p <= 5)%nat
       /\ num_legs p = length (legs p)
       /\ (forall l, In l (legs p) ->
             market_key (cols_of l) ∈ ALLOWED_MARKETS /\ 0 < edge (cols_of l)
             /\ exists z, In (z, cols_of l) df)
       /\ 0 < avg_edge p.
Proof.
  pose proof (greedy_length (prepare df) 2 5 30) as Hseq.
  change (Z.to_nat 30) with 30%nat in Hseq.
  destruct (run_parlay_generator_cases df) as [[Hrun _] | (a & b & Hrun & Hno2 & Hab & _)];
    rewrite Hrun; clear Hrun.
  - split.
    + rewrite greedy_parlay_builder_split, length_app.
      destruct (guaranteed_pair_cases (odds_filter (prepare df))) as [E | (a & b & E & _)];
        rewrite E; simpl; lia.
    + intros p Hp. exact (builder_reportable df p Hp).
  - split.
    + rewrite length_app. simpl.
      rewrite greedy_parlay_builder_split in Hno2 |- *. rewrite length_app.
      destruct (guaranteed_pair_cases (odds_filter (prepare df))) as [E | (a' & b' & E & _)];
        rewrite E in Hno2 |- *; simpl; [lia|].
      exfalso. apply (Hno2 (pair_parlay a' b')); [left; reflexivity | reflexivity].
    + intros p Hp. apply in_app_iff in Hp as [Hp|[<-|[]]].
      * exact (builder_reportable df p Hp).
      * apply all_pairs_In in Hab as [Ha Hb]. exact (pool_pair_reportable df a b Ha Hb).
Qed.

Lemma run_parlay_generator_output_witness :
  (length (run_parlay_generator scenario_pool) <= 31)%nat.
Proof. exact (proj1 (run_parlay_generator_output scenario_pool)). Defined.

(** ** The patch of the runner *)

Lemma to_dict_records_odds_filter (df : DataFrame) :
  to_dict_records (odds_filter df) = List.filter leg_passes (to_dict_records df).
Proof.
  unfold to_dict_records, odds_filter, leg_passes.
  induction df as [|[z l] df IH]; [reflexivity|].
  assert (Hv : odds_valid (z, l) = odds_valid (0%Z, l)) by reflexivity.
  assert (Hc : within_cap (z, l) = within_cap (0%Z, l)) by reflexivity.
  cbn [List.filter map snd]. rewrite Hv.
  destruct (odds_valid (0%Z, l)); cbn [List.filter andb]; [|exact IH].
  rewrite Hc. destruct (within_cap (0%Z, l)); cbn [map snd]; [f_equal|]; exact IH.
Qed.

Lemma all_pairs_filter (f : Leg -> bool) (props : list Leg) (a b : Leg) :
  In (a, b) (all_pairs props) -> f a = true -> f b = true ->
  In (a, b) (all_pairs (List.filter f props)).
Proof.
  intros H Ha Hb. induction props as [|x rest IH]; [destruct H|].
  simpl in H. apply in_app_iff in H as [H|H].
  - apply in_map_iff in H as (b' & [= <- <-] & Hin).
    cbn [List.filter]. rewrite Ha. cbn [all_pairs]. apply in_app_iff. left.
    apply in_map. apply filter_In. split; assumption.
  - specialize (IH H). cbn [List.filter]. destruct (f x); [|exact IH].
    cbn [all_pairs]. apply in_app_iff. right. exact IH.
Qed.

Lemma leg_passes_iff (l : Leg) :
  leg_passes l = true <-> b64 1.2 < b64 (odds_decimal l).
Proof. unfold leg_passes. apply (passes_odds_filters_iff (0%Z, l)). Qed.

(** X22. When the runner appends a pair to the builder's list, it is the
    valid pair of the prepared pool of greatest average edge, and it is a
    pair the builder's own scan could not take: it pays less than 3.0 or one
    of its legs is removed by the odds filters, its odds being, as a
    binary64 number, at most the binary64 number nearest to 1.2 (the patch
    applies neither the payout floor nor the odds filters).  Both cases
    occur: three rows at odds 1.5, and a row at 1.2 with a row at 3.0. *)
Theorem patch_pair_best_and_passed_over :
  (forall (df : DataFrame) (best : Parlay),
      run_parlay_generator df = greedy_parlay_builder (prepare df) 2 5 30 ++ [best] ->
      exists a b : Leg,
        best = pair_parlay a b
        /\ In (a, b) (all_pairs (to_dict_records (prepare df)))
        /\ is_valid_combo [a; b] = true
        /\ (forall a' b', In (a', b') (all_pairs (to_dict_records (prepare df))) ->
              is_valid_combo [a'; b'] = true -> (edge a' + edge b') / 2 <= avg_edge best)
        /\ (payout best < 3.0
            \/ b64 (odds_decimal a) <= b64 1.2
            \/ b64 (odds_decimal b) <= b64 1.2))
  /\ (exists best : Parlay,
        run_parlay_generator short_odds_pool
        = greedy_parlay_builder (prepare short_odds_pool) 2 5 30 ++ [best]
        /\ payout best < 3.0)
  /\ (exists best : Parlay,
        run_parlay_generator capped_pool
        = greedy_parlay_builder (prepare capped_pool) 2 5 30 ++ [best]
        /\ 3.0 <= payout best).
Proof.
  split; [|split].
  2:{ eexists. split; [vm_compute; reflexivity|]. vm_compute. reflexivity. }
  2:{ eexists. split; [vm_compute; reflexivity|]. vm_compute. discriminate. }
  intros df best Hrun.
  destruct (run_parlay_generator_cases df)
    as [[Hsame _] | (a & b & Happ & Hno2 & Hab & Hv & Hmax)].
  { rewrite Hsame in Hrun. apply (f_equal (@length Parlay)) in Hrun.
    rewrite length_app in Hrun. simpl in Hrun. lia. }
  rewrite Happ in Hrun. apply app_inv_head in Hrun. injection Hrun as <-.
  exists a, b. split; [reflexivity|]. split; [exact Hab|]. split; [exact Hv|].
  split; [exact Hmax|].
  destruct (Qlt_le_dec (odds_decimal a * odds_decimal b) 3.0) as [Hpay|Hpay];
    [left; exact Hpay|].
  destruct (Qlt_le_dec (b64 1.2) (b64 (odds_decimal a))) as [Ha|Ha];
    [|right; left; exact Ha].
  destruct (Qlt_le_dec (b64 1.2) (b64 (odds_decimal b))) as [Hb|Hb];
    [|right; right; exact Hb].
  exfalso.
  assert (Hin : In (a, b) (all_pairs (to_dict_records (odds_filter (prepare df))))).
  { rewrite to_dict_records_odds_filter.
    apply all_pairs_filter; [exact Hab | apply leg_passes_iff; exact Ha
                            | apply leg_passes_iff; exact Hb]. }
  pose proof (scan_pairs_inv (to_dict_records (odds_filter (prepare df)))) as Hinv.
  assert (Hg : exists q, In q (guaranteed_pair (odds_filter (prepare df)))
                         /\ num_legs q = 2%nat).
  { unfold guaranteed_pair, best_2leg.
    destruct (scan_pairs (to_dict_records (odds_filter (prepare df))) None) as [[s q]|];
      cbn [option_map snd scan_inv] in *.
    - destruct Hinv as (_ & (a0 & b0 & _ & _ & ->) & _).
      eexists. split; [left; reflexivity | reflexivity].
    - exfalso. apply (Hinv a b Hin). split; [exact Hv | exact Hpay]. }
  destruct Hg as (q & Hq & Hq2).
  apply (Hno2 q); [|exact Hq2].
  rewrite greedy_parlay_builder_split. apply in_app_iff. left. exact Hq.
Qed.

Lemma patch_pair_best_and_passed_over_witness :
  exists a b : Leg,
    In (a, b) (all_pairs (to_dict_records (prepare capped_pool)))
    /\ 3.0 <= payout (pair_parlay a b)
    /\ (b64 (odds_decimal a) <= b64 1.2 \/ b64 (odds_decimal b) <= b64 1.2).
Proof.
  destruct patch_pair_best_and_passed_over as [H _].
  destruct (H capped_pool
              (pair_parlay (scenario_leg "Player A" "player_points" 1.2 0.8 0.3)
                           (scenario_leg "Player B" "player_rebounds" 3.0 0.3 0.2)))
    as (a & b & E & Hin & _ & _ & Hlow).
  - vm_compute. reflexivity.
  - exists a, b. split; [exact Hin|]. rewrite <- E.
    assert (Hpay : 3.0 <= payout (pair_parlay (scenario_leg "Player A" "player_points" 1.2 0.8 0.3)
                                              (scenario_leg "Player B" "player_rebounds" 3.0 0.3 0.2)))
      by (vm_compute; discriminate).
    split; [exact Hpay|].
    destruct Hlow as [Hlow|Hlow]; [|exact Hlow].
    exfalso. exact (Qlt_not_le _ _ Hlow Hpay).
Defined.

(** ** Ladders of the runner's parlays *)









(** ** The scorer on rows that carry an [odds] column *)

(** X24. On a non-empty sequence of rows that all carry an [odds] column the
    scorer returns, whatever the values of that column: the product of the
    implied probabilities in mode "prob", the mean edge in mode "edge", and
    the balance value in every other mode; the balance value is the key by
    which the exhaustive engine ranks the same combination. *)
Theorem parlay_score_with_odds_column (ls : list Leg) (mode : string) :
  ls <> [] -> List.Forall has_odds_column ls ->
  parlay_score ls mode
  = Ok (if String.eqb mode "prob" then prob_product ls
        else if String.eqb mode "edge" then edge_mean ls
        else 0.5 * prob_product ls + 0.5 * ((edge_mean ls + 1) / 2))
  /\ forall (min_prob : Q) (p : Parlay),
       score_combo ls min_prob = Ok (Some p) ->
       parlay_score ls "balance" = Ok (balance_key p).
Proof.
  intros Hne Hodds.
  assert (Hmode : forall m,
            parlay_score ls m
            = Ok (if String.eqb m "prob" then prob_product ls
                  else if String.eqb m "edge" then edge_mean ls
                  else 0.5 * prob_product ls + 0.5 * ((edge_mean ls + 1) / 2))).
  { intros m. unfold parlay_score.
    destruct (score_loop_odds ls 1 0 1 Hodds) as [o' ->].
    cbn [bind]. rewrite (py_div_length _ ls Hne). cbn [bind].
    destruct (String.eqb m "prob"); [reflexivity|].
    destruct (String.eqb m "edge"); reflexivity. }
  split; [apply Hmode|].
  intros min_prob p Hp. rewrite (balance_key_score_combo ls min_prob p Hp).
  apply Hmode.
Qed.

Lemma parlay_score_with_odds_column_witness :
  parlay_score [with_odds leg_a 1.7; with_odds leg_b 1.8] "anything"
  = Ok (0.5 * prob_product [with_odds leg_a 1.7; with_odds leg_b 1.8]
        + 0.5 * ((edge_mean [with_odds leg_a 1.7; with_odds leg_b 1.8] + 1) / 2)).
Proof.
  apply (parlay_score_with_odds_column [with_odds leg_a 1.7; with_odds leg_b 1.8] "anything").
  - discriminate.
  - repeat constructor; eexists; reflexivity.
Defined.

(** ** Order of the legs *)

Lemma sorted_snoc {A : Type} (R : A -> A -> Prop) (l : list A) (x : A) :
  StronglySorted R l -> (forall y, In y l -> R y x) -> StronglySorted R (l ++ [x]).
Proof.
  induction 1 as [|y l Hs IH Hall]; intros Hx; simpl.
  - repeat constructor.
  - constructor; [apply IH; intros z Hz; apply Hx; right; exact Hz|].
    apply List.Forall_app. split; [exact Hall|].
    constructor; [apply Hx; left; reflexivity | constructor].
Qed.

Lemma sorted_map {A B : Type} (f : A -> B) (R : B -> B -> Prop) (l : list A) :
  StronglySorted (fun a b => R (f a) (f b)) l -> StronglySorted R (map f l).
Proof.
  induction 1 as [|y l Hs IH Hall]; simpl; constructor; [exact IH|].
  apply List.Forall_map. exact Hall.
Qed.

Lemma sorted_head {A : Type} (R : A -> A -> Prop) (x y : A) (l : list A) :
  (forall a, R a a) -> StronglySorted R (x :: l) -> In y (x :: l) -> R x y.
Proof.
  intros Hrefl Hs [<-|Hy]; [apply Hrefl|].
  apply StronglySorted_inv in Hs as [_ Hall].
  rewrite List.Forall_forall in Hall. apply Hall. exact Hy.
Qed.

Lemma drop_conflicts_fold_sorted (R : Row -> Row -> Prop) (parlay : list Row) :
  forall available, StronglySorted R available ->
    StronglySorted R (fold_left drop_conflicts parlay available).
Proof.
  induction parlay as [|leg parlay IH]; intros available Hs; simpl; [exact Hs|].
  apply IH. unfold drop_conflicts. apply filter_sorted. exact Hs.
Qed.

Lemma drop_conflicts_fold_mono (parlay : list Row) : forall (A B : DataFrame) (r : Row),
  (forall x, In x A -> In x B) ->
  In r (fold_left drop_conflicts parlay A) -> In r (fold_left drop_conflicts parlay B).
Proof.
  induction parlay as [|leg parlay IH]; intros A B r Hsub H; simpl in *; [apply Hsub; exact H|].
  apply (IH (drop_conflicts A leg) (drop_conflicts B leg)); [|exact H].
  intros x Hx. unfold drop_conflicts in *. apply filter_In in Hx as [Hx Hc].
  apply filter_In. split; [apply Hsub; exact Hx | exact Hc].
Qed.

Lemma candidates_sorted (R : Row -> Row -> Prop) (df : DataFrame) (used : gset Z)
    (parlay : list Row) :
  StronglySorted R df -> StronglySorted R (candidates df used parlay).
Proof.
  intros Hs. unfold candidates, unused.
  do 2 apply filter_sorted. apply drop_conflicts_fold_sorted. apply filter_sorted. exact Hs.
Qed.

Lemma candidates_shrink (df : DataFrame) (used : gset Z) (parlay : list Row) (next r : Row) :
  In r (candidates df ({[fst next]} ∪ used) (parlay ++ [next])) ->
  In r (candidates df used parlay).
Proof.
  unfold candidates. intros H.
  apply filter_In in H as [H Hc]. apply filter_In in H as [H Hv].
  apply filter_In. split; [|exact Hc]. apply filter_In. split; [|exact Hv].
  rewrite fold_left_app in H. simpl in H. unfold drop_conflicts at 1 in H.
  apply filter_In in H as [H _].
  apply (drop_conflicts_fold_mono parlay (unused ({[fst next]} ∪ used) df)); [|exact H].
  intros x Hx. apply unused_In in Hx as [Hx Hn]. apply unused_In. split; [exact Hx|].
  intros Hu. apply Hn. apply elem_of_union_r. exact Hu.
Qed.

Lemma extend_sorted (R : Row -> Row -> Prop) (df : DataFrame) (n : nat) :
  (forall a, R a a) -> StronglySorted R df ->
  forall used parlay used' parlay',
    extend df n used parlay = (used', parlay') ->
    StronglySorted R parlay ->
    (forall r x, In r (candidates df used parlay) -> In x parlay -> R x r) ->
    StronglySorted R parlay'.
Proof.
  intros Hrefl Hdf.
  induction n as [|n IH]; intros used parlay used' parlay' H Hs Hinv; simpl in H.
  - injection H as <- <-. exact Hs.
  - pose proof (candidates_sorted R df used parlay Hdf) as Hc.
    destruct (candidates df used parlay) as [|next rest] eqn:E.
    + injection H as <- <-. exact Hs.
    + apply IH in H; [exact H | |].
      * apply sorted_snoc; [exact Hs|]. intros y Hy. apply (Hinv next y); [left; reflexivity | exact Hy].
      * intros r x Hr Hx. apply candidates_shrink in Hr. rewrite E in Hr.
        apply in_app_iff in Hx as [Hx|[<-|[]]].
        -- apply (Hinv r x); assumption.
        -- exact (sorted_head R next r rest Hrefl Hc Hr).
Qed.

Lemma assemble_sorted (df : DataFrame) (min_legs max_legs : Z) (n : nat) :
  StronglySorted (above (fun r : Row => edge (snd r))) df ->
  forall used parlays,
    (forall p, In p parlays -> edges_descend p) ->
    forall p, In p (assemble df min_legs max_legs n used parlays) -> edges_descend p.
Proof.
  intros Hdf.
  induction n as [|n IH]; intros used parlays Hall; simpl; [exact Hall|].
  pose proof (filter_sorted _ (fun r => negb (bool_decide (fst r ∈ used))) df Hdf) as Hu.
  fold (unused used df) in Hu.
  destruct (unused used df) as [|first rest] eqn:E; [exact Hall|].
  destruct (extend df _ _ _) as [used' parlay] eqn:He.
  assert (Hs : StronglySorted (above (fun r : Row => edge (snd r))) parlay).
  { apply (extend_sorted _ df _ (fun a => Qle_refl _) Hdf _ _ _ _ He).
    - repeat constructor.
    - intros r x Hr [<-|[]].
      apply (sorted_head _ first r rest (fun a => Qle_refl _) Hu).
      rewrite <- E. apply candidates_In in Hr as [Hr Hn]. apply unused_In.
      split; [exact Hr|]. intros Hin. apply Hn. apply elem_of_union_r. exact Hin. }
  destruct (min_legs <=? Z.of_nat (length parlay))%Z.
  - apply IH. intros p Hp. apply in_app_iff in Hp as [Hp|[<-|[]]]; [apply Hall; exact Hp|].
    unfold edges_descend. rewrite score_rows_fields. simpl. rewrite cols_of_series.
    apply (sorted_map snd (above edge)). exact Hs.
  - apply IH. exact Hall.
Qed.

Lemma all_pairs_sorted (R : Leg -> Leg -> Prop) (props : list Leg) (a b : Leg) :
  StronglySorted R props -> In (a, b) (all_pairs props) -> R a b.
Proof.
  induction 1 as [|x rest Hs IH Hall]; intros H; [destruct H|].
  simpl in H. apply in_app_iff in H as [H|H]; [|apply IH; exact H].
  apply in_map_iff in H as (b' & [= <- <-] & Hin).
  rewrite List.Forall_forall in Hall. apply Hall. exact Hin.
Qed.

Lemma pair_descends (props : list Leg) (a b : Leg) :
  StronglySorted (above edge) props -> In (a, b) (all_pairs props) ->
  edges_descend (pair_parlay a b).
Proof.
  intros Hs Hin. unfold edges_descend. simpl.
  constructor; [repeat constructor|].
  constructor; [exact (all_pairs_sorted _ props a b Hs Hin) | constructor].
Qed.

Lemma builder_descends (df : DataFrame) (min_legs max_legs top_n : Z) (p : Parlay) :
  StronglySorted (above (fun r : Row => edge (snd r))) df ->
  In p (greedy_parlay_builder df min_legs max_legs top_n) -> edges_descend p.
Proof.
  intros Hdf Hp.
  assert (Hf : StronglySorted (above (fun r : Row => edge (snd r))) (odds_filter df)).
  { unfold odds_filter. do 2 apply filter_sorted. exact Hdf. }
  rewrite greedy_parlay_builder_split in Hp. apply in_app_iff in Hp as [Hp|Hp].
  - destruct (guaranteed_pair_cases (odds_filter df)) as [E | (a & b & E & Hab)];
      rewrite E in Hp; [destruct Hp|].
    destruct Hp as [<-|[]].
    apply (pair_descends (to_dict_records (odds_filter df))); [|exact Hab].
    apply (sorted_map snd (above edge)). exact Hf.
  - apply (assemble_sorted (odds_filter df) min_legs max_legs (Z.to_nat top_n) Hf ∅ []);
      [intros q [] | exact Hp].
Qed.

Lemma prepare_sorted (df : DataFrame) :
  StronglySorted (above (fun r : Row => edge (snd r))) (prepare df).
Proof.
  unfold prepare. apply firstn_sorted. apply (sort_desc_sorted (fun r : Row => edge (snd r))).
Qed.

(** X25. On a pool sorted by descending edge the builder puts the legs of
    every parlay in non-increasing order of edge, so the first leg of a
    parlay has its greatest edge; this holds for every parlay of the
    runner's list, the appended pair included. *)
Theorem legs_in_descending_edge_order :
  (forall (df : DataFrame) (min_legs max_legs top_n : Z) (p : Parlay),
      StronglySorted (above (fun r : Row => edge (snd r))) df ->
      In p (greedy_parlay_builder df min_legs max_legs top_n) ->
      StronglySorted (above edge) (map cols_of (legs p)))
  /\ (forall (df : DataFrame) (p : Parlay),
        In p (run_parlay_generator df) ->
        StronglySorted (above edge) (map cols_of (legs p))).
Proof.
  split.
  - intros df min_legs max_legs top_n p Hdf Hp.
    exact (builder_descends df min_legs max_legs top_n p Hdf Hp).
  - intros df p Hp.
    destruct (run_parlay_generator_cases df) as [[Hrun _] | (a & b & Hrun & _ & Hab & _)];
      rewrite Hrun in Hp.
    + exact (builder_descends (prepare df) 2 5 30 p (prepare_sorted df) Hp).
    + apply in_app_iff in Hp as [Hp|[<-|[]]].
      * exact (builder_descends (prepare df) 2 5 30 p (prepare_sorted df) Hp).
      * apply (pair_descends (to_dict_records (prepare df))); [|exact Hab].
        apply (sorted_map snd (above edge)). apply prepare_sorted.
Qed.

Lemma legs_in_descending_edge_order_witness :
  exists p : Parlay,
    In p (greedy_parlay_builder wide_pool 2 5 30)
    /\ StronglySorted (above edge) (map cols_of (legs p)).
Proof.
  destruct legs_in_descending_edge_order as [H _].
  eexists.
  assert (Hin : In (score_rows (firstn 5 wide_pool)) (greedy_parlay_builder wide_pool 2 5 30))
    by (vm_compute; left; reflexivity).
  split; [exact Hin|].
  apply (H wide_pool 2%Z 5%Z 30%Z _); [|exact Hin].
  unfold wide_pool, wide_seed, above. repeat constructor; simpl; unfold Qle; simpl; lia.
Defined.

(** ** The promotional value on the pipeline's table *)







